(** * obs_note_mover: link extraction, attachment resolution, tag matching
      and the move loop

    A shallow embedding of [obs_note_mover.py].

    Conventions of the model.
    - A Python [str] is a [string]; the model is exact on ASCII text.  The
      classes [\s] and [\w], [str.lower] and [str.strip] are the ASCII
      restrictions of the Python ones, bytes above 127 are neither space nor
      word characters and have no case.
    - A [pathlib.Path] is the list of its [parts] (POSIX flavour).
    - A [dict] is a [gmap], a [set] a [gset]; a list built from a set is
      [elements] of it, the order Python gives is not modelled.
    - The file system and the YAML parser are external: queries go through
      a record of functions, the move loop threads an explicit store.
      [Path.resolve] and [Path.is_file] return or raise; where the program
      catches every exception around a query ([read_text], [stat]), the
      query gives [None] when it raises. *)

From Stdlib Require Import Ascii String.
From stdpp Require Import base strings list gmap sets sorting pretty.

Local Open Scope char_scope.

(** ** Python [str] helpers *)

Module Py.

Definition chr_in (cs : list ascii) (c : ascii) : bool :=
  existsb (Ascii.eqb c) cs.

(** [str.isspace] on ASCII: TAB LF VT FF CR, FS GS RS US and the blank. *)
Definition isspace (c : ascii) : bool :=
  chr_in ["009"; "010"; "011"; "012"; "013"; "028"; "029"; "030"; "031"; " "] c.

Definition in_range (lo hi c : ascii) : bool :=
  (nat_of_ascii lo <=? nat_of_ascii c)%nat && (nat_of_ascii c <=? nat_of_ascii hi)%nat.

Definition isupper (c : ascii) : bool := in_range "A" "Z" c.
Definition islower (c : ascii) : bool := in_range "a" "z" c.
Definition isdigit (c : ascii) : bool := in_range "0" "9" c.

(** The class [\w]: letters, digits and the underscore. *)
Definition isword (c : ascii) : bool :=
  isupper c || islower c || isdigit c || Ascii.eqb c "_".

Definition lower_chr (c : ascii) : ascii :=
  if isupper c then ascii_of_nat (nat_of_ascii c + 32) else c.

(** [s.lower()] *)
Fixpoint lower (s : string) : string :=
  match s with
  | EmptyString => EmptyString
  | String c s' => String (lower_chr c) (lower s')
  end.

Fixpoint all_chr (p : ascii -> bool) (s : string) : bool :=
  match s with
  | EmptyString => true
  | String c s' => p c && all_chr p s'
  end.

(** The longest prefix of [s] whose characters satisfy [p], and what is left. *)
Fixpoint take_while (p : ascii -> bool) (s : string) : string :=
  match s with
  | EmptyString => EmptyString
  | String c s' => if p c then String c (take_while p s') else EmptyString
  end.

Fixpoint drop_while (p : ascii -> bool) (s : string) : string :=
  match s with
  | EmptyString => EmptyString
  | String c s' => if p c then drop_while p s' else s
  end.

Definition lstrip_by (p : ascii -> bool) (s : string) : string := drop_while p s.

(** The end of [s] is stripped once its tail is; the head goes too when
    nothing of the tail is left and [p] holds of it. *)
Fixpoint rstrip_by (p : ascii -> bool) (s : string) : string :=
  match s with
  | EmptyString => EmptyString
  | String c s' =>
      match rstrip_by p s' with
      | EmptyString => if p c then EmptyString else String c EmptyString
      | r => String c r
      end
  end.

(** [s.strip()] and [s.strip(chars)]: both ends. *)
Definition strip (s : string) : string := rstrip_by isspace (lstrip_by isspace s).
Definition strip_chars (cs : list ascii) (s : string) : string :=
  rstrip_by (chr_in cs) (lstrip_by (chr_in cs) s).
(** [s.lstrip(chars)] *)
Definition lstrip_chars (cs : list ascii) (s : string) : string :=
  lstrip_by (chr_in cs) s.

(** [s.split(c)[0]]: what precedes the first [c]. *)
Definition split_head (c : ascii) (s : string) : string :=
  take_while (fun x => negb (Ascii.eqb x c)) s.

(** [s.split(c)] for a one-character separator. *)
Fixpoint split (c : ascii) (s : string) : list string :=
  match s with
  | EmptyString => [EmptyString]
  | String x s' =>
      if Ascii.eqb x c then EmptyString :: split c s'
      else match split c s' with
           | w :: ws => String x w :: ws
           | [] => [String x EmptyString]
           end
  end.

(** [s.startswith(p)] *)
Fixpoint startswith (p s : string) : bool :=
  match p, s with
  | EmptyString, _ => true
  | String a p', String b s' => Ascii.eqb a b && startswith p' s'
  | String _ _, EmptyString => false
  end.

(** [needle in hay] *)
Fixpoint contains (needle hay : string) : bool :=
  startswith needle hay ||
  match hay with
  | EmptyString => false
  | String _ hay' => contains needle hay'
  end.

(** [s.rfind(c)] *)
Fixpoint rfind (c : ascii) (s : string) : option nat :=
  match s with
  | EmptyString => None
  | String x s' =>
      match rfind c s' with
      | Some i => Some (S i)
      | None => if Ascii.eqb x c then Some 0%nat else None
      end
  end.

Definition is_empty (s : string) : bool :=
  match s with EmptyString => true | _ => false end.

End Py.

(** ** The [re] module: a backtracking matcher

    The four patterns of the program repeat single-character classes only,
    so repetition is over a class.  Alternatives and optional parts are tried
    in order, a greedy repetition tries the longest run first, and the first
    success in that order is the match, as in [sre]. *)

Module Re.

Inductive regex : Type :=
| Lit (c : ascii)                                  (* one literal character *)
| Class (p : ascii -> bool)                        (* [...] once *)
| Rep (p : ascii -> bool) (min : nat) (greedy : bool)  (* [...]{min,} or lazy *)
| Bol                                              (* ^ without re.MULTILINE *)
| Seq (r1 r2 : regex)
| Alt (r1 r2 : regex)                              (* r1|r2 *)
| Opt (r : regex)                                  (* (?:r)? *)
| Group (r : regex).                               (* ( r ), group 1 *)

Record mstate : Type := MState {
  m_pos : nat;             (* offset of the cursor in the subject *)
  m_rest : string;         (* the subject from the cursor on *)
  m_group : option string  (* group 1, once it has closed *)
}.

Definition advance (st : mstate) (s' : string) : mstate :=
  MState (S (m_pos st)) s' (m_group st).

Definition or_else {R} (x : option R) (y : option R) : option R :=
  match x with Some r => Some r | None => y end.

Section Matcher.
Context {R : Type}.

Fixpoint rep_greedy (p : ascii -> bool) (min pos : nat) (s : string)
    (g : option string) (k : mstate -> option R) : option R :=
  let stop := match min with O => k (MState pos s g) | S _ => None end in
  match s with
  | String c s' =>
      if p c then or_else (rep_greedy p (Nat.pred min) (S pos) s' g k) stop
      else stop
  | EmptyString => stop
  end.

Fixpoint rep_lazy (p : ascii -> bool) (min pos : nat) (s : string)
    (g : option string) (k : mstate -> option R) : option R :=
  let more :=
    match s with
    | String c s' => if p c then rep_lazy p (Nat.pred min) (S pos) s' g k else None
    | EmptyString => None
    end in
  match min with
  | O => or_else (k (MState pos s g)) more
  | S _ => more
  end.

Fixpoint run (r : regex) (st : mstate) (k : mstate -> option R) : option R :=
  match r with
  | Lit c =>
      match m_rest st with
      | String c' s' => if Ascii.eqb c' c then k (advance st s') else None
      | EmptyString => None
      end
  | Class p =>
      match m_rest st with
      | String c' s' => if p c' then k (advance st s') else None
      | EmptyString => None
      end
  | Rep p min greedy =>
      (if greedy then rep_greedy else rep_lazy)
        p min (m_pos st) (m_rest st) (m_group st) k
  | Bol => if (m_pos st =? 0)%nat then k st else None
  | Seq r1 r2 => run r1 st (fun st' => run r2 st' k)
  | Alt r1 r2 => or_else (run r1 st k) (run r2 st k)
  | Opt r1 => or_else (run r1 st k) (k st)
  | Group r1 =>
      run r1 st (fun st' =>
        k (MState (m_pos st') (m_rest st')
             (Some (substring 0 (m_pos st' - m_pos st) (m_rest st)))))
  end.

End Matcher.

(** A match attempt anchored at the cursor: the end offset and group 1
    (the empty string when the group took no part, as [findall] reports). *)
Definition report (st : mstate) : option (nat * string) :=
  Some (m_pos st, default EmptyString (m_group st)).

Definition match_at (r : regex) (pos : nat) (s : string) : option (nat * string) :=
  run r (MState pos s None) report.

(** [pattern.match(text)]: group 1 of a match at offset 0. *)
Definition match_start (r : regex) (text : string) : option string :=
  snd <$> match_at r 0 text.

(** The scan of [pattern.findall]: [skip] characters of the last match are
    still to be passed over before the next attempt. *)
Fixpoint findall_from (r : regex) (pos skip : nat) (s : string) : list string :=
  match skip with
  | S n =>
      match s with
      | String _ s' => findall_from r (S pos) n s'
      | EmptyString => []
      end
  | O =>
      match match_at r pos s with
      | Some (e, g) =>
          g :: match s with
               | String _ s' => findall_from r (S pos) (e - pos - 1) s'
               | EmptyString => []
               end
      | None =>
          match s with
          | String _ s' => findall_from r (S pos) 0 s'
          | EmptyString => []
          end
      end
  end.

(** [pattern.findall(text)] for a pattern with one group. *)
Definition findall (r : regex) (text : string) : list string :=
  findall_from r 0 0 text.

Definition none_of (cs : list ascii) (c : ascii) : bool := negb (Py.chr_in cs c).

End Re.

Import Re.

(** [WIKI_LINK_RE = re.compile(r'!?\[\[([^\]|#]+)(?:\|[^\]]+)?(?:#[^\]]+)?\]\]')] *)
Definition WIKI_LINK_RE : regex :=
  Seq (Opt (Lit "!"))
 (Seq (Lit "[")
 (Seq (Lit "[")
 (Seq (Group (Rep (none_of ["]"; "|"; "#"]) 1 true))
 (Seq (Opt (Seq (Lit "|") (Rep (none_of ["]"]) 1 true)))
 (Seq (Opt (Seq (Lit "#") (Rep (none_of ["]"]) 1 true)))
 (Seq (Lit "]") (Lit "]"))))))).

(** [MD_LINK_RE = re.compile(r'!?\[[^\]]*\]\(([^" \)]+)(?:\s+"[^"]*")?\)')] *)
Definition MD_LINK_RE : regex :=
  Seq (Opt (Lit "!"))
 (Seq (Lit "[")
 (Seq (Rep (none_of ["]"]) 0 true)
 (Seq (Lit "]")
 (Seq (Lit "(")
 (Seq (Group (Rep (none_of ["034"; " "; ")"]) 1 true))
 (Seq (Opt (Seq (Rep Py.isspace 1 true)
           (Seq (Lit "034")
           (Seq (Rep (none_of ["034"]) 0 true)
                (Lit "034")))))
      (Lit ")"))))))).

(** [TAG_RE = re.compile(r'(?:^|\s)#([\w-]+)')] *)
Definition tag_chr (c : ascii) : bool := Py.isword c || Ascii.eqb c "-".

Definition TAG_RE : regex :=
  Seq (Alt Bol (Class Py.isspace))
 (Seq (Lit "#")
      (Group (Rep tag_chr 1 true))).

(** [FRONTMATTER_RE = re.compile(r'^---\s*\n(.*?)\n---\s*\n', re.DOTALL)] *)
Definition FRONTMATTER_RE : regex :=
  Seq Bol
 (Seq (Lit "-") (Seq (Lit "-") (Seq (Lit "-")
 (Seq (Rep Py.isspace 0 true)
 (Seq (Lit "010")
 (Seq (Group (Rep (fun _ => true) 0 false))
 (Seq (Lit "010")
 (Seq (Lit "-") (Seq (Lit "-") (Seq (Lit "-")
 (Seq (Rep Py.isspace 0 true)
      (Lit "010")))))))))))).

Local Close Scope char_scope.

(** ** [urllib.parse.unquote]

    Every [%XY] with two hexadecimal digits becomes the byte [XY], in one
    pass; any other [%] stays.  (The replacement of byte runs that are not
    UTF-8 is outside the model.) *)

Definition hex_digit (c : ascii) : option nat :=
  if Py.isdigit c then Some (nat_of_ascii c - 48)
  else if Py.in_range "a" "f" c then Some (nat_of_ascii c - 87)
  else if Py.in_range "A" "F" c then Some (nat_of_ascii c - 55)
  else None.

Definition hex_pair (s : string) : option ascii :=
  match s with
  | String a (String b _) =>
      match hex_digit a, hex_digit b with
      | Some x, Some y => Some (ascii_of_nat (16 * x + y))
      | _, _ => None
      end
  | _ => None
  end.

Fixpoint unquote_from (skip : nat) (s : string) : string :=
  match s with
  | EmptyString => EmptyString
  | String c t =>
      match skip with
      | S n => unquote_from n t
      | O =>
          match (if Ascii.eqb c "%" then hex_pair t else None) with
          | Some b => String b (unquote_from 2 t)
          | None => String c (unquote_from 0 t)
          end
      end
  end.

Definition unquote (s : string) : string := unquote_from 0 s.

(** ** [pathlib]: pure paths as their parts *)

Abbreviation Path := (list string).

Definition anchor (s : string) : Path :=
  match s with
  | String "/" (String "/" (String "/" _)) => ["/"]
  | String "/" (String "/" _) => ["//"]
  | String "/" _ => ["/"]
  | _ => []
  end.

Definition is_component (c : string) : bool :=
  negb (Py.is_empty c) && negb (String.eqb c ".").

(** [Path(s)] *)
Definition parse_path (s : string) : Path :=
  anchor s ++ List.filter is_component (Py.split "/" s).

(** [d / s] for a string [s]: an absolute [s] replaces [d]. *)
Definition join_path (d : Path) (s : string) : Path :=
  if Py.startswith "/" s then parse_path s else d ++ parse_path s.

(** [p.name]: the last part, unless the path is only its anchor. *)
Definition path_name (p : Path) : string :=
  match last p with
  | Some c => if Py.contains "/" c then "" else c
  | None => ""
  end.

(** [p.parent] *)
Definition path_parent (p : Path) : Path :=
  if Py.is_empty (path_name p) then p else removelast p.

(** [(p.stem, p.suffix)]: the name is cut at its last dot when that dot is
    neither its first nor its last character. *)
Definition split_ext (name : string) : string * string :=
  match Py.rfind "." name with
  | Some i =>
      if (0 <? i)%nat && (i <? String.length name - 1)%nat
      then (substring 0 i name, substring i (String.length name - i) name)
      else (name, "")
  | None => (name, "")
  end.

Definition path_stem (p : Path) : string := fst (split_ext (path_name p)).
Definition path_suffix (p : Path) : string := snd (split_ext (path_name p)).

(** ** Exceptions *)

Inductive exn : Type := IndexError | FileNotFoundError | ValueError | OSError.

Inductive result (A : Type) : Type :=
| Ok (a : A)
| Raise (e : exn).
Arguments Ok {A} a.
Arguments Raise {A} e.

#[global] Instance result_ret : MRet result := fun _ a => Ok a.
#[global] Instance result_bind : MBind result := fun _ _ f m =>
  match m with Ok a => f a | Raise e => Raise e end.

(** ** The file system as the scan sees it, and the YAML parser *)

(** [Path.resolve()] raises on a path the system calls refuse (a NUL byte
    gives [ValueError]), and [Path.is_file()] lets through every [OSError]
    that does not say the file is missing (a component too long for the
    file system, a directory that may not be searched). *)
Record FileSystem : Type := {
  fs_resolve : Path -> result Path;     (* Path.resolve() *)
  fs_is_file : Path -> result bool;     (* Path.is_file() *)
  fs_read_text : Path -> option string; (* Path.read_text(), None when it raises *)
  fs_stat_size : Path -> option nat     (* Path.stat().st_size, None when it raises *)
}.

(** What [yaml.safe_load] returns. *)
#[local] Set Warnings "-register-all".
Inductive yaml : Type :=
| YNull
| YBool (b : bool)
| YInt (z : Z)
| YStr (s : string)
| YSeq (items : list yaml)
| YMap (items : list (yaml * yaml)).

Definition is_key (key : string) (kv : yaml * yaml) : bool :=
  match fst kv with YStr k => String.eqb k key | _ => false end.

(** [data.get(key, dflt)] *)
Definition dict_get (key : string) (dflt : yaml) (items : list (yaml * yaml)) : yaml :=
  match List.find (is_key key) items with
  | Some kv => snd kv
  | None => dflt
  end.

Definition str_items (f : string -> string) (items : list yaml) : list string :=
  omap (fun t => match t with YStr s => Some (f s) | _ => None end) items.

Module NoteMetadata.
Record t : Type := Build {
  path : Path;
  matched_tags : list string;
  attachments : list Path;
  size : nat
}.
End NoteMetadata.

(** ** Attachment resolution *)

(** The basic cleaning at the head of [resolve_attachment]:
    [link = urllib.parse.unquote(link).strip()] and then
    [link = link.split('#')[0].split('?')[0]]. *)
Definition clean_link (link : string) : string :=
  let link := Py.strip (unquote link) in
  Py.split_head "?" (Py.split_head "#" link).

(** The local function [proximity]: the loop over [zip(p.parts, note_dir.parts)]
    counts equal parts and breaks at the first difference. *)
Fixpoint proximity (note_dir p : Path) : nat :=
  match p, note_dir with
  | a :: p', b :: d' => if String.eqb a b then S (proximity d' p') else 0
  | _, _ => 0
  end.

(** [max(candidates, key=key)]: a later element replaces the best one only
    when its key is strictly greater. *)
Fixpoint max_from {A} (key : A -> nat) (best : A) (l : list A) : A :=
  match l with
  | [] => best
  | x :: l' => max_from key (if (key best <? key x)%nat then x else best) l'
  end.

Section Engine.
Context (fs : FileSystem) (safe_load : string -> option yaml).

Definition resolve_attachment (link : string) (note_dir vault_root : Path)
    (vault_index : gmap string (list Path)) : result (option Path) :=
  let link := clean_link link in
  if Py.is_empty link then Ok None else
  path_rel ← fs_resolve fs (join_path note_dir link);
  rel_is_file ← fs_is_file fs path_rel;
  if (rel_is_file : bool) then Ok (Some path_rel) else
  path_vault ← fs_resolve fs (join_path vault_root link);
  vault_is_file ← fs_is_file fs path_vault;
  if (vault_is_file : bool) then Ok (Some path_vault) else
  let filename := path_name (parse_path link) in
  let lower_name := Py.lower filename in
  match vault_index !! lower_name with
  | Some candidates =>
      if (1 <? length candidates)%nat then
        match candidates with
        | c :: rest => Ok (Some (max_from (proximity note_dir) c rest))
        | [] => Ok None
        end
      else
        match candidates with
        | c :: _ => Ok (Some c)
        | [] => Raise IndexError
        end
  | None => Ok None
  end.

Definition target_keys : list string :=
  ["image"; "cover"; "banner"; "file"; "attachment"; "thumbnail"].

(** The loop over [data.items()]; [key.lower()] raises on a key that is not
    a string, and the handler returns what was collected so far. *)
Fixpoint collect_links (items : list (yaml * yaml)) (links : list string) : list string :=
  match items with
  | [] => links
  | (YStr key, value) :: rest =>
      if existsb (fun tk => Py.contains tk (Py.lower key)) target_keys then
        match value with
        | YStr v => collect_links rest (links ++ [Py.strip_chars ["["; "]"; "!"]%char v])
        | YSeq vs => collect_links rest (links ++ str_items (Py.strip_chars ["["; "]"; "!"]%char) vs)
        | _ => collect_links rest links
        end
      else collect_links rest links
  | _ :: _ => links
  end.

Definition extract_frontmatter_links (text : string) : list string :=
  match match_start FRONTMATTER_RE text with
  | None => []
  | Some block =>
      match safe_load block with
      | Some (YMap items) => collect_links items []
      | _ => []
      end
  end.

Definition is_external (link : string) : bool :=
  existsb (fun p => Py.startswith p link) ["http://"; "https://"; "//"; "mailto:"].

(** The loop of [find_attachments] over the links, [attachments] being the
    list built so far. *)
Fixpoint resolve_links (links : list string) (note_dir vault_root : Path)
    (vault_index : gmap string (list Path)) (attachments : list Path)
    : result (list Path) :=
  match links with
  | [] => Ok attachments
  | link :: rest =>
      if is_external link then
        resolve_links rest note_dir vault_root vault_index attachments
      else
        resolved ← resolve_attachment link note_dir vault_root vault_index;
        match resolved with
        | Some p =>
            if negb (String.eqb (Py.lower (path_suffix p)) ".md")
            then resolve_links rest note_dir vault_root vault_index (attachments ++ [p])
            else resolve_links rest note_dir vault_root vault_index attachments
        | None => resolve_links rest note_dir vault_root vault_index attachments
        end
  end.

(** [links] of [find_attachments] before the front-matter ones are added. *)
Definition body_links (text : string) : list string :=
  findall WIKI_LINK_RE text ++ findall MD_LINK_RE text.

Definition find_attachments (text : string) (note_dir vault_root : Path)
    (vault_index : gmap string (list Path)) : result (list Path) :=
  let links := body_links text ++ extract_frontmatter_links text in
  attachments ← resolve_links links note_dir vault_root vault_index [];
  Ok (elements (list_to_set attachments : gset Path)).

(** The tags the front matter contributes in [process_note]. *)
Definition frontmatter_tags (text : string) : gset string :=
  match match_start FRONTMATTER_RE text with
  | None => ∅
  | Some block =>
      match safe_load block with
      | Some (YMap items) =>
          match dict_get "tags" (YSeq []) items with
          | YStr fm_tags => {[ Py.strip_chars ["#"]%char fm_tags ]}
          | YSeq fm_tags => list_to_set (str_items (Py.strip_chars ["#"]%char) fm_tags)
          | _ => ∅
          end
      | _ => ∅
      end
  end.

(** [note_tags] of [process_note] once the front matter has been read. *)
Definition note_tags (text : string) : gset string :=
  list_to_set (findall TAG_RE text) ∪ frontmatter_tags text.

(** Any exception inside [process_note] makes it return [None]. *)
Definition process_note (note_path : Path) (target_tags : gset string)
    (vault_root : Path) (vault_index : gmap string (list Path))
    : option NoteMetadata.t :=
  match fs_read_text fs note_path with
  | None => None
  | Some text =>
      let matched := elements (target_tags ∩ note_tags text) in
      match matched with
      | [] => None
      | _ :: _ =>
          match find_attachments text (path_parent note_path) vault_root vault_index with
          | Raise _ => None
          | Ok attachments =>
              match fs_stat_size fs note_path with
              | None => None
              | Some sz => Some (NoteMetadata.Build note_path matched attachments sz)
              end
          end
      end
  end.

(** One turn of the loop of [build_vault_index]; [p.is_file()] is asked
    first, for every path. *)
Definition index_add (excluded : gset string) (index : gmap string (list Path))
    (p : Path) : result (gmap string (list Path)) :=
  is_file ← fs_is_file fs p;
  if (is_file : bool) && negb (existsb (fun part => bool_decide (part ∈ excluded)) p) then
    let lower_name := Py.lower (path_name p) in
    Ok (<[lower_name := default [] (index !! lower_name) ++ [p]]> index)
  else Ok index.

Fixpoint index_all (excluded : gset string) (listing : list Path)
    (index : gmap string (list Path)) : result (gmap string (list Path)) :=
  match listing with
  | [] => Ok index
  | p :: rest => index' ← index_add excluded index p; index_all excluded rest index'
  end.

(** [build_vault_index] over the sequence [source_dir.rglob("*")] yields. *)
Definition build_vault_index (listing : list Path) (excluded : gset string)
    : result (gmap string (list Path)) :=
  index_all excluded listing ∅.

End Engine.

(** ** The move phase of [main]

    The disk is a finite map from the paths of the files to their contents.
    The body of the [try] mutates the disk and the counters in place; an
    exception leaves what was done and ends the body. *)

Record run_state : Type := RunState {
  disk : gmap Path string;
  moved_notes : nat;
  moved_atts : nat;
  errors : nat
}.

(** A step of the [try] body: the state it leaves, and the exception if one
    was raised. *)
Definition Step (A : Type) : Type := run_state -> run_state * result A.

#[global] Instance step_ret : MRet Step := fun _ a st => (st, Ok a).
#[global] Instance step_bind : MBind Step := fun _ _ f m st =>
  match m st with
  | (st', Ok a) => f a st'
  | (st', Raise e) => (st', Raise e)
  end.

(** [p.exists()] *)
Definition path_exists (p : Path) : Step bool :=
  fun st => (st, Ok (bool_decide (is_Some (disk st !! p)))).

(** [shutil.move(src, dst)] between file paths: a rename, which replaces a
    file already at [dst] and raises when [src] is missing. *)
Definition shutil_move (src dst : Path) : Step unit :=
  fun st =>
    match disk st !! src with
    | Some content =>
        (RunState (<[dst := content]> (delete src (disk st)))
                  (moved_notes st) (moved_atts st) (errors st), Ok tt)
    | None => (st, Raise FileNotFoundError)
    end.

Definition incr_moved_atts : Step unit :=
  fun st => (RunState (disk st) (moved_notes st) (S (moved_atts st)) (errors st), Ok tt).
Definition incr_moved_notes : Step unit :=
  fun st => (RunState (disk st) (S (moved_notes st)) (moved_atts st) (errors st), Ok tt).
Definition incr_errors (st : run_state) : run_state :=
  RunState (disk st) (moved_notes st) (moved_atts st) (S (errors st)).

(** One turn of [for att in note.attachments]. *)
Definition move_attachment (dest_dir att : Path) : Step unit :=
  here ← path_exists att;
  if negb here then mret tt else
  let dest_att := join_path dest_dir (path_name att) in
  taken ← path_exists dest_att;
  if negb taken then shutil_move att dest_att ;; incr_moved_atts
  else mret tt.

Fixpoint move_attachments (dest_dir : Path) (atts : list Path) : Step unit :=
  match atts with
  | [] => mret tt
  | att :: rest => move_attachment dest_dir att ;; move_attachments dest_dir rest
  end.

(** The name a note takes when its own is taken: [f"{stem}_{i}{suffix}"]. *)
Definition indexed_name (i : nat) (p : Path) : string :=
  path_stem p +:+ "_" +:+ pretty i +:+ path_suffix p.

(** The second half of the [try] body. *)
Definition move_note (dest_dir : Path) (i : nat) (note : NoteMetadata.t) : Step unit :=
  let dest_note := join_path dest_dir (path_name (NoteMetadata.path note)) in
  taken ← path_exists dest_note;
  let dest_note :=
    if (taken : bool) then join_path dest_dir (indexed_name i (NoteMetadata.path note))
    else dest_note in
  shutil_move (NoteMetadata.path note) dest_note ;; incr_moved_notes.

Definition try_body (dest_dir : Path) (i : nat) (note : NoteMetadata.t) : Step unit :=
  move_attachments dest_dir (NoteMetadata.attachments note) ;;
  move_note dest_dir i note.

(** One turn of [for i, note in enumerate(notes, 1)], with its handler. *)
Definition move_one (dest_dir : Path) (i : nat) (note : NoteMetadata.t)
    (st : run_state) : run_state :=
  match try_body dest_dir i note st with
  | (st', Ok _) => st'
  | (st', Raise _) => incr_errors st'
  end.

Fixpoint move_from (dest_dir : Path) (i : nat) (notes : list NoteMetadata.t)
    (st : run_state) : run_state :=
  match notes with
  | [] => st
  | note :: rest => move_from dest_dir (S i) rest (move_one dest_dir i note st)
  end.

(** Step 6 of [main]: the counters start at zero, the notes are numbered
    from one. *)
Definition move_phase (dest_dir : Path) (notes : list NoteMetadata.t)
    (files : gmap Path string) : run_state :=
  move_from dest_dir 1 notes (RunState files 0 0 0).

(** ** The resolver as the specification words it

    An ordered list of strategies, each from the cleaned link to an optional
    path; the first that succeeds gives the result. *)

Definition strategy : Type := string -> result (option Path).

(** The strategies in order: an answer ends the chain, and so does an
    exception. *)
Fixpoint first_success (strategies : list strategy) (link : string)
    : result (option Path) :=
  match strategies with
  | [] => Ok None
  | s :: rest =>
      tried ← s link;
      match tried with
      | Some p => Ok (Some p)
      | None => first_success rest link
      end
  end.

(** Join, normalize, and succeed iff the result exists as a file. *)
Definition join_strategy (fs : FileSystem) (base : Path) : strategy :=
  fun link =>
    p ← fs_resolve fs (join_path base link);
    is_file ← fs_is_file fs p;
    Ok (if (is_file : bool) then Some p else None).

(** [n] is the number of parts [p] and [note_dir] share from the root on:
    they agree on their first [n] parts and part [n], where both have one,
    differs. *)
Definition common_prefix_length (note_dir p : Path) (n : nat) : Prop :=
  take n p = take n note_dir ∧ n ≤ length p ∧ n ≤ length note_dir ∧
  ∀ a b, p !! n = Some a → note_dir !! n = Some b → a ≠ b.

(** The candidate with the highest count, the first of them in the list. *)
Definition closest (note_dir : Path) (candidates : list Path) : option Path :=
  let best := max_list (proximity note_dir <$> candidates) in
  List.find (fun c => proximity note_dir c =? best)%nat candidates.

Definition index_key (link : string) : string :=
  Py.lower (path_name (parse_path link)).

(** Zero matches fail, one match is returned, several go to the tie-break. *)
Definition name_only_lookup (note_dir : Path) (index : gmap string (list Path)) : strategy :=
  fun link =>
    Ok match index !! index_key link with
       | None | Some [] => None
       | Some [c] => Some c
       | Some candidates => closest note_dir candidates
       end.

Definition strategy_chain (fs : FileSystem) (note_dir vault_root : Path)
    (index : gmap string (list Path)) : list strategy :=
  [join_strategy fs note_dir; join_strategy fs vault_root;
   name_only_lookup note_dir index].

(** Every list of an index holds a path, and only files under their
    lowercased names. *)
Definition index_well_formed (fs : FileSystem) (index : gmap string (list Path)) : Prop :=
  ∀ key candidates, index !! key = Some candidates →
    candidates ≠ [] ∧
    ∀ p, p ∈ candidates → fs_is_file fs p = Ok true ∧ Py.lower (path_name p) = key.

(** ** Link and tag forms, as the specification words them *)

(** What may follow a maximal run of [p]: the end, or a character outside [p]. *)
Definition stops (p : ascii → bool) (s : string) : Prop :=
  match s with
  | EmptyString => True
  | String c _ => p c = false
  end.

(** A pattern that opens with [!?\[]. *)
Definition opens_with_bracket (r : regex) : regex :=
  Seq (Opt (Lit "!")) (Seq (Lit "[") r).

Definition no_bracket (c : ascii) : bool := negb (Ascii.eqb c "[").

(** [WIKI_LINK_RE] after its [!?\[]. *)
Definition wiki_inner : regex :=
  Seq (Lit "[")
 (Seq (Group (Rep (none_of ["]"; "|"; "#"]%char) 1 true))
 (Seq (Opt (Seq (Lit "|") (Rep (none_of ["]"]%char) 1 true)))
 (Seq (Opt (Seq (Lit "#") (Rep (none_of ["]"]%char) 1 true)))
 (Seq (Lit "]") (Lit "]"))))).

(** The target of a wiki link: not empty, and free of the three characters
    that end it. *)
Definition wiki_target (target : string) : Prop :=
  target ≠ "" ∧ Py.all_chr (none_of ["]"; "|"; "#"]%char) target = true.

(** What may stand between the target and the closing brackets: nothing, or
    [|] or [#] and then text (an alias, a fragment, or an alias and a
    fragment) without a closing bracket. *)
Definition wiki_extra (extra : string) : Prop :=
  extra = "" ∨
  ∃ sep rest, extra = String sep rest ∧ (sep = "|"%char ∨ sep = "#"%char) ∧
              rest ≠ "" ∧ Py.all_chr (none_of ["]"]%char) rest = true.

(** The double quote, as a one-character string. *)
Definition dq : string := String "034" "".

(** [MD_LINK_RE] after its [!?\[]. *)
Definition md_title_re : regex :=
  Seq (Rep Py.isspace 1 true)
 (Seq (Lit "034")
 (Seq (Rep (none_of ["034"]%char) 0 true)
      (Lit "034"))).

Definition md_inner : regex :=
  Seq (Rep (none_of ["]"]%char) 0 true)
 (Seq (Lit "]")
 (Seq (Lit "(")
 (Seq (Group (Rep (none_of ["034"; " "; ")"]%char) 1 true))
 (Seq (Opt md_title_re)
      (Lit ")"))))).

Definition md_label (label : string) : Prop :=
  Py.all_chr (none_of ["]"]%char) label = true.

(** The target of a markdown link: not empty, without quote, blank or
    closing parenthesis. *)
Definition md_target (target : string) : Prop :=
  target ≠ "" ∧ Py.all_chr (none_of ["034"; " "; ")"]%char) target = true.

(** White space, and some of it. *)
Definition white_gap (gap : string) : Prop :=
  gap ≠ "" ∧ Py.all_chr Py.isspace gap = true.

(** What separates the target from its title: a blank and then any white
    space, or one white space character of any kind. *)
Definition md_gap (gap : string) : Prop :=
  (∃ rest, gap = String " " rest ∧ Py.all_chr Py.isspace rest = true) ∨
  (∃ w, gap = String w "" ∧ Py.isspace w = true).

Definition md_title (title : string) : Prop :=
  Py.all_chr (none_of ["034"]%char) title = true.

(** What the group of [MD_LINK_RE] keeps of the white space between the
    target and the title: the part before its first blank, or, when there
    is no blank in it, all but its last character. *)
Definition not_blank (c : ascii) : bool := negb (Ascii.eqb c " ").

Definition md_kept (gap : string) : string :=
  let before_blank := Py.take_while not_blank gap in
  if String.eqb before_blank gap then substring 0 (String.length gap - 1) gap
  else before_blank.

(** ** A text as its links and what lies between them

    A stretch of text without an opening bracket, a wiki link or embed, or
    a markdown link or image, the latter with or without a title in double
    quotes after white space. *)
Inductive segment : Type :=
| Plain (s : string)
| Wiki (embed : bool) (target extra : string)
| Md (image : bool) (label target : string) (title : option (string * string)).

Definition bang (b : bool) : string := if b then "!" else "".

Definition title_text (title : option (string * string)) : string :=
  match title with
  | Some (gap, words) => gap +:+ dq +:+ words +:+ dq
  | None => ""
  end.

Definition segment_text (seg : segment) : string :=
  match seg with
  | Plain s => s
  | Wiki embed target extra => bang embed +:+ "[[" +:+ target +:+ extra +:+ "]]"
  | Md image label target title =>
      bang image +:+ "[" +:+ label +:+ "](" +:+ target +:+ title_text title +:+ ")"
  end.

Fixpoint render (segs : list segment) : string :=
  match segs with
  | [] => ""
  | seg :: rest => segment_text seg +:+ render rest
  end.

Definition is_open (c : ascii) : bool := Ascii.eqb c "[".

Fixpoint ends_with_bang (s : string) : bool :=
  match s with
  | EmptyString => false
  | String c EmptyString => Ascii.eqb c "!"
  | String _ s' => ends_with_bang s'
  end.

(** The parts are what they are said to be: a stretch of text has no
    opening bracket, and the [!] it may end with is not the [!] of the link
    that follows; targets, aliases, labels and titles are free of the
    characters that would end them early. *)
Fixpoint well_formed (segs : list segment) : Prop :=
  match segs with
  | [] => True
  | Plain s :: rest =>
      Py.all_chr no_bracket s = true ∧
      (ends_with_bang s = true → stops is_open (render rest)) ∧
      well_formed rest
  | Wiki _ target extra :: rest =>
      wiki_target target ∧ wiki_extra extra ∧ well_formed rest
  | Md _ label target title :: rest =>
      md_label label ∧ md_target target ∧
      match title with
      | Some (gap, words) => white_gap gap ∧ md_title words
      | None => True
      end ∧
      well_formed rest
  end.

(** No markdown link holds an opening bracket of its own. *)
Fixpoint md_links_plain (segs : list segment) : Prop :=
  match segs with
  | [] => True
  | Md _ label target title :: rest =>
      Py.all_chr no_bracket (label +:+ target +:+ title_text title) = true ∧
      md_links_plain rest
  | _ :: rest => md_links_plain rest
  end.

(** The targets of the wiki links, and what the markdown links give: the
    target, with what the group keeps of the white space before a title. *)
Fixpoint wiki_targets (segs : list segment) : list string :=
  match segs with
  | [] => []
  | Wiki _ target _ :: rest => target :: wiki_targets rest
  | _ :: rest => wiki_targets rest
  end.

Definition md_group (target : string) (title : option (string * string)) : string :=
  match title with
  | Some (gap, _) => target +:+ md_kept gap
  | None => target
  end.

Fixpoint md_groups (segs : list segment) : list string :=
  match segs with
  | [] => []
  | Md _ _ target title :: rest => md_group target title :: md_groups rest
  | _ :: rest => md_groups rest
  end.

(** Inline tags as the specification words them: a [#] at the start of the
    text or right after white space, followed by a word; the tag is the
    whole run of word characters after the [#].  [boundary] tells whether a
    tag may start at the head of [s]. *)
Fixpoint scan_tags (word : ascii → bool) (boundary : bool) (s : string) : list string :=
  match s with
  | EmptyString => []
  | String c s' =>
      let w := Py.take_while word s' in
      (if boundary && Ascii.eqb c "#" && negb (Py.is_empty w) then [w] else [])
      ++ scan_tags word (Py.isspace c) s'
  end.




(** The characters of a word as the specification lists them: letters,
    digits and the hyphen. *)
Definition claimed_tag_chr (c : ascii) : bool :=
  Py.isupper c || Py.islower c || Py.isdigit c || Ascii.eqb c "-".

(** The tag that starts at the head of [s], if [s] is [#] and a word. *)
Definition tag_after_hash (s : string) : option string :=
  match s with
  | String c s' =>
      if Ascii.eqb c "#" && negb (Py.is_empty (Py.take_while tag_chr s'))
      then Some (Py.take_while tag_chr s') else None
  | EmptyString => None
  end.

(** The cleaning in the order the specification gives it: decode, cut the
    fragment and the query, then strip the white space. *)
Definition claimed_clean_link (link : string) : string :=
  Py.strip (Py.split_head "?" (Py.split_head "#" (unquote link))).

(** A front-matter tag with only its leading [#] characters removed. *)
Definition claimed_frontmatter_tag (v : string) : string :=
  Py.lstrip_chars ["#"]%char v.

(** The two cuts of the cleaning, [split('#')[0]] and [split('?')[0]]. *)
Definition cut_suffix (s : string) : string :=
  Py.split_head "?" (Py.split_head "#" s).

(** ** Example worlds *)

(** A path with a NUL byte in one of its parts, and a path with a part of
    more than 255 bytes. *)
Definition nul : string := String "000" "".

Definition has_nul (p : Path) : bool := existsb (Py.contains nul) p.

Definition too_long (p : Path) : bool :=
  existsb (fun part => (255 <? String.length part)%nat) p.

(** A name of 300 characters. *)
Definition long_name : string := string_of_list_ascii (replicate 300 "a"%char).

(** The scan's view of a disk of plain files: paths are absolute and
    normal already, so [resolve] changes nothing.  As on Linux, a path with
    a NUL byte cannot be resolved and a part of more than 255 bytes cannot
    be looked up. *)
Definition disk_view (files : gmap Path string) : FileSystem :=
  {| fs_resolve := fun p => if has_nul p then Raise ValueError else Ok p;
     fs_is_file := fun p =>
       if too_long p then Raise OSError else Ok (bool_decide (is_Some (files !! p)));
     fs_read_text := fun p => files !! p;
     fs_stat_size := fun p => String.length <$> files !! p |}.

(** The pictures of the proximity example. *)
Definition vault_a_img : Path := ["/"; "vault"; "a"; "img.png"].
Definition vault_b_img : Path := ["/"; "vault"; "b"; "img.png"].
Definition img_index : gmap string (list Path) :=
  {[ "img.png" := [vault_a_img; vault_b_img] ]}.
Definition img_disk : gmap Path string :=
  {[ vault_a_img := "a"; vault_b_img := "b" ]}.

(** A picture under the vault root. *)
Definition sub_pic : Path := ["/"; "vault"; "sub"; "pic.png"].
Definition pic_disk : gmap Path string := {[ sub_pic := "png" ]}.
Definition pic_index : gmap string (list Path) := {[ "pic.png" := [sub_pic] ]}.

(** A table that stands for the YAML parser in the examples: the blocks it
    knows with what it returns for each; any other block is malformed. *)
Definition yaml_table (table : list (string * yaml)) (block : string) : option yaml :=
  snd <$> List.find (fun e => String.eqb (fst e) block) table.

Definition nl : string := String "010" "".

Definition ready_note : Path := ["/"; "vault"; "ready.md"].

Definition archive_text : string :=
  "---" +:+ nl +:+ "tags: [ready, archive]" +:+ nl +:+ "---" +:+ nl +:+ "no tag here" +:+ nl.

Definition archive_yaml : string → option yaml :=
  yaml_table [("tags: [ready, archive]",
               YMap [(YStr "tags", YSeq [YStr "ready"; YStr "archive"])])].

Definition csharp_text : string :=
  "---" +:+ nl +:+ "tags: c#" +:+ nl +:+ "---" +:+ nl.

Definition csharp_yaml : string → option yaml :=
  yaml_table [("tags: c#", YMap [(YStr "tags", YStr "c#")])].

(** The destination of the move examples. *)
Definition inbox : Path := ["/"; "inbox"].

(** Two notes that reference the same picture. *)
Definition shared_png : Path := ["/"; "vault"; "shared.png"].
Definition note_one : NoteMetadata.t :=
  NoteMetadata.Build ["/"; "vault"; "one.md"] ["ready"] [shared_png] 3.
Definition note_two : NoteMetadata.t :=
  NoteMetadata.Build ["/"; "vault"; "two.md"] ["ready"] [shared_png] 3.
Definition shared_disk : gmap Path string :=
  {[ ["/"; "vault"; "one.md"] := "one"; ["/"; "vault"; "two.md"] := "two";
     shared_png := "png" ]}.



(** ** Further functions of the program *)

(** The pattern of [parse_tags]: [re.findall(r'#?([\w-]+)', input_str)]. *)
Definition PARSE_TAGS_RE : regex :=
  Seq (Opt (Lit "#")) (Group (Rep tag_chr 1 true)).

(** [parse_tags(input_str)] *)
Definition parse_tags (input_str : string) : gset string :=
  list_to_set (findall PARSE_TAGS_RE input_str).

(** The runs of [p] in [s], each as long as it can be: a run starts at a
    character of [p] that does not follow one.  [inside] tells whether the
    character before [s] was in [p]. *)
Fixpoint word_runs (p : ascii → bool) (inside : bool) (s : string) : list string :=
  match s with
  | EmptyString => []
  | String c s' =>
      (if negb inside && p c then [Py.take_while p s] else [])
      ++ word_runs p (p c) s'
  end.

(** Whether [build_vault_index] files [p] under [key]. *)
Definition indexed_under (fs : FileSystem) (excluded : gset string) (key : string)
    (p : Path) : bool :=
  match fs_is_file fs p with
  | Ok is_file =>
      is_file && negb (existsb (fun part => bool_decide (part ∈ excluded)) p)
      && String.eqb (Py.lower (path_name p)) key
  | Raise _ => false
  end.

(** The two joins of [resolve_attachment] come to an end on [e]: the
    link does not clean to nothing, and the join with the note directory
    raises [e], or it finds no file and the join with the vault root raises
    [e]. *)
Definition joins_raise (fs : FileSystem) (note_dir vault_root : Path) (link : string)
    (e : exn) : Prop :=
  clean_link link ≠ "" ∧
  (join_strategy fs note_dir (clean_link link) = Raise e ∨
   join_strategy fs note_dir (clean_link link) = Ok None ∧
   join_strategy fs vault_root (clean_link link) = Raise e).

(** A picture and a second note under the vault root, and a note text that
    links to both and to a web page. *)
Definition other_md : Path := ["/"; "vault"; "other.md"].
Definition linked_disk : gmap Path string := {[ sub_pic := "png"; other_md := "other" ]}.
Definition linked_text : string :=
  "![[pic.png]] [site](https://example.com/x.png) [n](other.md)".
Definition web_text : string := "![shot](https://example.com/x.png)".

(** What makes [p] an attachment by way of [link]. *)
Definition attached_by (fs : FileSystem) (note_dir vault_root : Path)
    (index : gmap string (list Path)) (link : string) (p : Path) : Prop :=
  is_external link = false ∧
  resolve_attachment fs link note_dir vault_root index = Ok (Some p) ∧
  Py.lower (path_suffix p) ≠ ".md".

(** Whether a front-matter key names a file: one of the words of
    [target_keys] occurs in it, in any case. *)
Definition link_key (key : string) : bool :=
  existsb (fun tk => Py.contains tk (Py.lower key)) target_keys.

(** The links a front-matter value gives. *)
Definition link_values (value : yaml) : list string :=
  match value with
  | YStr v => [Py.strip_chars ["["; "]"; "!"]%char v]
  | YSeq vs => str_items (Py.strip_chars ["["; "]"; "!"]%char) vs
  | _ => []
  end.

(** The items of a mapping up to its first key that is not a string. *)
Fixpoint string_keyed (items : list (yaml * yaml)) : list (string * yaml) :=
  match items with
  | (YStr key, value) :: rest => (key, value) :: string_keyed rest
  | _ => []
  end.

Definition links_of_items (items : list (yaml * yaml)) : list string :=
  flat_map (fun kv => if link_key (fst kv) then link_values (snd kv) else [])
           (string_keyed items).

Definition cover_text : string :=
  "---" +:+ nl +:+ "Cover: '![[pic.png]]'" +:+ nl +:+ "---" +:+ nl.

Definition cover_yaml : string → option yaml :=
  yaml_table [("Cover: '![[pic.png]]'", YMap [(YStr "Cover", YStr "![[pic.png]]")])].

(** A vault with one note that embeds a picture. *)
Definition embed_text : string := "#ready ![[pic.png]]".
Definition embed_disk : gmap Path string :=
  {[ ready_note := embed_text; sub_pic := "png" ]}.
Definition embed_listing : list Path := [ready_note; sub_pic].
Definition embed_index : gmap string (list Path) :=
  {[ "ready.md" := [ready_note]; "pic.png" := [sub_pic] ]}.

(** The same vault, the note linking to a name with a NUL byte in it. *)
Definition nul_text : string := "#ready [[a%00b]]".
Definition nul_disk : gmap Path string :=
  {[ ready_note := nul_text; sub_pic := "png" ]}.

(** The paths a turn of the move loop reads or writes: the note, the two
    names it can take in the destination, its attachments and the names
    they take there. *)
Definition turn_paths (dest_dir : Path) (i : nat) (note : NoteMetadata.t) : list Path :=
  NoteMetadata.path note
  :: join_path dest_dir (path_name (NoteMetadata.path note))
  :: join_path dest_dir (indexed_name i (NoteMetadata.path note))
  :: NoteMetadata.attachments note
  ++ ((fun att => join_path dest_dir (path_name att)) <$> NoteMetadata.attachments note).

Fixpoint queue_paths (dest_dir : Path) (i : nat) (notes : list NoteMetadata.t) : list Path :=
  match notes with
  | [] => []
  | note :: rest => turn_paths dest_dir i note ++ queue_paths dest_dir (S i) rest
  end.


(** A file the queue does not mention. *)
Definition keep_txt : Path := ["/"; "vault"; "keep.txt"].
Definition kept_disk : gmap Path string := <[keep_txt := "keep"]> shared_disk.

(** The closing fence of [FRONTMATTER_RE], [\n---\s*\n], and what follows
    the opening [---]. *)
Definition fence_close : regex :=
  Seq (Lit "010")
 (Seq (Lit "-") (Seq (Lit "-") (Seq (Lit "-")
 (Seq (Rep Py.isspace 0 true)
      (Lit "010"))))).

Definition fence_body : regex :=
  Seq (Lit "010") (Seq (Group (Rep (fun _ => true) 0 false)) fence_close).

(** A line break and three hyphens. *)
Definition fence : string := nl +:+ "---".

(** ** [scan_notes_parallel]

    Python compares two sequences at the first place where they differ, and
    takes the shorter one for the lesser when it is the start of the other.
    Strings compare by the codes of their characters, paths part by part. *)
Fixpoint lex_lt {A} (eqb lt : A -> A -> bool) (l k : list A) : bool :=
  match l, k with
  | _, [] => false
  | [], _ :: _ => true
  | a :: l', b :: k' => if eqb a b then lex_lt eqb lt l' k' else lt a b
  end.

Definition codes (s : string) : list nat :=
  nat_of_ascii <$> list_ascii_of_string s.

Definition str_lt (s t : string) : bool :=
  lex_lt Nat.eqb Nat.ltb (codes s) (codes t).

Definition path_lt (p q : Path) : bool := lex_lt String.eqb str_lt p q.

(** [sorted(l, key=key)]: a stable sort that only asks whether one key is
    less than another.  Each element goes behind the ones it is not less
    than. *)
Fixpoint insort {A} (lt : A -> A -> bool) (x : A) (l : list A) : list A :=
  match l with
  | [] => [x]
  | y :: l' => if lt x y then x :: l else y :: insort lt x l'
  end.

Definition sorted {A K} (lt : K -> K -> bool) (key : A -> K) (l : list A) : list A :=
  foldl (fun acc x => insort (fun a b => lt (key a) (key b)) x acc) [] l.

(** The notes of [source_dir.rglob("*.md")] that no excluded directory
    holds. *)
Definition all_files (md_listing : list Path) (excluded : gset string) : list Path :=
  List.filter
    (fun p => negb (existsb (fun part => bool_decide (part ∈ excluded)) p))
    md_listing.

(** [listing] is what [source_dir.rglob("*")] yields and [md_listing] what
    [source_dir.rglob("*.md")] yields.  One future is submitted for each
    note; [as_completed] hands the futures back in the order in which the
    threads finish. *)
Definition scan_notes_parallel (fs : FileSystem) (safe_load : string -> option yaml)
    (as_completed : list (option NoteMetadata.t) -> list (option NoteMetadata.t))
    (listing md_listing : list Path)
    (source_dir : Path) (tags : gset string) (excluded_dirs : list string)
    : result (list NoteMetadata.t) :=
  let excluded : gset string := list_to_set excluded_dirs in
  vault_index ← build_vault_index fs listing excluded;
  let futures :=
    (fun p => process_note fs safe_load p tags source_dir vault_index)
      <$> all_files md_listing excluded in
  let notes := omap id (as_completed futures) in
  Ok (sorted path_lt NoteMetadata.path notes).

(** The order of the result: no later path is less than an earlier one. *)
Definition path_ordered (a b : NoteMetadata.t) : Prop :=
  path_lt (NoteMetadata.path b) (NoteMetadata.path a) = false.

(** Two tagged notes, a picture, and a tagged note in the bin. *)
Definition b_note : Path := ["/"; "vault"; "b.md"].
Definition a_note : Path := ["/"; "vault"; "a.md"].
Definition binned_note : Path := ["/"; "vault"; ".trash"; "c.md"].
Definition scan_disk : gmap Path string :=
  {[ b_note := "#ready"; a_note := embed_text; sub_pic := "png";
     binned_note := "#ready" ]}.
Definition scan_listing : list Path := [b_note; sub_pic; a_note; binned_note].
Definition scan_md_listing : list Path := [b_note; a_note; binned_note].
Definition scan_index : gmap string (list Path) :=
  {[ "b.md" := [b_note]; "pic.png" := [sub_pic]; "a.md" := [a_note] ]}.

(** * Properties *)

(** ** Strings *)

Lemma is_empty_false s : Py.is_empty s = false ↔ s ≠ "".
Proof. destruct s; simpl; split; congruence. Qed.

Lemma str_app_nil_l s : "" +:+ s = s.
Proof. reflexivity. Qed.

Lemma str_app_cons c s t : String c s +:+ t = String c (s +:+ t).
Proof. reflexivity. Qed.

Lemma str_app_nil_r s : s +:+ "" = s.
Proof. induction s; [done|]. rewrite ?str_app_cons. by f_equal. Qed.

Lemma str_app_assoc s t u : (s +:+ t) +:+ u = s +:+ (t +:+ u).
Proof. induction s; [done|]. rewrite ?str_app_cons. by f_equal. Qed.

Lemma str_app_length s t : String.length (s +:+ t) = String.length s + String.length t.
Proof. induction s; [done|]. rewrite ?str_app_cons. simpl. by f_equal. Qed.

Lemma substring_app_prefix s t : substring 0 (String.length s) (s +:+ t) = s.
Proof.
  induction s as [|c s IH]; simpl.
  - by destruct t.
  - rewrite ?str_app_cons. by f_equal.
Qed.

Lemma take_drop_while p s : Py.take_while p s +:+ Py.drop_while p s = s.
Proof.
  induction s as [|c s IH]; [done|]. simpl.
  destruct (p c); [|done]. rewrite ?str_app_cons. by f_equal.
Qed.

Lemma all_take_while p s : Py.all_chr p (Py.take_while p s) = true.
Proof. induction s as [|c s IH]; [done|]. simpl. destruct (p c) eqn:E; [|done]. simpl. by rewrite E. Qed.

Lemma stops_drop_while p s : stops p (Py.drop_while p s).
Proof. induction s as [|c s IH]; [done|]. simpl. by destruct (p c) eqn:E. Qed.

Lemma all_chr_app p s t :
  Py.all_chr p (s +:+ t) = Py.all_chr p s && Py.all_chr p t.
Proof.
  induction s as [|c s IH]; [done|]. rewrite str_app_cons. simpl.
  by rewrite IH, andb_assoc.
Qed.

Lemma take_while_all p s : Py.all_chr p s = true → Py.take_while p s = s.
Proof.
  induction s as [|c s IH]; [done|]. simpl. intros [-> ?]%andb_prop. f_equal. auto.
Qed.

Lemma all_chr_impl (p q : ascii → bool) s :
  (∀ c, p c = true → q c = true) → Py.all_chr p s = true → Py.all_chr q s = true.
Proof.
  intros Hpq. induction s as [|c s IH]; [done|]. simpl.
  intros [Hc ?]%andb_prop. rewrite (Hpq _ Hc). auto.
Qed.

(** A string that is not empty ends with a character. *)
Lemma string_snoc s :
  s ≠ "" → ∃ c, s = substring 0 (String.length s - 1) s +:+ String c "".
Proof.
  induction s as [|a s IH]; [done|]. intros _. destruct s as [|b s].
  - by exists a.
  - destruct IH as (c & Hc); [done|]. exists c.
    change (String.length (String a (String b s)) - 1) with (S (String.length s)).
    change (String.length (String b s) - 1) with (String.length s - 0) in Hc.
    rewrite Nat.sub_0_r in Hc.
    change (substring 0 (S (String.length s)) (String a (String b s)))
      with (String a (substring 0 (String.length s) (String b s))).
    rewrite str_app_cons. by f_equal.
Qed.

(** ** [strip] *)

Lemma rstrip_by_split p s :
  ∃ t, s = Py.rstrip_by p s +:+ t ∧ Py.all_chr p t = true.
Proof.
  induction s as [|c s (t & Hs & Ht)]; [by exists ""|]. simpl.
  destruct (Py.rstrip_by p s) as [|c' r] eqn:E.
  - rewrite str_app_nil_l in Hs. subst t. destruct (p c) eqn:Hc.
    + exists (String c s). simpl. by rewrite Hc, Ht.
    + exists s. by rewrite str_app_cons, str_app_nil_l.
  - exists t. by rewrite str_app_cons, <- Hs.
Qed.

Lemma rstrip_by_idem p s : Py.rstrip_by p (Py.rstrip_by p s) = Py.rstrip_by p s.
Proof.
  induction s as [|c s IH]; [done|]. simpl.
  destruct (Py.rstrip_by p s) as [|c' r] eqn:E.
  - destruct (p c) eqn:Hc; [done|]. simpl. by rewrite Hc.
  - change (Py.rstrip_by p (String c (String c' r)))
      with (match Py.rstrip_by p (String c' r) with
            | EmptyString => if p c then EmptyString else String c EmptyString
            | r0 => String c r0
            end).
    by rewrite IH.
Qed.

Lemma rstrip_by_stops p s : stops p s → stops p (Py.rstrip_by p s).
Proof.
  destruct s as [|c s]; [done|]. simpl. intros Hc.
  destruct (Py.rstrip_by p s); [by rewrite Hc|done].
Qed.

Lemma drop_while_stops p s : stops p s → Py.drop_while p s = s.
Proof. destruct s as [|c s]; [done|]. simpl. by intros ->. Qed.

(** [s.strip(chars)] takes characters of [chars] off both ends, and all of
    them: what is left has none at either end. *)
Lemma strip_chars_spec cs s :
  ∃ l r, s = l +:+ Py.strip_chars cs s +:+ r ∧
         Py.all_chr (Py.chr_in cs) l = true ∧ Py.all_chr (Py.chr_in cs) r = true ∧
         Py.lstrip_by (Py.chr_in cs) (Py.strip_chars cs s) = Py.strip_chars cs s ∧
         Py.rstrip_by (Py.chr_in cs) (Py.strip_chars cs s) = Py.strip_chars cs s.
Proof.
  unfold Py.strip_chars, Py.lstrip_by.
  destruct (rstrip_by_split (Py.chr_in cs) (Py.drop_while (Py.chr_in cs) s)) as (r & Hr & Hall).
  exists (Py.take_while (Py.chr_in cs) s), r. split_and!.
  - by rewrite <- Hr, take_drop_while.
  - apply all_take_while.
  - done.
  - apply drop_while_stops, rstrip_by_stops, stops_drop_while.
  - apply rstrip_by_idem.
Qed.

(** ** The matcher *)

Section MatcherFacts.
Context {R : Type}.
Implicit Types (k : mstate → option R) (p : ascii → bool).

Lemma or_else_None (x : option R) : or_else x None = x.
Proof. by destruct x. Qed.

(** A greedy repetition whose longest run lets the rest of the pattern
    succeed stops there. *)
Lemma rep_greedy_run p t s min pos g k r :
  Py.all_chr p t = true → stops p s → min ≤ String.length t →
  k (MState (pos + String.length t) s g) = Some r →
  rep_greedy p min pos (t +:+ s) g k = Some r.
Proof.
  intros Ht Hs. revert min pos. induction t as [|c t IH]; intros min pos Hmin Hk.
  - simpl in Hmin. assert (min = 0) as -> by lia. rewrite ?str_app_nil_l.
    simpl in Hk. rewrite Nat.add_0_r in Hk.
    destruct s as [|c s]; simpl in *; [done|]. by rewrite Hs.
  - simpl in Ht. apply andb_prop in Ht as [Hc Ht].
    rewrite ?str_app_cons. simpl. rewrite Hc.
    rewrite (IH Ht (Nat.pred min) (S pos)); [done|simpl in Hmin; lia|].
    simpl in Hk. by rewrite Nat.add_succ_r in Hk.
Qed.

(** When the rest of the pattern fails after the longest run and succeeds
    one character before its end, the repetition gives that character
    back. *)
Lemma rep_greedy_give_back p t c s min pos g k r :
  Py.all_chr p t = true → p c = true → stops p s → min ≤ String.length t →
  k (MState (S (pos + String.length t)) s g) = None →
  k (MState (pos + String.length t) (String c s) g) = Some r →
  rep_greedy p min pos (t +:+ String c s) g k = Some r.
Proof.
  intros Ht Hc Hs. revert min pos.
  induction t as [|a t IH]; intros min pos Hmin Hfail Hk.
  - simpl in Hmin. assert (min = 0) as -> by lia. rewrite str_app_nil_l.
    simpl in *. rewrite Nat.add_0_r in *. rewrite Hc.
    assert (rep_greedy p 0 (S pos) s g k = None) as ->; [|done].
    destruct s as [|c' s]; simpl in *; [done|]. by rewrite Hs.
  - simpl in Ht. apply andb_prop in Ht as [Ha Ht].
    rewrite str_app_cons. simpl. rewrite Ha.
    rewrite (IH Ht (Nat.pred min) (S pos)); [done|simpl in Hmin; lia|..].
    + simpl in Hfail. by rewrite Nat.add_succ_r in Hfail.
    + simpl in Hk. by rewrite Nat.add_succ_r in Hk.
Qed.

(** It fails when the run is shorter than the minimum. *)
Lemma rep_greedy_short p s min pos g k :
  String.length (Py.take_while p s) < min → rep_greedy p min pos s g k = None.
Proof.
  revert min pos. induction s as [|c s IH]; intros min pos Hlt; simpl in *.
  - destruct min; [lia|done].
  - destruct (p c); simpl in *.
    + rewrite IH by lia. destruct min; [lia|done].
    + destruct min; [lia|done].
Qed.

End MatcherFacts.

Lemma match_at_bracket r pos s :
  match_at (opens_with_bracket r) pos (String "[" s) = run r (MState (S pos) s None) report.
Proof. reflexivity. Qed.

Lemma match_at_bang_bracket r pos s :
  match_at (opens_with_bracket r) pos (String "!" (String "[" s))
  = run r (MState (S (S pos)) s None) report.
Proof. unfold match_at. simpl. apply or_else_None. Qed.

Lemma match_at_no_bracket r pos c s :
  no_bracket c = true →
  (c = "!"%char → stops (fun x => Ascii.eqb x "[") s ∧ s ≠ "" ∨ s = "") →
  match_at (opens_with_bracket r) pos (String c s) = None.
Proof.
  unfold no_bracket. intros Hc%negb_true_iff Hbang. unfold match_at. simpl.
  rewrite Hc. destruct (Ascii.eqb_spec c "!") as [->|Hne]; [|done].
  destruct (Hbang eq_refl) as [[Hs Hne]| ->]; [|done].
  destruct s as [|c s]; [done|]. simpl in *. by rewrite Hs.
Qed.

Lemma findall_from_skip r t s pos :
  findall_from r pos (String.length t) (t +:+ s) = findall_from r (pos + String.length t) 0 s.
Proof.
  revert pos. induction t as [|c t IH]; intros pos; simpl.
  - by rewrite Nat.add_0_r.
  - rewrite ?str_app_cons, IH. f_equal. lia.
Qed.

Lemma findall_from_hit r pos c s e g :
  match_at r pos (String c s) = Some (e, g) →
  findall_from r pos 0 (String c s) = g :: findall_from r (S pos) (e - pos - 1) s.
Proof. intros H. simpl. by rewrite H. Qed.

Lemma findall_from_miss r pos c s :
  match_at r pos (String c s) = None →
  findall_from r pos 0 (String c s) = findall_from r (S pos) 0 s.
Proof. intros H. simpl. by rewrite H. Qed.




(** *** The scan over a text with several links *)

Lemma ends_with_bang_cons c s : s ≠ "" → ends_with_bang (String c s) = ends_with_bang s.
Proof. by destruct s. Qed.

Lemma ends_with_bang_app s c : ends_with_bang (s +:+ String c "") = Ascii.eqb c "!".
Proof.
  induction s as [|a s IH]; [done|]. rewrite str_app_cons, ends_with_bang_cons; [done|].
  by destruct s.
Qed.

(** A stretch without an opening bracket is passed over, unless it ends
    with the [!] of a link that follows. *)
Lemma findall_from_plain r s rest : ∀ pos,
  Py.all_chr no_bracket s = true →
  (ends_with_bang s = true → stops is_open rest) →
  findall_from (opens_with_bracket r) pos 0 (s +:+ rest)
  = findall_from (opens_with_bracket r) (pos + String.length s) 0 rest.
Proof.
  induction s as [|c s IH]; intros pos Hs Hbang.
  { by rewrite str_app_nil_l, Nat.add_0_r. }
  simpl in Hs. apply andb_prop in Hs as [Hc Hs]. rewrite str_app_cons.
  rewrite findall_from_miss.
  - rewrite IH; [f_equal; simpl; lia|done|].
    destruct s as [|c' s]; [done|]. by rewrite ends_with_bang_cons in Hbang.
  - apply match_at_no_bracket; [done|]. intros ->.
    destruct s as [|c' s].
    + rewrite str_app_nil_l. destruct rest as [|c' rest]; [by right|left].
      split; [|done]. by apply Hbang.
    + left. rewrite str_app_cons. split; [|done].
      simpl in Hs. apply andb_prop in Hs as [Hc' _]. unfold no_bracket in Hc'.
      by apply negb_true_iff in Hc'.
Qed.

(** A link, with or without its [!]: the pattern, started behind the
    bracket, matches [body], and the scan goes on behind it. *)
Lemma findall_from_link r b body rest g pos :
  (∀ pos', run r (MState (S pos') (body +:+ rest) None) report
           = Some (S pos' + String.length body, g)) →
  findall_from (opens_with_bracket r) pos 0 (bang b +:+ String "[" (body +:+ rest))
  = g :: findall_from (opens_with_bracket r)
           (pos + String.length (bang b +:+ String "[" body)) 0 rest.
Proof.
  intros Hbody. destruct b; simpl bang; rewrite ?str_app_cons, ?str_app_nil_l.
  - rewrite (findall_from_hit _ _ _ _ (S (S pos) + String.length body) g).
    + f_equal.
      replace (S (S pos) + String.length body - pos - 1)
        with (String.length (String "[" body)) by (simpl; lia).
      change (String "[" (body +:+ rest)) with (String "[" body +:+ rest).
      rewrite findall_from_skip. f_equal. simpl. lia.
    + by rewrite match_at_bang_bracket.
  - rewrite (findall_from_hit _ _ _ _ (S pos + String.length body) g).
    + f_equal.
      replace (S pos + String.length body - pos - 1) with (String.length body) by lia.
      rewrite findall_from_skip. f_equal. simpl. lia.
    + by rewrite match_at_bracket.
Qed.

(** A bracket that opens no link of the pattern is passed over. *)
Lemma findall_from_not_link r b s pos :
  (∀ pos', run r (MState pos' s None) report = None) →
  findall_from (opens_with_bracket r) pos 0 (bang b +:+ String "[" s)
  = findall_from (opens_with_bracket r) (pos + String.length (bang b) + 1) 0 s.
Proof.
  intros Hfail. destruct b; simpl bang; rewrite ?str_app_cons, ?str_app_nil_l.
  - rewrite findall_from_miss by (by rewrite match_at_bang_bracket).
    rewrite findall_from_miss by (by rewrite match_at_bracket).
    f_equal. simpl. lia.
  - rewrite findall_from_miss by (by rewrite match_at_bracket).
    f_equal. simpl. lia.
Qed.

(** A greedy repetition fails when the rest of the pattern fails wherever
    the run may be cut. *)
Lemma rep_greedy_fails {R} p t s g (k : mstate → option R) : ∀ min pos,
  Py.all_chr p t = true → stops p s →
  (∀ t1 t2, t = t1 +:+ t2 → k (MState (pos + String.length t1) (t2 +:+ s) g) = None) →
  rep_greedy p min pos (t +:+ s) g k = None.
Proof.
  induction t as [|c t IH]; intros min pos Ht Hs Hk.
  - rewrite str_app_nil_l. specialize (Hk "" "" eq_refl).
    rewrite str_app_nil_l in Hk. simpl in Hk. rewrite Nat.add_0_r in Hk.
    destruct s as [|c s]; simpl in *.
    + by destruct min.
    + rewrite Hs. by destruct min.
  - simpl in Ht. apply andb_prop in Ht as [Hc Ht]. rewrite str_app_cons. simpl.
    rewrite Hc, IH; [|done..|].
    + specialize (Hk "" (String c t) eq_refl).
      rewrite str_app_cons in Hk. simpl in Hk. rewrite Nat.add_0_r in Hk.
      simpl. by destruct min.
    + intros t1 t2 ->. specialize (Hk (String c t1) t2 eq_refl).
      simpl in Hk. by rewrite Nat.add_succ_r in Hk.
Qed.

(** ** Wiki links *)

Lemma wiki_link_re_opens : WIKI_LINK_RE = opens_with_bracket wiki_inner.
Proof. reflexivity. Qed.

Lemma nonempty_length s : s ≠ "" → 1 ≤ String.length s.
Proof. destruct s; [done|simpl; lia]. Qed.

Lemma stops_cons p c s : p c = false → stops p (String c s).
Proof. done. Qed.

(** The rest of the pattern once the target has been read. *)
Lemma wiki_after_target extra post pos g :
  wiki_extra extra →
  run (Seq (Opt (Seq (Lit "|") (Rep (none_of ["]"]%char) 1 true)))
      (Seq (Opt (Seq (Lit "#") (Rep (none_of ["]"]%char) 1 true)))
      (Seq (Lit "]") (Lit "]"))))
      (MState pos (extra +:+ "]]" +:+ post) g) report
  = Some (pos + String.length extra + 2, default "" g).
Proof.
  intros [->|(sep & rest & -> & Hsep & Hne%nonempty_length & Hrest)].
  - rewrite str_app_nil_l. simpl. unfold report. simpl. do 3 f_equal. lia.
  - rewrite str_app_cons. destruct Hsep as [-> | ->]; simpl.
    + erewrite rep_greedy_run; [reflexivity|done|by apply stops_cons|done|].
      simpl. unfold report. simpl. do 3 f_equal. lia.
    + erewrite rep_greedy_run; [reflexivity|done|by apply stops_cons|done|].
      simpl. unfold report. simpl. do 3 f_equal. lia.
Qed.

Lemma wiki_inner_match target extra post pos :
  wiki_target target → wiki_extra extra →
  run wiki_inner
      (MState (S pos) (String "[" (target +:+ extra +:+ "]]") +:+ post) None) report
  = Some (S pos + String.length (String "[" (target +:+ extra +:+ "]]")), target).
Proof.
  intros [Hne%nonempty_length Ht] Hextra. unfold wiki_inner.
  rewrite str_app_cons, !str_app_assoc.
  change (run (Seq (Lit "[") ?r) (MState ?p (String "[" ?s) ?g) ?k)
    with (run r (MState (S p) s g) k).
  change (run (Seq (Group (Rep ?p 1 true)) ?r) (MState ?n ?s ?g) ?k)
    with (rep_greedy p 1 n s g (λ st',
            run r (MState (m_pos st') (m_rest st')
                     (Some (substring 0 (m_pos st' - n) s))) k)).
  erewrite rep_greedy_run; [reflexivity|done| |done|].
  - destruct Hextra as [->|(sep & rest & -> & [->| ->] & _)]; done.
  - cbn [m_pos m_rest]. rewrite (wiki_after_target _ _ _ _ Hextra). simpl.
    replace (pos + String.length target - pos) with (String.length target) by lia.
    rewrite substring_app_prefix. do 2 f_equal.
    rewrite !str_app_length. simpl. lia.
Qed.

(** ** Markdown links *)

Lemma md_link_re_opens : MD_LINK_RE = opens_with_bracket md_inner.
Proof. reflexivity. Qed.

Lemma run_seq_rep {R} p min r pos s g (k : mstate → option R) :
  run (Seq (Rep p min true) r) (MState pos s g) k
  = rep_greedy p min pos s g (λ st', run r st' k).
Proof. reflexivity. Qed.

Lemma md_gap_white gap : md_gap gap → white_gap gap.
Proof.
  intros [(rest & -> & Hrest)|(w & -> & Hw)]; (split; [done|]); simpl.
  - done.
  - by rewrite Hw.
Qed.

Lemma white_not_blank_in_target w :
  Py.isspace w = true → w ≠ " "%char → none_of ["034"; " "; ")"]%char w = true.
Proof.
  destruct w as [[] [] [] [] [] [] [] []]; vm_compute; by intros H1 H2.
Qed.

(** The quoted title, from the gap to the closing parenthesis. *)
Lemma md_title_match gap title post pos g :
  white_gap gap → md_title title →
  run (Seq (Opt md_title_re) (Lit ")"))
      (MState pos (gap +:+ dq +:+ title +:+ dq +:+ ")" +:+ post) g) report
  = Some (pos + String.length (gap +:+ dq +:+ title +:+ dq +:+ ")"), default "" g).
Proof.
  intros [Hne%nonempty_length Hgap] Htitle.
  change (run (Seq (Opt ?r1) ?r2) ?st ?k)
    with (or_else (run (Seq r1 r2) st k) (run r2 st k)).
  unfold md_title_re, dq.
  change (run (Seq (Seq (Rep ?p ?m true) ?r1) ?r2) (MState ?n ?s ?g) ?k)
    with (rep_greedy p m n s g (λ st', run (Seq r1 r2) st' k)).
  erewrite (rep_greedy_run _ gap); [reflexivity|done|done|done|].
  rewrite !str_app_cons, !str_app_nil_l.
  change (run (Seq (Seq (Lit "034") (Seq (Rep ?p ?m true) ?r1)) ?r2)
              (MState ?n (String "034" ?s) ?g) ?k)
    with (rep_greedy p m (S n) s g (λ st', run (Seq r1 r2) st' k)).
  erewrite rep_greedy_run; [reflexivity|done|done|apply Nat.le_0_l|].
  simpl. unfold report. simpl. do 3 f_equal.
  repeat (rewrite str_app_length; simpl). lia.
Qed.

(** White space that is not a blank can stand in a target. *)
Lemma white_in_target w :
  Py.all_chr Py.isspace w = true → Py.all_chr not_blank w = true →
  Py.all_chr (none_of ["034"; " "; ")"]%char) w = true.
Proof.
  induction w as [|c w IH]; [done|]. simpl.
  intros [Hc Hw]%andb_prop [Hb Hn]%andb_prop.
  rewrite white_not_blank_in_target, IH; [done..|].
  unfold not_blank in Hb. apply negb_true_iff in Hb. by destruct (Ascii.eqb_spec c " ").
Qed.

(** The white space between the target and the title, cut where the group
    ends: what the group keeps of it can stand in a target, and what is
    left is white space that the target cannot run into, or one last
    character that the target gives back. *)
Lemma md_kept_split gap :
  white_gap gap →
  Py.all_chr (none_of ["034"; " "; ")"]%char) (md_kept gap) = true ∧
  Py.all_chr Py.isspace (md_kept gap) = true ∧
  ((∃ rest, gap = md_kept gap +:+ String " " rest ∧ Py.all_chr Py.isspace rest = true) ∨
   (∃ c, gap = md_kept gap +:+ String c "" ∧ Py.isspace c = true ∧
         none_of ["034"; " "; ")"]%char c = true)).
Proof.
  intros [Hne Hwhite]. unfold md_kept.
  pose proof (take_drop_while not_blank gap) as Hsplit.
  pose proof (all_take_while not_blank gap) as Hnb.
  assert (Hws : Py.all_chr Py.isspace (Py.take_while not_blank gap) = true ∧
                Py.all_chr Py.isspace (Py.drop_while not_blank gap) = true).
  { rewrite <- Hsplit, all_chr_app in Hwhite. by apply andb_prop in Hwhite. }
  destruct Hws as [Hw1 Hw2].
  destruct (String.eqb_spec (Py.take_while not_blank gap) gap) as [Heq|Hneq].
  - destruct (string_snoc gap Hne) as (c & Hc).
    rewrite Heq in Hnb. rewrite Hc, !all_chr_app in Hwhite, Hnb. simpl in Hwhite, Hnb.
    rewrite !andb_true_r in Hwhite, Hnb.
    apply andb_prop in Hwhite as [Hw Hcw]. apply andb_prop in Hnb as [Hn Hcn].
    split_and!; [by apply white_in_target|done|]. right. exists c.
    split_and!; [done..|]. apply white_not_blank_in_target; [done|].
    unfold not_blank in Hcn. apply negb_true_iff in Hcn.
    by destruct (Ascii.eqb_spec c " ").
  - split_and!; [by apply white_in_target|done|]. left.
    pose proof (stops_drop_while not_blank gap) as Hstop.
    destruct (Py.drop_while not_blank gap) as [|c rest] eqn:Hdrop.
    + by rewrite str_app_nil_r in Hsplit.
    + exists rest. simpl in Hstop, Hw2. unfold not_blank in Hstop.
      apply negb_false_iff in Hstop. destruct (Ascii.eqb_spec c " ") as [->|]; [|done].
      apply andb_prop in Hw2 as [_ Hrest]. by rewrite Hsplit.
Qed.


(** The target and what follows it, the group being what was read since
    [pos]: the group runs on over the white space up to the first blank,
    or gives back its last character when there is no blank. *)
Lemma md_target_match target gap title post pos :
  md_target target → white_gap gap → md_title title →
  rep_greedy (none_of ["034"; " "; ")"]%char) 1 pos
    (target +:+ gap +:+ dq +:+ title +:+ dq +:+ ")" +:+ post) None
    (λ st', run (Seq (Opt md_title_re) (Lit ")"))
              (MState (m_pos st') (m_rest st')
                 (Some (substring 0 (m_pos st' - pos)
                          (target +:+ gap +:+ dq +:+ title +:+ dq +:+ ")" +:+ post))))
              report)
  = Some (pos + String.length (target +:+ gap +:+ dq +:+ title +:+ dq +:+ ")"),
          target +:+ md_kept gap).
Proof.
  intros [Hne%nonempty_length Ht] Hgap Htitle.
  destruct (md_kept_split gap Hgap) as (Hkept & _ & Hrest).
  remember (md_kept gap) as kept eqn:Ekept. clear Ekept Hgap.
  assert (Hrun : Py.all_chr (none_of ["034"; " "; ")"]%char) (target +:+ kept) = true)
    by (by rewrite all_chr_app, Ht, Hkept).
  assert (Hlen : 1 ≤ String.length (target +:+ kept)) by (rewrite str_app_length; lia).
  assert (Hdone : ∀ gap', white_gap gap' →
            run (Seq (Opt md_title_re) (Lit ")"))
              (MState (pos + String.length (target +:+ kept))
                 (gap' +:+ dq +:+ title +:+ dq +:+ ")" +:+ post)
                 (Some (substring 0 (pos + String.length (target +:+ kept) - pos)
                          ((target +:+ kept) +:+ gap' +:+ dq +:+ title +:+ dq
                           +:+ ")" +:+ post))))
              report
            = Some (pos + String.length
                            ((target +:+ kept) +:+ gap' +:+ dq +:+ title +:+ dq +:+ ")"),
                    target +:+ kept)).
  { intros gap' Hgap'. rewrite (md_title_match _ _ _ _ _ Hgap' Htitle). simpl.
    replace (pos + String.length (target +:+ kept) - pos)
      with (String.length (target +:+ kept)) by lia.
    rewrite substring_app_prefix. do 2 f_equal.
    rewrite (str_app_length (target +:+ kept)). lia. }
  assert (Hassoc : ∀ gap' rest,
            target +:+ (kept +:+ gap') +:+ rest = (target +:+ kept) +:+ gap' +:+ rest)
    by (intros; by rewrite !str_app_assoc).
  destruct Hrest as [(rest & -> & Hws)|(c & -> & Hcw & Hct)]; rewrite !Hassoc.
  - erewrite rep_greedy_run; [reflexivity|done|done|done|].
    apply (Hdone (String " " rest)). by split.
  - pose proof (Hdone (String c "")) as H.
    rewrite !(str_app_cons c ""), !str_app_nil_l in *.
    apply rep_greedy_give_back; try done.
    apply H. split; [done|]. simpl. by rewrite Hcw.
Qed.

(** A target without a title. *)
Lemma md_untitled_match target post pos :
  md_target target →
  rep_greedy (none_of ["034"; " "; ")"]%char) 1 pos (target +:+ ")" +:+ post) None
    (λ st', run (Seq (Opt md_title_re) (Lit ")"))
              (MState (m_pos st') (m_rest st')
                 (Some (substring 0 (m_pos st' - pos) (target +:+ ")" +:+ post))))
              report)
  = Some (pos + String.length (target +:+ ")"), target).
Proof.
  intros [Hne%nonempty_length Ht].
  erewrite rep_greedy_run; [reflexivity|done|done|done|].
  cbn [m_pos m_rest]. rewrite str_app_cons, str_app_nil_l.
  replace (pos + String.length target - pos) with (String.length target) by lia.
  rewrite substring_app_prefix. simpl. unfold report. simpl. do 2 f_equal.
  rewrite str_app_length. simpl. lia.
Qed.

Lemma md_inner_match label target title post pos :
  md_label label → md_target target →
  match title with
  | Some (gap, words) => white_gap gap ∧ md_title words
  | None => True
  end →
  run md_inner
      (MState (S pos) ((label +:+ "](" +:+ target +:+ title_text title +:+ ")") +:+ post)
         None) report
  = Some (S pos + String.length (label +:+ "](" +:+ target +:+ title_text title +:+ ")"),
          md_group target title).
Proof.
  intros Hlabel Htarget Htitle. unfold md_inner.
  rewrite !str_app_assoc, run_seq_rep.
  erewrite rep_greedy_run; [reflexivity|done|done|apply Nat.le_0_l|].
  rewrite !str_app_cons, !str_app_nil_l.
  change (run (Seq (Lit "]") (Seq (Lit "(") (Seq (Group (Rep ?p 1 true)) ?r)))
              (MState ?n (String "]" (String "(" ?s)) ?g) ?k)
    with (rep_greedy p 1 (S (S n)) s g (λ st',
            run r (MState (m_pos st') (m_rest st')
                     (Some (substring 0 (m_pos st' - S (S n)) s))) k)).
  destruct title as [[gap words]|]; simpl title_text; simpl md_group.
  - destruct Htitle as [Hgap Hwords].
    pose proof (md_target_match target gap words post
                  (S (S (S pos + String.length label))) Htarget Hgap Hwords) as H.
    rewrite !str_app_assoc, ?str_app_cons, ?str_app_nil_l in *. rewrite H. do 2 f_equal.
    repeat (rewrite str_app_length; simpl). lia.
  - pose proof (md_untitled_match target post
                  (S (S (S pos + String.length label))) Htarget) as H.
    rewrite ?str_app_cons, ?str_app_nil_l in *. rewrite H. do 2 f_equal.
    repeat (rewrite str_app_length; simpl). lia.
Qed.

(** A tab alone may stand for the gap. *)
Lemma md_link_tab_gap :
  findall MD_LINK_RE ("[x](note.md" +:+ String "009" dq +:+ "T" +:+ dq +:+ ")") = ["note.md"].
Proof. reflexivity. Qed.

(** A tab and then a blank fall outside [md_gap]: the tab is read into the
    group, and goes when [resolve_attachment] cleans the link. *)
Lemma md_link_tab_then_blank :
  findall MD_LINK_RE ("[x](note.md" +:+ String "009" (String " " dq) +:+ "T" +:+ dq +:+ ")")
  = [String.append "note.md" (String "009" "")] ∧
  clean_link (String.append "note.md" (String "009" "")) = "note.md".
Proof. split; reflexivity. Qed.

(** ** Texts with several links *)

Ltac str_norm := do 3 rewrite ?str_app_assoc, ?str_app_cons, ?str_app_nil_l.

(** A wiki link is no markdown link: behind its first closing bracket
    comes the second, not a parenthesis. *)
Lemma md_inner_fails b rest pos g :
  Py.all_chr (none_of ["]"]%char) b = true →
  run md_inner (MState pos (b +:+ "]]" +:+ rest) g) report = None.
Proof.
  intros Hb. unfold md_inner. rewrite run_seq_rep.
  apply rep_greedy_fails; [done|done|].
  intros t1 t2 ->. rewrite all_chr_app in Hb. apply andb_prop in Hb as [_ H2].
  destruct t2 as [|c t2]; [done|].
  rewrite str_app_cons. simpl in H2. apply andb_prop in H2 as [Hc _].
  simpl. destruct (Ascii.eqb_spec c "]") as [->|Hne]; [done|done].
Qed.

Lemma wiki_body_open target extra :
  wiki_target target → wiki_extra extra →
  Py.all_chr (none_of ["]"]%char) (String "[" (target +:+ extra)) = true.
Proof.
  intros [_ Ht] He. simpl. rewrite all_chr_app. apply andb_true_intro. split.
  - revert Ht. apply all_chr_impl. intros c. unfold none_of. simpl.
    destruct (Ascii.eqb c "]"); [done|by intros _].
  - destruct He as [->|(sep & rest & -> & [->| ->] & _ & Hrest)]; [done|..];
      simpl; by rewrite Hrest.
Qed.

(** The markdown pattern finds nothing from inside a wiki link. *)
Lemma findall_md_wiki_body b rest : ∀ pos,
  Py.all_chr (none_of ["]"]%char) b = true →
  findall_from MD_LINK_RE pos 0 (b +:+ "]]" +:+ rest)
  = findall_from MD_LINK_RE (pos + String.length b) 0 ("]]" +:+ rest).
Proof.
  induction b as [|c b IH]; intros pos Hb.
  { by rewrite str_app_nil_l, Nat.add_0_r. }
  pose proof Hb as Hcb. simpl in Hb. apply andb_prop in Hb as [Hc Hb].
  rewrite str_app_cons, findall_from_miss; [rewrite (IH _ Hb); f_equal; simpl; lia|].
  rewrite md_link_re_opens. destruct (Ascii.eqb_spec c "[") as [->|Hopen].
  { rewrite match_at_bracket. by apply md_inner_fails. }
  assert (Hnb : no_bracket c = true).
  { unfold no_bracket. by destruct (Ascii.eqb_spec c "["). }
  destruct b as [|c' b].
  { apply match_at_no_bracket; [done|]. intros _. left. by split. }
  rewrite str_app_cons. destruct (Ascii.eqb_spec c' "[") as [->|Hopen'].
  - destruct (Ascii.eqb_spec c "!") as [->|Hbang].
    + rewrite match_at_bang_bracket. by apply md_inner_fails.
    + apply match_at_no_bracket; [done|]. by intros ->.
  - apply match_at_no_bracket; [done|]. intros _. left. split; [|done].
    simpl. by destruct (Ascii.eqb_spec c' "[").
Qed.

(** The markdown pattern passes over a wiki link. *)
Lemma findall_md_wiki b target extra rest pos :
  wiki_target target → wiki_extra extra →
  findall_from MD_LINK_RE pos 0 (segment_text (Wiki b target extra) +:+ rest)
  = findall_from MD_LINK_RE (pos + String.length (segment_text (Wiki b target extra))) 0
      rest.
Proof.
  intros Ht He. pose proof (wiki_body_open target extra Ht He) as Hbody.
  assert (Hshape : segment_text (Wiki b target extra) +:+ rest
                   = bang b +:+ String "[" (String "[" (target +:+ extra)
                                              +:+ "]]" +:+ rest)).
  { unfold segment_text. by str_norm. }
  rewrite Hshape, md_link_re_opens, findall_from_not_link
    by (intros; by apply md_inner_fails).
  rewrite <- md_link_re_opens, (findall_md_wiki_body _ _ _ Hbody).
  rewrite md_link_re_opens, (findall_from_plain _ "]]") by done.
  f_equal. unfold segment_text.
  repeat (rewrite str_app_length; simpl). lia.
Qed.

(** A bracket that no second bracket follows opens no wiki link. *)
Lemma wiki_inner_fails s pos g :
  stops is_open s → run wiki_inner (MState pos s g) report = None.
Proof.
  destruct s as [|c s]; [done|]. simpl. unfold is_open. by intros ->.
Qed.

Lemma md_body_plain label target title :
  Py.all_chr no_bracket (label +:+ target +:+ title_text title) = true →
  Py.all_chr no_bracket (label +:+ "](" +:+ target +:+ title_text title +:+ ")") = true ∧
  ends_with_bang (label +:+ "](" +:+ target +:+ title_text title +:+ ")") = false.
Proof.
  rewrite !all_chr_app. intros [Hl [Ht Hti]%andb_prop]%andb_prop. split.
  - by rewrite Hl, Ht, Hti.
  - rewrite <- !str_app_assoc. apply ends_with_bang_app.
Qed.

(** The wiki pattern passes over a markdown link that has no bracket of
    its own. *)
Lemma findall_wiki_md b label target title rest pos :
  Py.all_chr no_bracket (label +:+ target +:+ title_text title) = true →
  findall_from WIKI_LINK_RE pos 0 (segment_text (Md b label target title) +:+ rest)
  = findall_from WIKI_LINK_RE
      (pos + String.length (segment_text (Md b label target title))) 0 rest.
Proof.
  intros [Hplain Hend]%md_body_plain.
  set (body := label +:+ "](" +:+ target +:+ title_text title +:+ ")") in *.
  assert (Hshape : segment_text (Md b label target title) +:+ rest
                   = bang b +:+ String "[" (body +:+ rest)).
  { unfold segment_text, body. by str_norm. }
  assert (Hhead : stops is_open (body +:+ rest)).
  { assert (Hne : body ≠ "").
    { unfold body. destruct label; simpl; [done|]. by rewrite str_app_cons. }
    destruct body as [|c body']; [done|]. rewrite str_app_cons. simpl in *.
    apply andb_prop in Hplain as [Hc _]. unfold no_bracket in Hc.
    by apply negb_true_iff in Hc. }
  rewrite Hshape, wiki_link_re_opens, findall_from_not_link
    by (intros; by apply wiki_inner_fails).
  rewrite findall_from_plain; [|done|by rewrite Hend].
  f_equal. unfold segment_text. fold body.
  repeat (rewrite str_app_length; simpl). lia.
Qed.

(** The wiki pattern on a wiki link, the markdown pattern on a markdown
    link: the group is reported and the scan goes on behind the link. *)
Lemma findall_wiki_wiki b target extra rest pos :
  wiki_target target → wiki_extra extra →
  findall_from WIKI_LINK_RE pos 0 (segment_text (Wiki b target extra) +:+ rest)
  = target :: findall_from WIKI_LINK_RE
                (pos + String.length (segment_text (Wiki b target extra))) 0 rest.
Proof.
  intros Ht He.
  assert (Hshape : segment_text (Wiki b target extra) +:+ rest
                   = bang b +:+ String "[" (String "[" (target +:+ extra +:+ "]]")
                                              +:+ rest)).
  { unfold segment_text. by str_norm. }
  rewrite Hshape, wiki_link_re_opens.
  rewrite (findall_from_link _ _ _ _ target)
    by (intros; by apply wiki_inner_match).
  f_equal; f_equal; unfold segment_text; by str_norm.
Qed.

Lemma findall_md_md b label target title rest pos :
  md_label label → md_target target →
  match title with
  | Some (gap, words) => white_gap gap ∧ md_title words
  | None => True
  end →
  findall_from MD_LINK_RE pos 0 (segment_text (Md b label target title) +:+ rest)
  = md_group target title
    :: findall_from MD_LINK_RE
         (pos + String.length (segment_text (Md b label target title))) 0 rest.
Proof.
  intros Hl Ht Hti.
  assert (Hshape : segment_text (Md b label target title) +:+ rest
                   = bang b +:+ String "[" ((label +:+ "](" +:+ target +:+
                                             title_text title +:+ ")") +:+ rest)).
  { unfold segment_text. by str_norm. }
  rewrite Hshape, md_link_re_opens.
  rewrite (findall_from_link _ _ _ _ (md_group target title))
    by (intros; by apply md_inner_match).
  f_equal; f_equal; unfold segment_text; by str_norm.
Qed.

(** What the two patterns find in a text of several links. *)
Lemma findall_wiki_render segs : ∀ pos,
  well_formed segs → md_links_plain segs →
  findall_from WIKI_LINK_RE pos 0 (render segs) = wiki_targets segs.
Proof.
  induction segs as [|[s|b target extra|b label target title] segs IH];
    intros pos Hwf Hplain; cbn [render wiki_targets].
  - done.
  - destruct Hwf as (Hs & Hbang & Hwf). cbn [segment_text].
    rewrite wiki_link_re_opens, findall_from_plain, <- wiki_link_re_opens by done.
    by apply IH.
  - destruct Hwf as (Ht & He & Hwf). rewrite findall_wiki_wiki by done.
    f_equal. by apply IH.
  - destruct Hwf as (_ & _ & _ & Hwf). destruct Hplain as [Hmd Hplain].
    rewrite findall_wiki_md by done. by apply IH.
Qed.

Lemma findall_md_render segs : ∀ pos,
  well_formed segs → findall_from MD_LINK_RE pos 0 (render segs) = md_groups segs.
Proof.
  induction segs as [|[s|b target extra|b label target title] segs IH];
    intros pos Hwf; cbn [render md_groups].
  - done.
  - destruct Hwf as (Hs & Hbang & Hwf). cbn [segment_text].
    rewrite md_link_re_opens, findall_from_plain, <- md_link_re_opens by done.
    by apply IH.
  - destruct Hwf as (Ht & He & Hwf). rewrite findall_md_wiki by done. by apply IH.
  - destruct Hwf as (Hl & Ht & Hti & Hwf). rewrite findall_md_md by done.
    f_equal. by apply IH.
Qed.

Lemma body_links_render segs :
  well_formed segs → md_links_plain segs →
  body_links (render segs) = wiki_targets segs ++ md_groups segs.
Proof.
  intros Hwf Hplain. unfold body_links, findall.
  by rewrite findall_wiki_render, findall_md_render.
Qed.

(** ** Inline tags *)

Lemma tag_chr_plain c : tag_chr c = true → Ascii.eqb c "#" = false ∧ Py.isspace c = false.
Proof. destruct c as [[] [] [] [] [] [] [] []]; vm_compute; intros; (done || by split). Qed.

(** A word contributes no tag of its own and leaves no boundary behind. *)
Lemma scan_tags_word w rest b :
  Py.all_chr tag_chr w = true → w ≠ "" →
  scan_tags tag_chr b (w +:+ rest) = scan_tags tag_chr false rest.
Proof.
  revert b. induction w as [|c w IH]; intros b Hw Hne; [done|].
  simpl in Hw. apply andb_prop in Hw as [Hc Hw].
  apply tag_chr_plain in Hc as [Hh Hs]. rewrite str_app_cons. simpl.
  rewrite Hh, Hs, andb_false_r. simpl.
  destruct w as [|c' w]; [done|]. by apply IH.
Qed.

Lemma scan_tags_no_tag s :
  tag_after_hash s = None → scan_tags tag_chr true s = scan_tags tag_chr false s.
Proof.
  destruct s as [|c s]; [done|]. simpl.
  by destruct (Ascii.eqb c "#" && negb (Py.is_empty (Py.take_while tag_chr s))).
Qed.

Lemma tag_after_hash_Some s w :
  tag_after_hash s = Some w →
  ∃ s', s = String "#" s' ∧ w = Py.take_while tag_chr s' ∧ w ≠ "".
Proof.
  destruct s as [|c s]; [done|]. simpl.
  destruct (Ascii.eqb_spec c "#") as [->|]; [|done]. simpl.
  destruct (Py.take_while tag_chr s) eqn:E; [done|]. simpl. intros [= <-].
  by exists s.
Qed.

(** [#] and the word after it. *)
Lemma run_hash_word pos s g :
  run (Seq (Lit "#") (Group (Rep tag_chr 1 true))) (MState pos s g) report
  = match tag_after_hash s with
    | Some w => Some (S pos + String.length w, w)
    | None => None
    end.
Proof.
  destruct s as [|c s]; [done|]. simpl.
  destruct (Ascii.eqb_spec c "#") as [->|]; [|done]. simpl.
  destruct (Py.take_while tag_chr s) as [|c w] eqn:E; simpl.
  - apply rep_greedy_short. rewrite E. simpl. lia.
  - pose proof (take_drop_while tag_chr s) as Hs. rewrite E in Hs.
    pose proof (all_take_while tag_chr s) as Hall. rewrite E in Hall.
    pose proof (stops_drop_while tag_chr s) as Hstop.
    remember (Py.drop_while tag_chr s) as D eqn:HD. clear HD E. subst s.
    erewrite rep_greedy_run; [reflexivity|done|done|simpl; lia|].
    unfold report. cbn [m_pos m_rest m_group default advance].
    replace (S pos + String.length (String c w) - S pos)
      with (String.length (String c w)) by lia.
    by rewrite substring_app_prefix.
Qed.

(** An attempt of [TAG_RE] at one position. *)
Lemma tag_match_at pos s :
  match_at TAG_RE pos s =
    match (if (pos =? 0)%nat then tag_after_hash s else None) with
    | Some w => Some (S pos + String.length w, w)
    | None =>
        match s with
        | String c s' =>
            if Py.isspace c then
              match tag_after_hash s' with
              | Some w => Some (S (S pos) + String.length w, w)
              | None => None
              end
            else None
        | EmptyString => None
        end
    end.
Proof.
  unfold match_at, TAG_RE.
  change (run (Seq (Alt Bol (Class ?p)) ?r) ?st ?k)
    with (or_else (run (Seq Bol r) st k) (run (Seq (Class p) r) st k)).
  change (run (Seq Bol ?r) (MState ?n ?t ?g) ?k)
    with (if (n =? 0)%nat then run r (MState n t g) k else None).
  rewrite run_hash_word.
  assert (Hcls : run (Seq (Class Py.isspace) (Seq (Lit "#") (Group (Rep tag_chr 1 true))))
                   (MState pos s None) report
                 = match s with
                   | String c s' =>
                       if Py.isspace c then
                         match tag_after_hash s' with
                         | Some w => Some (S (S pos) + String.length w, w)
                         | None => None
                         end
                       else None
                   | EmptyString => None
                   end).
  { destruct s as [|c s]; [done|].
    change (run (Seq (Class ?p) ?r) (MState ?n (String ?c ?t) ?g) ?k)
      with (if p c then run r (MState (S n) t g) k else None).
    by rewrite run_hash_word. }
  rewrite Hcls. destruct (pos =? 0)%nat; [|done]. by destruct (tag_after_hash s).
Qed.

Lemma drop_while_length p s : String.length (Py.drop_while p s) ≤ String.length s.
Proof.
  induction s as [|c s IH]; [done|]. simpl. destruct (p c); simpl; lia.
Qed.

(** After a tag has been reported the scan goes on behind its word. *)
Lemma findall_after_tag pos s' n :
  Py.take_while tag_chr s' ≠ "" →
  (∀ t q, String.length t ≤ n → q ≠ 0 →
          findall_from TAG_RE q 0 t = scan_tags tag_chr false t) →
  String.length s' ≤ n →
  findall_from TAG_RE pos (String.length (Py.take_while tag_chr s')) s'
  = scan_tags tag_chr false s'.
Proof.
  intros Hne IH Hlen.
  rewrite <- (take_drop_while tag_chr s') at 2 3.
  rewrite findall_from_skip, scan_tags_word; [|apply all_take_while|done].
  apply IH.
  - pose proof (drop_while_length tag_chr s'). lia.
  - destruct (Py.take_while tag_chr s'); [done|simpl; lia].
Qed.

Lemma findall_tag_re_from n : ∀ s pos,
  String.length s ≤ n →
  findall_from TAG_RE pos 0 s = scan_tags tag_chr (pos =? 0)%nat s.
Proof.
  induction n as [|n IH]; intros s pos Hlen.
  { destruct s; [|simpl in Hlen; lia]. simpl. rewrite tag_match_at.
    by destruct (pos =? 0)%nat. }
  destruct s as [|c s].
  { simpl. rewrite tag_match_at. by destruct (pos =? 0)%nat. }
  simpl in Hlen. assert (Hs : String.length s ≤ n) by lia.
  assert (IH' : ∀ t q, String.length t ≤ n → q ≠ 0 →
                  findall_from TAG_RE q 0 t = scan_tags tag_chr false t).
  { intros t q Ht Hq. rewrite IH by done. by apply Nat.eqb_neq in Hq as ->. }
  destruct (if (pos =? 0)%nat then tag_after_hash (String c s) else None)
    as [w|] eqn:Hstart.
  - (* a tag at the very start of the text *)
    destruct (pos =? 0)%nat eqn:Hpos; [|done].
    destruct (tag_after_hash_Some _ _ Hstart) as (s' & [= -> ->] & -> & Hne).
    rewrite (findall_from_hit _ _ _ _ (S pos + String.length (Py.take_while tag_chr s'))
               (Py.take_while tag_chr s')).
    2:{ by rewrite tag_match_at, Hpos, Hstart. }
    replace (S pos + String.length (Py.take_while tag_chr s') - pos - 1)
      with (String.length (Py.take_while tag_chr s')) by lia.
    rewrite (findall_after_tag _ _ n) by done.
    simpl. by destruct (Py.take_while tag_chr s').
  - assert (Hleft : scan_tags tag_chr (pos =? 0)%nat (String c s)
                    = scan_tags tag_chr (Py.isspace c) s).
    { simpl. destruct (pos =? 0)%nat; [|done]. simpl in Hstart.
      by destruct (Ascii.eqb c "#"), (Py.is_empty (Py.take_while tag_chr s)). }
    rewrite Hleft. clear Hleft.
    destruct (Py.isspace c) eqn:Hc.
    + destruct (tag_after_hash s) as [w|] eqn:Htag.
      * (* white space, then a tag *)
        destruct (tag_after_hash_Some _ _ Htag) as (s' & -> & -> & Hne).
        rewrite (findall_from_hit _ _ _ _ (S (S pos) + String.length (Py.take_while tag_chr s'))
                   (Py.take_while tag_chr s')).
        2:{ by rewrite tag_match_at, Hstart, Hc, Htag. }
        replace (S (S pos) + String.length (Py.take_while tag_chr s') - pos - 1)
          with (S (String.length (Py.take_while tag_chr s'))) by lia.
        cbn [findall_from].
        rewrite (findall_after_tag _ _ n); [|done|done|simpl in Hs; lia].
        simpl. by destruct (Py.take_while tag_chr s').
      * rewrite findall_from_miss by (by rewrite tag_match_at, Hstart, Hc, Htag).
        rewrite IH' by (done || lia). by rewrite scan_tags_no_tag.
    + rewrite findall_from_miss by (by rewrite tag_match_at, Hstart, Hc).
      apply IH'; [done|lia].
Qed.

(** C7, as amended.  The inline tags are the words that follow a [#] at
    the start of the text or right after white space, a word being a run
    of letters, digits, underscores and hyphens; each enters the candidate
    set without its [#]. *)
Theorem inline_tags_scan :
  (∀ c, tag_chr c =
        Py.isupper c || Py.islower c || Py.isdigit c || Ascii.eqb c "_" || Ascii.eqb c "-") ∧
  (∀ text, findall TAG_RE text = scan_tags tag_chr true text) ∧
  (∀ safe_load text name,
     name ∈ scan_tags tag_chr true text → name ∈ note_tags safe_load text).
Proof.
  split_and!.
  - intros c. reflexivity.
  - intros text. unfold findall. by rewrite (findall_tag_re_from (String.length text)).
  - intros safe_load text name Hin. unfold note_tags.
    apply elem_of_union_l, elem_of_list_to_set.
    unfold findall. by rewrite (findall_tag_re_from (String.length text)).
Qed.

(** The underscore is a word character of the pattern, and none of the
    specification. *)
Lemma inline_tags_underscore :
  findall TAG_RE "#a_b" = ["a_b"] ∧
  Py.all_chr claimed_tag_chr "a_b" = false ∧
  findall TAG_RE "#a_b" ≠ scan_tags claimed_tag_chr true "#a_b".
Proof. split_and!; [reflexivity|reflexivity|]. vm_compute. discriminate. Qed.

(** ** Cleaning *)

Lemma resolve_attachment_empty fs link note_dir vault_root index :
  clean_link link = "" →
  resolve_attachment fs link note_dir vault_root index = Ok None.
Proof. intros H. unfold resolve_attachment. by rewrite H. Qed.

(** C3.  The code strips the white space before it cuts the fragment, so
    white space in front of the [#] stays in the link; in the order the
    specification gives it would go. *)
Lemma clean_link_strips_before_cut :
  clean_link "a.png%20#frag" = "a.png " ∧
  claimed_clean_link "a.png%20#frag" = "a.png".
Proof. split; reflexivity. Qed.

(** *** What the order of the cleaning changes *)

Lemma isspace_not_cut c :
  Py.isspace c = true → Ascii.eqb c "#" = false ∧ Ascii.eqb c "?" = false.
Proof. destruct c as [[] [] [] [] [] [] [] []]; vm_compute; intros; (done || by split). Qed.

Lemma cut_suffix_cons c s :
  cut_suffix (String c s) =
    if negb (Ascii.eqb c "#") && negb (Ascii.eqb c "?") then String c (cut_suffix s) else "".
Proof.
  unfold cut_suffix, Py.split_head. simpl.
  destruct (Ascii.eqb c "#"); [done|]. simpl. by destruct (Ascii.eqb c "?").
Qed.

Lemma cut_suffix_space c s :
  Py.isspace c = true → cut_suffix (String c s) = String c (cut_suffix s).
Proof. intros [H1 H2]%isspace_not_cut. by rewrite cut_suffix_cons, H1, H2. Qed.

Lemma cut_suffix_spaces s : Py.all_chr Py.isspace s = true → cut_suffix s = s.
Proof.
  induction s as [|c s IH]; [done|]. simpl. intros [Hc Hs]%andb_prop.
  rewrite cut_suffix_space by done. f_equal. auto.
Qed.

Lemma cut_suffix_stops p s : stops p s → stops p (cut_suffix s).
Proof.
  destruct s as [|c s]; [done|]. rewrite cut_suffix_cons.
  by destruct (negb (Ascii.eqb c "#") && negb (Ascii.eqb c "?")).
Qed.

Lemma cut_suffix_lstrip s :
  cut_suffix (Py.lstrip_by Py.isspace s) = Py.lstrip_by Py.isspace (cut_suffix s).
Proof.
  unfold Py.lstrip_by. induction s as [|c s IH]; [done|]. simpl.
  destruct (Py.isspace c) eqn:Hc.
  - rewrite cut_suffix_space by done. simpl. by rewrite Hc.
  - rewrite cut_suffix_cons.
    destruct (negb (Ascii.eqb c "#") && negb (Ascii.eqb c "?")); [|done].
    simpl. by rewrite Hc.
Qed.

Lemma rstrip_by_empty p s : Py.rstrip_by p s = "" → Py.all_chr p s = true.
Proof.
  induction s as [|c s IH]; [done|]. simpl.
  destruct (Py.rstrip_by p s); [|done]. destruct (p c); [|done]. intros _. by apply IH.
Qed.

Lemma rstrip_cut_rstrip s :
  Py.rstrip_by Py.isspace (cut_suffix (Py.rstrip_by Py.isspace s))
  = Py.rstrip_by Py.isspace (cut_suffix s).
Proof.
  induction s as [|c s IH]; [done|]. rewrite (cut_suffix_cons c s).
  destruct (negb (Ascii.eqb c "#") && negb (Ascii.eqb c "?")) eqn:Hq.
  - simpl. destruct (Py.rstrip_by Py.isspace s) as [|c' r] eqn:E.
    + pose proof (rstrip_by_empty _ _ E) as Hall.
      rewrite (cut_suffix_spaces _ Hall), E.
      destruct (Py.isspace c) eqn:Hc; [done|].
      rewrite cut_suffix_cons, Hq. simpl. by rewrite Hc.
    + rewrite cut_suffix_cons, Hq.
      change (Py.rstrip_by Py.isspace (String c ?t))
        with (match Py.rstrip_by Py.isspace t with
              | EmptyString => if Py.isspace c then EmptyString else String c EmptyString
              | r0 => String c r0
              end).
      by rewrite IH.
  - assert (Hc : Py.isspace c = false).
    { destruct (Py.isspace c) eqn:Hc; [|done].
      apply isspace_not_cut in Hc as [H1 H2]. by rewrite H1, H2 in Hq. }
    simpl. rewrite Hc.
    destruct (Py.rstrip_by Py.isspace s); by rewrite cut_suffix_cons, Hq.
Qed.

Lemma rstrip_by_head p s : stops p s → s ≠ "" → Py.rstrip_by p s ≠ "".
Proof.
  destruct s as [|c s]; [done|]. simpl. intros Hc _.
  destruct (Py.rstrip_by p s); [by rewrite Hc|done].
Qed.

Lemma clean_link_stops link : stops Py.isspace (clean_link link).
Proof.
  unfold clean_link, Py.strip. fold (cut_suffix (Py.rstrip_by Py.isspace
    (Py.lstrip_by Py.isspace (unquote link)))).
  apply cut_suffix_stops, rstrip_by_stops, stops_drop_while.
Qed.

(** The cleaning of the code is the cleaning of the specification short of
    its last step: white space is left at the end of the link when it stood
    before the [#] or the [?].  The two agree on which links are empty. *)
Lemma clean_link_misses_final_strip link :
  claimed_clean_link link = Py.strip (clean_link link) ∧
  (clean_link link = "" ↔ claimed_clean_link link = "").
Proof.
  assert (H : claimed_clean_link link = Py.rstrip_by Py.isspace (clean_link link)).
  { unfold claimed_clean_link, clean_link, Py.strip.
    fold (cut_suffix (unquote link)).
    fold (cut_suffix (Py.rstrip_by Py.isspace (Py.lstrip_by Py.isspace (unquote link)))).
    by rewrite <- cut_suffix_lstrip, rstrip_cut_rstrip. }
  split.
  - rewrite H. unfold Py.strip, Py.lstrip_by.
    by rewrite (drop_while_stops _ _ (clean_link_stops link)).
  - rewrite H. split; [by intros ->|]. intros Hempty.
    destruct (decide (clean_link link = "")) as [|Hne]; [done|].
    by destruct (rstrip_by_head _ _ (clean_link_stops link) Hne).
Qed.

(** ** The proximity count and the maximum *)

Lemma proximity_common_prefix note_dir p :
  common_prefix_length note_dir p (proximity note_dir p).
Proof.
  revert note_dir. induction p as [|a p IH]; intros [|b d]; simpl;
    try (repeat split; simpl; try lia; intros ??; by rewrite ?lookup_nil).
  destruct (String.eqb_spec a b) as [->|Hne].
  - destruct (IH d) as (Ht & Hp & Hd & Hn). repeat split; simpl; try lia.
    + by rewrite Ht.
    + intros x y. apply Hn.
  - repeat split; simpl; try lia. intros x y [= <-] [= <-]. done.
Qed.

Lemma common_prefix_length_unique note_dir p n m :
  common_prefix_length note_dir p n → common_prefix_length note_dir p m → n = m.
Proof.
  revert note_dir n m. induction p as [|a p IH]; intros d n m.
  - intros (_ & Hn & _) (_ & Hm & _). simpl in *. lia.
  - destruct d as [|b d].
    { intros (_ & _ & Hn & _) (_ & _ & Hm & _). simpl in *. lia. }
    intros (Ht & Hp & Hd & Hn) (Ht' & Hp' & Hd' & Hm).
    destruct n as [|n], m as [|m]; simpl in *; try done.
    + injection Ht' as -> _. exfalso. by eapply Hn.
    + injection Ht as -> _. exfalso. by eapply Hm.
    + f_equal. injection Ht as _ Ht. injection Ht' as _ Ht'.
      apply (IH d); repeat split; auto with lia.
Qed.

Lemma max_from_first_max {A} (key : A → nat) (best : A) (l : list A) :
  ∃ i, (best :: l) !! i = Some (max_from key best l) ∧
       (∀ x, x ∈ best :: l → key x ≤ key (max_from key best l)) ∧
       (∀ j x, j < i → (best :: l) !! j = Some x → key x < key (max_from key best l)).
Proof.
  revert best. induction l as [|x l IH]; intros best; simpl.
  - exists 0. split; [done|]. split.
    + intros y Hy. apply list_elem_of_singleton in Hy as ->. done.
    + intros j y Hj. lia.
  - destruct (Nat.ltb_spec (key best) (key x)) as [Hlt|Hge].
    + destruct (IH x) as (i & Hi & Hmax & Hfirst). exists (S i).
      assert (key x ≤ key (max_from key x l)) by (apply Hmax; left).
      split; [done|]. split.
      * intros y Hy. apply elem_of_cons in Hy as [->|Hy]; [lia|by apply Hmax].
      * intros [|j] y Hj Hy; simpl in Hy.
        -- injection Hy as <-. lia.
        -- apply (Hfirst j); [lia|done].
    + destruct (IH best) as (i & Hi & Hmax & Hfirst).
      assert (key best ≤ key (max_from key best l)) by (apply Hmax; left).
      destruct i as [|i].
      * exists 0. simpl in Hi. split; [done|]. split.
        -- intros y Hy. apply elem_of_cons in Hy as [->|Hy]; [done|].
           apply elem_of_cons in Hy as [->|Hy]; [lia|].
           apply Hmax. by right.
        -- intros j y Hj. lia.
      * exists (S (S i)). split; [done|]. split.
        -- intros y Hy. apply elem_of_cons in Hy as [->|Hy]; [done|].
           apply elem_of_cons in Hy as [->|Hy]; [lia|].
           apply Hmax. by right.
        -- assert (key best < key (max_from key best l)).
           { apply (Hfirst 0); [lia|done]. }
           intros [|[|j]] y Hj Hy; simpl in Hy.
           ++ injection Hy as <-. done.
           ++ injection Hy as <-. lia.
           ++ apply (Hfirst (S j)); [lia|done].
Qed.

Lemma find_first {A} (f : A → bool) (l : list A) i r :
  l !! i = Some r → f r = true →
  (∀ j x, j < i → l !! j = Some x → f x = false) →
  List.find f l = Some r.
Proof.
  revert i. induction l as [|y l IH]; intros i Hi Hr Hbefore; [done|].
  destruct i as [|i]; simpl in *.
  - injection Hi as ->. by rewrite Hr.
  - rewrite (Hbefore 0 y); [|lia|done].
    apply (IH i); [done..|]. intros j x Hj Hx. apply (Hbefore (S j)); [lia|done].
Qed.

Lemma max_list_first_max {A} (key : A → nat) (l : list A) r :
  r ∈ l → (∀ x, x ∈ l → key x ≤ key r) → max_list (key <$> l) = key r.
Proof.
  intros Hr Hmax. apply Nat.le_antisymm.
  - assert (Hne : key <$> l ≠ []) by (destruct l; [by apply elem_of_nil in Hr|done]).
    apply max_list_elem_of in Hne. apply list_elem_of_fmap in Hne as (x & -> & Hx).
    by apply Hmax.
  - apply max_list_elem_of_le, list_elem_of_fmap. eauto.
Qed.

(** The loop of [max] and the specification's wording pick the same path. *)
Lemma closest_max_from note_dir c rest :
  closest note_dir (c :: rest) = Some (max_from (proximity note_dir) c rest).
Proof.
  destruct (max_from_first_max (proximity note_dir) c rest) as (i & Hi & Hmax & Hfirst).
  unfold closest. apply (find_first _ _ i); [done|..].
  - apply Nat.eqb_eq. symmetry. apply max_list_first_max; [|done].
    by eapply list_elem_of_lookup_2.
  - intros j x Hj Hx. apply Nat.eqb_neq.
    rewrite (max_list_first_max _ _ (max_from (proximity note_dir) c rest)); [|by eapply list_elem_of_lookup_2|done].
    specialize (Hfirst j x Hj Hx). lia.
Qed.

(** ** The resolver *)

Lemma join_path_empty (d : Path) : join_path d "" = d.
Proof. unfold join_path, parse_path. simpl. apply app_nil_r. Qed.

Section Resolver.
Context (fs : FileSystem).
Implicit Types (link : string) (note_dir vault_root : Path).
Implicit Types (index : gmap string (list Path)).

(** [resolve_attachment] on a link that does not clean to nothing, by the
    two joins: what a join raises leaves the function, and the index is
    looked at only after both have answered that there is no such file. *)
Lemma resolve_attachment_joins link note_dir vault_root index :
  clean_link link ≠ "" →
  resolve_attachment fs link note_dir vault_root index =
    match join_strategy fs note_dir (clean_link link) with
    | Raise e => Raise e
    | Ok (Some p) => Ok (Some p)
    | Ok None =>
        match join_strategy fs vault_root (clean_link link) with
        | Raise e => Raise e
        | Ok (Some p) => Ok (Some p)
        | Ok None =>
            match index !! index_key (clean_link link) with
            | Some (c :: rest) => Ok (Some (max_from (proximity note_dir) c rest))
            | Some [] => Raise IndexError
            | None => Ok None
            end
        end
    end.
Proof.
  intros Hne%is_empty_false. unfold resolve_attachment, join_strategy. rewrite Hne.
  destruct (fs_resolve fs (join_path note_dir _)) as [p1|e]; [|done]. simpl.
  destruct (fs_is_file fs p1) as [[]|e]; [done| |done]. simpl.
  destruct (fs_resolve fs (join_path vault_root _)) as [p2|e]; [|done]. simpl.
  destruct (fs_is_file fs p2) as [[]|e]; [done| |done]. simpl.
  fold (index_key (clean_link link)).
  destruct (index !! index_key (clean_link link)) as [[|c [|c' rest]]|]; done.
Qed.

Lemma resolve_attachment_note link note_dir vault_root index p :
  clean_link link ≠ "" →
  join_strategy fs note_dir (clean_link link) = Ok (Some p) →
  resolve_attachment fs link note_dir vault_root index = Ok (Some p).
Proof. intros Hne H1. by rewrite (resolve_attachment_joins _ _ _ _ Hne), H1. Qed.

Lemma resolve_attachment_vault link note_dir vault_root index p :
  clean_link link ≠ "" →
  join_strategy fs note_dir (clean_link link) = Ok None →
  join_strategy fs vault_root (clean_link link) = Ok (Some p) →
  resolve_attachment fs link note_dir vault_root index = Ok (Some p).
Proof. intros Hne H1 H2. by rewrite (resolve_attachment_joins _ _ _ _ Hne), H1, H2. Qed.

(** What [resolve_attachment] does once the cleaned link is known not to be
    empty and both joins have failed. *)
Lemma resolve_attachment_lookup link note_dir vault_root index :
  clean_link link ≠ "" →
  join_strategy fs note_dir (clean_link link) = Ok None →
  join_strategy fs vault_root (clean_link link) = Ok None →
  resolve_attachment fs link note_dir vault_root index =
    match index !! index_key (clean_link link) with
    | Some (c :: rest) => Ok (Some (max_from (proximity note_dir) c rest))
    | Some [] => Raise IndexError
    | None => Ok None
    end.
Proof. intros Hne H1 H2. by rewrite (resolve_attachment_joins _ _ _ _ Hne), H1, H2. Qed.

(** A join answers with the path it normalized, and only when that path is
    a file. *)
Lemma join_strategy_file base link p :
  join_strategy fs base link = Ok (Some p) → fs_is_file fs p = Ok true.
Proof.
  unfold join_strategy. destruct (fs_resolve fs _) as [q|e]; [|done]. simpl.
  destruct (fs_is_file fs q) as [[]|e] eqn:E; [|done..]. by intros [= <-].
Qed.

(** C1. When the name-only lookup finds several candidates, the result is
    the candidate that shares the most leading parts with the note
    directory (counted from the root up to the first mismatch), and among
    those with that count the one that comes first in the index list. *)
Theorem resolve_attachment_proximity link note_dir vault_root index candidates :
  clean_link link ≠ "" →
  join_strategy fs note_dir (clean_link link) = Ok None →
  join_strategy fs vault_root (clean_link link) = Ok None →
  index !! index_key (clean_link link) = Some candidates →
  1 < length candidates →
  ∃ i c,
    resolve_attachment fs link note_dir vault_root index = Ok (Some c) ∧
    candidates !! i = Some c ∧
    (∀ c', common_prefix_length note_dir c' (proximity note_dir c')) ∧
    (∀ c', c' ∈ candidates → proximity note_dir c' ≤ proximity note_dir c) ∧
    (∀ j c', j < i → candidates !! j = Some c' →
             proximity note_dir c' < proximity note_dir c).
Proof.
  intros Hne H1 H2 Hidx Hlen.
  rewrite (resolve_attachment_lookup _ _ _ _ Hne H1 H2), Hidx.
  destruct candidates as [|c rest]; [simpl in Hlen; lia|].
  destruct (max_from_first_max (proximity note_dir) c rest) as (i & Hi & Hmax & Hfirst).
  exists i, (max_from (proximity note_dir) c rest).
  split_and!; auto using proximity_common_prefix.
Qed.

(** C2, as amended.  The strategies are tried in the order
    relative-to-note, relative-to-vault-root, name-only lookup, and the
    first success is the result; a name missing from the index after both
    joins failed gives nothing.  A join that raises, at the normalization
    or at the test for a file, ends the resolution: the exception leaves
    [resolve_attachment] and no later strategy is tried. *)
Theorem resolve_attachment_chain link note_dir vault_root index :
  (clean_link link = "" →
     join_strategy fs note_dir "" = Ok None ∧
     join_strategy fs vault_root "" = Ok None ∧
     index !! "" = None) →
  index !! index_key (clean_link link) ≠ Some [] →
  resolve_attachment fs link note_dir vault_root index =
    first_success (strategy_chain fs note_dir vault_root index) (clean_link link) ∧
  (join_strategy fs note_dir (clean_link link) = Ok None →
   join_strategy fs vault_root (clean_link link) = Ok None →
   index !! index_key (clean_link link) = None →
   resolve_attachment fs link note_dir vault_root index = Ok None) ∧
  (∀ e, clean_link link ≠ "" →
        join_strategy fs note_dir (clean_link link) = Raise e →
        resolve_attachment fs link note_dir vault_root index = Raise e) ∧
  (∀ e, clean_link link ≠ "" →
        join_strategy fs note_dir (clean_link link) = Ok None →
        join_strategy fs vault_root (clean_link link) = Raise e →
        resolve_attachment fs link note_dir vault_root index = Raise e).
Proof.
  intros Hempty Hcands.
  assert (Hchain :
    resolve_attachment fs link note_dir vault_root index =
    first_success (strategy_chain fs note_dir vault_root index) (clean_link link)).
  { destruct (decide (clean_link link = "")) as [He|Hne].
    - destruct (Hempty He) as (Hn & Hv & Hi).
      rewrite (resolve_attachment_empty _ _ _ _ _ He), He.
      unfold strategy_chain, first_success, name_only_lookup.
      rewrite Hn, Hv. simpl. change (index_key "") with "". by rewrite Hi.
    - rewrite (resolve_attachment_joins _ _ _ _ Hne).
      unfold strategy_chain, first_success, name_only_lookup.
      destruct (join_strategy fs note_dir (clean_link link)) as [[p|]|e]; [done| |done].
      simpl.
      destruct (join_strategy fs vault_root (clean_link link)) as [[p|]|e]; [done| |done].
      simpl.
      destruct (index !! index_key (clean_link link)) as [[|c [|c' rest]]|]; try done.
      by rewrite closest_max_from. }
  split_and!; [done|..].
  - intros H1 H2 Hi. rewrite Hchain. unfold strategy_chain, first_success, name_only_lookup.
    rewrite H1, H2. simpl. by rewrite Hi.
  - intros e Hne H1. by rewrite (resolve_attachment_joins _ _ _ _ Hne), H1.
  - intros e Hne H1 H2. by rewrite (resolve_attachment_joins _ _ _ _ Hne), H1, H2.
Qed.

End Resolver.

Lemma resolve_attachment_proximity_example :
  resolve_attachment (disk_view ∅) "img.png" ["/"; "vault"; "a"] ["/"; "vault"] img_index
  = Ok (Some vault_a_img).
Proof.
  destruct (resolve_attachment_proximity (disk_view ∅) "img.png" ["/"; "vault"; "a"]
              ["/"; "vault"] img_index [vault_a_img; vault_b_img])
    as (i & c & -> & Hi & _ & Hmax & _).
  - vm_compute. discriminate.
  - reflexivity.
  - reflexivity.
  - reflexivity.
  - simpl. lia.
  - destruct i as [|[|i]]; simpl in Hi; [congruence| |discriminate].
    injection Hi as <-.
    assert (H : proximity ["/"; "vault"; "a"] vault_a_img ≤ proximity ["/"; "vault"; "a"] vault_b_img).
    { apply Hmax. left. }
    vm_compute in H. lia.
Defined.

(** The example of the proximity count on a disk that holds the files. *)

Lemma resolve_attachment_beside_note :
  resolve_attachment (disk_view img_disk) "img.png" ["/"; "vault"; "a"] ["/"; "vault"]
    img_index
  = Ok (Some vault_a_img).
Proof. reflexivity. Qed.

(** *** Examples of the chain, and the index *)

(** The link is not found beside the note, and is found under the vault
    root: the second strategy answers. *)
Lemma resolve_attachment_chain_example :
  resolve_attachment (disk_view pic_disk) "sub/pic.png" ["/"; "vault"; "a"] ["/"; "vault"]
    pic_index
  = Ok (Some sub_pic).
Proof.
  rewrite (proj1 (resolve_attachment_chain (disk_view pic_disk) "sub/pic.png"
                    ["/"; "vault"; "a"] ["/"; "vault"] pic_index
                    ltac:(intros H; discriminate H)
                    ltac:(vm_compute; discriminate))).
  reflexivity.
Defined.

Lemma resolve_attachment_name_only :
  resolve_attachment (disk_view pic_disk) "Pic.PNG" ["/"; "vault"; "a"] ["/"; "vault"]
    pic_index
  = Ok (Some sub_pic) ∧
  resolve_attachment (disk_view pic_disk) "other.png" ["/"; "vault"; "a"] ["/"; "vault"]
    pic_index
  = Ok None.
Proof. split; reflexivity. Qed.

(** The claim as it was worded fails on links that the file system
    refuses.  A link with a NUL byte names no file beside the note or under
    the vault root and its name is not in the index, and yet nothing is not
    what comes back: [resolve] raises.  A link whose first part is too long
    has a name that the index knows, and the lookup is never reached:
    [is_file] raises at the first join. *)
Lemma resolve_attachment_raises :
  resolve_attachment (disk_view pic_disk) "a%00b.png" ["/"; "vault"; "a"] ["/"; "vault"]
    pic_index
  = Raise ValueError ∧
  pic_disk !! join_path ["/"; "vault"; "a"] (clean_link "a%00b.png") = None ∧
  pic_disk !! join_path ["/"; "vault"] (clean_link "a%00b.png") = None ∧
  pic_index !! index_key (clean_link "a%00b.png") = None ∧
  resolve_attachment (disk_view pic_disk) (long_name +:+ "/pic.png") ["/"; "vault"; "a"]
    ["/"; "vault"] pic_index
  = Raise OSError ∧
  name_only_lookup ["/"; "vault"; "a"] pic_index (clean_link (long_name +:+ "/pic.png"))
  = Ok (Some sub_pic).
Proof. split_and!; vm_compute; reflexivity. Qed.

Lemma index_add_well_formed fs excluded index index' p :
  index_add fs excluded index p = Ok index' →
  index_well_formed fs index → index_well_formed fs index'.
Proof.
  unfold index_add. destruct (fs_is_file fs p) as [[]|e] eqn:Hfile; simpl; [| |done].
  - destruct (negb _); simpl; [|by intros [= <-]].
    intros [= <-] Hwf key candidates. rewrite lookup_insert.
    destruct (decide (Py.lower (path_name p) = key)) as [<-|Hne]; [|apply Hwf].
    intros [= <-]. split.
    + by destruct (default [] (index !! Py.lower (path_name p))).
    + intros q [Hq|Hq%list_elem_of_singleton]%elem_of_app; [|by subst].
      destruct (index !! Py.lower (path_name p)) as [cands|] eqn:E; simpl in Hq.
      * by apply (Hwf _ _ E).
      * by apply elem_of_nil in Hq.
  - by intros [= <-].
Qed.

Lemma index_all_well_formed fs excluded listing : ∀ index index',
  index_all fs excluded listing index = Ok index' →
  index_well_formed fs index → index_well_formed fs index'.
Proof.
  induction listing as [|p listing IH]; intros index index'; simpl.
  - by intros [= <-].
  - destruct (index_add fs excluded index p) as [index1|e] eqn:E; [|done]. simpl.
    intros Hall Hwf. apply (IH _ _ Hall). by apply (index_add_well_formed _ _ _ _ _ E).
Qed.

(** [build_vault_index] never makes an empty list: the name-only lookup of
    [resolve_attachment] cannot raise on an index it built. *)
Lemma build_vault_index_well_formed fs listing excluded index :
  build_vault_index fs listing excluded = Ok index → index_well_formed fs index.
Proof.
  intros H. apply (index_all_well_formed _ _ _ _ _ H).
  intros key candidates. by rewrite lookup_empty.
Qed.

(** ** Tag matching *)

Section TagMatcher.
Context (fs : FileSystem) (safe_load : string → option yaml).





End TagMatcher.


(** Tags are compared as written: [Ready] is not [ready]. *)
Lemma process_note_case_sensitive :
  process_note (disk_view {[ ready_note := "#Ready" ]}) (λ _, None)
    ready_note {[ "ready" ]} ["/"; "vault"] ∅ = None.
Proof. vm_compute. reflexivity. Qed.

(** ** Front-matter tags *)

Lemma elem_of_str_items f (vs : list yaml) t :
  t ∈ str_items f vs ↔ ∃ v, YStr v ∈ vs ∧ t = f v.
Proof.
  unfold str_items. rewrite list_elem_of_omap. split.
  - intros (y & Hy & Ht). destruct y; try done. injection Ht as <-. eauto.
  - intros (v & Hv & ->). by exists (YStr v).
Qed.

(** C8, as amended.  A [tags] field of the front matter may be one string
    or a list of strings; each value enters the candidate set with the [#]
    characters at its two ends removed, all of them. *)
Theorem frontmatter_tags_union safe_load text block items :
  match_start FRONTMATTER_RE text = Some block →
  safe_load block = Some (YMap items) →
  (∀ v, dict_get "tags" (YSeq []) items = YStr v →
        frontmatter_tags safe_load text = {[ Py.strip_chars ["#"]%char v ]}) ∧
  (∀ vs, dict_get "tags" (YSeq []) items = YSeq vs →
         ∀ t, t ∈ frontmatter_tags safe_load text
              ↔ ∃ v, YStr v ∈ vs ∧ t = Py.strip_chars ["#"]%char v) ∧
  frontmatter_tags safe_load text ⊆ note_tags safe_load text ∧
  (∀ v, ∃ l r,
     v = l +:+ Py.strip_chars ["#"]%char v +:+ r ∧
     Py.all_chr (Py.chr_in ["#"]%char) l = true ∧
     Py.all_chr (Py.chr_in ["#"]%char) r = true ∧
     Py.lstrip_chars ["#"]%char (Py.strip_chars ["#"]%char v) = Py.strip_chars ["#"]%char v ∧
     Py.rstrip_by (Py.chr_in ["#"]%char) (Py.strip_chars ["#"]%char v)
     = Py.strip_chars ["#"]%char v).
Proof.
  intros Hmatch Hload. split_and!.
  - intros v Hv. unfold frontmatter_tags. by rewrite Hmatch, Hload, Hv.
  - intros vs Hvs t. unfold frontmatter_tags. rewrite Hmatch, Hload, Hvs.
    by rewrite elem_of_list_to_set, elem_of_str_items.
  - unfold note_tags. set_solver.
  - intros v. apply strip_chars_spec.
Qed.

(** The note of the specification: with [tags: [ready, archive]] in the
    front matter and no inline tag, the target [archive] matches. *)
Lemma frontmatter_tags_union_example :
  "archive" ∈ note_tags archive_yaml archive_text ∧
  scan_tags tag_chr true archive_text = [] ∧
  process_note (disk_view {[ ready_note := archive_text ]}) archive_yaml
    ready_note {[ "archive" ]} ["/"; "vault"] ∅
  = Some (NoteMetadata.Build ready_note ["archive"] [] (String.length archive_text)).
Proof.
  destruct (frontmatter_tags_union archive_yaml archive_text "tags: [ready, archive]"
              [(YStr "tags", YSeq [YStr "ready"; YStr "archive"])] eq_refl eq_refl)
    as (_ & Hseq & Hsub & _).
  split_and!.
  - apply Hsub, (Hseq _ eq_refl). exists "archive". split; [|reflexivity].
    right. left.
  - reflexivity.
  - vm_compute. reflexivity.
Defined.

(** The [#] at the end of a value goes too: [c#] enters the candidates as
    [c], not as [c#]. *)
Lemma frontmatter_tags_strip_both_ends :
  frontmatter_tags csharp_yaml csharp_text = {[ "c" ]} ∧
  claimed_frontmatter_tag "c#" = "c#" ∧
  frontmatter_tags csharp_yaml csharp_text ≠ {[ claimed_frontmatter_tag "c#" ]}.
Proof.
  split_and!; [reflexivity|reflexivity|].
  intros H. assert (Hin : "c" ∈ ({[ claimed_frontmatter_tag "c#" ]} : gset string)).
  { rewrite <- H. apply elem_of_singleton. reflexivity. }
  apply elem_of_singleton in Hin. discriminate.
Qed.

(** ** The move phase *)



Section MovePhase.
Context (dest_dir : Path).

Lemma path_exists_true p st :
  is_Some (disk st !! p) → path_exists p st = (st, Ok true).
Proof. intros H. unfold path_exists. by rewrite bool_decide_eq_true_2. Qed.

Lemma path_exists_false p st :
  disk st !! p = None → path_exists p st = (st, Ok false).
Proof.
  intros H. unfold path_exists. rewrite bool_decide_eq_false_2; [done|].
  rewrite H. by intros [??].
Qed.

(** An attachment that is no longer on the disk is passed over. *)
Lemma move_attachment_missing att st :
  disk st !! att = None → move_attachment dest_dir att st = (st, Ok tt).
Proof.
  intros H. unfold move_attachment, mbind, step_bind. by rewrite (path_exists_false _ _ H).
Qed.

(** So is one whose name is taken in the destination. *)
Lemma move_attachment_taken att st :
  is_Some (disk st !! att) →
  is_Some (disk st !! join_path dest_dir (path_name att)) →
  move_attachment dest_dir att st = (st, Ok tt).
Proof.
  intros Hatt Hdest. unfold move_attachment, mbind, step_bind.
  rewrite (path_exists_true _ _ Hatt). cbn [negb]. by rewrite (path_exists_true _ _ Hdest).
Qed.

(** Otherwise it moves, and is counted. *)
Lemma move_attachment_moves att st content :
  disk st !! att = Some content →
  disk st !! join_path dest_dir (path_name att) = None →
  move_attachment dest_dir att st =
    (RunState (<[join_path dest_dir (path_name att) := content]> (delete att (disk st)))
       (moved_notes st) (S (moved_atts st)) (errors st), Ok tt).
Proof.
  intros Hatt Hdest. unfold move_attachment, mbind, step_bind.
  rewrite (path_exists_true _ _ (mk_is_Some _ _ Hatt)). cbn [negb].
  rewrite (path_exists_false _ _ Hdest). cbn [negb].
  unfold shutil_move. by rewrite Hatt.
Qed.

(** No turn of the attachment loop raises or touches the error tally. *)
Lemma move_attachment_no_error att st :
  ∃ st', move_attachment dest_dir att st = (st', Ok tt) ∧
         errors st' = errors st ∧ moved_notes st' = moved_notes st.
Proof.
  destruct (disk st !! att) as [content|] eqn:Hatt.
  - destruct (disk st !! join_path dest_dir (path_name att)) as [old|] eqn:Hdest.
    + exists st. by rewrite move_attachment_taken.
    + eexists. by rewrite (move_attachment_moves _ _ _ Hatt Hdest).
  - exists st. by rewrite move_attachment_missing.
Qed.

Lemma move_attachments_no_error atts st :
  ∃ st', move_attachments dest_dir atts st = (st', Ok tt) ∧
         errors st' = errors st ∧ moved_notes st' = moved_notes st.
Proof.
  revert st. induction atts as [|att atts IH]; intros st; [by exists st|].
  destruct (move_attachment_no_error att st) as (st1 & H1 & He1 & Hn1).
  destruct (IH st1) as (st2 & H2 & He2 & Hn2).
  exists st2. simpl. unfold mbind, step_bind. rewrite H1, H2. split_and!; congruence.
Qed.

(** The move of the note itself. *)
Lemma move_note_result i note st content :
  disk st !! NoteMetadata.path note = Some content →
  move_note dest_dir i note st =
    (RunState
       (<[(if bool_decide (is_Some (disk st !! join_path dest_dir
                                      (path_name (NoteMetadata.path note))))
           then join_path dest_dir (indexed_name i (NoteMetadata.path note))
           else join_path dest_dir (path_name (NoteMetadata.path note))) := content]>
          (delete (NoteMetadata.path note) (disk st)))
       (S (moved_notes st)) (moved_atts st) (errors st), Ok tt).
Proof.
  intros Hnote. unfold move_note, mbind, step_bind, path_exists, shutil_move. simpl.
  by rewrite Hnote.
Qed.

Lemma move_note_missing i note st :
  disk st !! NoteMetadata.path note = None →
  move_note dest_dir i note st = (st, Raise FileNotFoundError).
Proof.
  intros Hnote. unfold move_note, mbind, step_bind, path_exists, shutil_move. simpl.
  by rewrite Hnote.
Qed.

End MovePhase.







(** C10.  An attachment that an earlier turn has moved away is passed over
    without an exception: the attachment loop never raises and never
    touches the error tally, which grows only when the note itself is
    missing at its own move. *)
Theorem relocated_attachment_skipped dest_dir :
  (∀ att st, disk st !! att = None → move_attachment dest_dir att st = (st, Ok tt)) ∧
  (∀ att st content,
     disk st !! att = Some content →
     disk st !! join_path dest_dir (path_name att) = None →
     ∃ st', move_attachment dest_dir att st = (st', Ok tt) ∧
            disk st' !! join_path dest_dir (path_name att) = Some content ∧
            (att ≠ join_path dest_dir (path_name att) → disk st' !! att = None)) ∧
  (∀ atts st, ∃ st',
     move_attachments dest_dir atts st = (st', Ok tt) ∧ errors st' = errors st) ∧
  (∀ i note st st',
     move_attachments dest_dir (NoteMetadata.attachments note) st = (st', Ok tt) →
     errors (move_one dest_dir i note st)
     = if bool_decide (is_Some (disk st' !! NoteMetadata.path note))
       then errors st else S (errors st)).
Proof.
  split_and!.
  - apply move_attachment_missing.
  - intros att st content Hatt Hdest. eexists.
    rewrite (move_attachment_moves _ _ _ _ Hatt Hdest). split_and!; [done|..]; simpl.
    + apply lookup_insert_eq.
    + intros Hne. rewrite lookup_insert_ne by done. apply lookup_delete_eq.
  - intros atts st. destruct (move_attachments_no_error dest_dir atts st) as (st' & ? & ? & ?).
    eauto.
  - intros i note st st' Hatts.
    destruct (move_attachments_no_error dest_dir (NoteMetadata.attachments note) st)
      as (st1 & H1 & He & _).
    assert (st1 = st') as -> by congruence.
    unfold move_one, try_body, mbind, step_bind. rewrite Hatts.
    destruct (disk st' !! NoteMetadata.path note) as [content|] eqn:Hnote.
    + rewrite (move_note_result _ _ _ _ _ Hnote). simpl. done.
    + rewrite (move_note_missing _ _ _ _ Hnote), bool_decide_eq_false_2.
      * simpl. by rewrite He.
      * by intros [??].
Qed.

(** Two notes with the same picture: the first turn moves it, the second
    finds it gone and goes on; no error is counted. *)
Lemma relocated_attachment_example :
  disk (move_one inbox 1 note_one (RunState shared_disk 0 0 0)) !! shared_png = None ∧
  move_attachment inbox shared_png (move_one inbox 1 note_one (RunState shared_disk 0 0 0))
  = (move_one inbox 1 note_one (RunState shared_disk 0 0 0), Ok tt) ∧
  errors (move_phase inbox [note_one; note_two] shared_disk) = 0 ∧
  moved_atts (move_phase inbox [note_one; note_two] shared_disk) = 1 ∧
  moved_notes (move_phase inbox [note_one; note_two] shared_disk) = 2 ∧
  disk (move_phase inbox [note_one; note_two] shared_disk) !! ["/"; "inbox"; "shared.png"]
  = Some "png".
Proof.
  assert (Hgone : disk (move_one inbox 1 note_one (RunState shared_disk 0 0 0))
                    !! shared_png = None) by (vm_compute; reflexivity).
  split_and!; [done| |vm_compute; reflexivity..].
  apply (proj1 (relocated_attachment_skipped inbox)), Hgone.
Defined.

(** ** Link extraction *)

Section Attached.
Context (fs : FileSystem) (safe_load : string → option yaml).
Context (note_dir vault_root : Path) (index : gmap string (list Path)).

Local Abbreviation attached := (attached_by fs note_dir vault_root index).

Lemma resolve_links_elem links : ∀ acc atts,
  resolve_links fs links note_dir vault_root index acc = Ok atts →
  ∀ p, p ∈ atts ↔ p ∈ acc ∨ ∃ link, link ∈ links ∧ attached link p.
Proof.
  induction links as [|link links IH]; intros acc atts Hres p.
  { injection Hres as <-. split; [by left|]. intros [?|(l & ?%elem_of_nil & _)]; done. }
  cbn [resolve_links] in Hres.
  assert (Hskip : ∀ acc',
            resolve_links fs links note_dir vault_root index acc' = Ok atts →
            (p ∈ acc' ↔ p ∈ acc ∨ attached link p) →
            p ∈ atts ↔ p ∈ acc ∨ ∃ l, l ∈ link :: links ∧ attached l p).
  { intros acc' Hrest Hacc. rewrite (IH _ _ Hrest), Hacc. split.
    - intros [[?|?]|(l & Hl & Ha)]; [by left|right..].
      + exists link. split; [left|done].
      + exists l. split; [by right|done].
    - intros [?|(l & [-> |Hl]%elem_of_cons & Ha)]; [by left; left|by left; right|].
      right. by exists l. }
  destruct (is_external link) eqn:Hext.
  { apply (Hskip acc Hres). split; [by left|]. intros [?|(Hne & _)]; [done|congruence]. }
  unfold mbind, result_bind in Hres.
  destruct (resolve_attachment fs link note_dir vault_root index) as [[q|]|] eqn:Hr;
    [| |done].
  - destruct (negb (String.eqb (Py.lower (path_suffix q)) ".md")) eqn:Hmd.
    + apply (Hskip _ Hres). rewrite elem_of_app, list_elem_of_singleton.
      apply negb_true_iff, String.eqb_neq in Hmd. split.
      * intros [?| ->]; [by left|]. right. by split_and!.
      * intros [?|(_ & Heq & _)]; [by left|]. right. congruence.
    + apply (Hskip _ Hres). apply negb_false_iff, String.eqb_eq in Hmd. split; [by left|].
      intros [?|(_ & Heq & Hne)]; [done|]. congruence.
  - apply (Hskip _ Hres). split; [by left|]. intros [?|(_ & Heq & _)]; [done|]. congruence.
Qed.

Lemma find_attachments_members text atts :
  find_attachments fs safe_load text note_dir vault_root index = Ok atts →
  NoDup atts ∧
  ∀ p, p ∈ atts ↔
       ∃ link, link ∈ body_links text ++ extract_frontmatter_links safe_load text ∧
               is_external link = false ∧
               resolve_attachment fs link note_dir vault_root index = Ok (Some p) ∧
               Py.lower (path_suffix p) ≠ ".md".
Proof.
  unfold find_attachments, mbind, result_bind.
  destruct (resolve_links _ _ _ _ _ _) as [found|] eqn:Hres; [|done].
  intros [= <-]. split; [apply NoDup_elements|].
  intros p. rewrite elem_of_elements, elem_of_list_to_set, (resolve_links_elem _ _ _ Hres).
  split; [|by right]. intros [?%elem_of_nil|?]; done.
Qed.

End Attached.

(** *** White space behind a link *)

Lemma unquote_plain s :
  Py.all_chr (λ c, negb (Ascii.eqb c "%")) s = true → unquote s = s.
Proof.
  unfold unquote. induction s as [|c s IH]; [done|]. simpl.
  intros [Hc ?]%andb_prop. apply negb_true_iff in Hc. rewrite Hc. f_equal. auto.
Qed.













(** *** One link in a text, as a text of several *)

Lemma wiki_link_segments pre target extra post :
  wiki_target target → wiki_extra extra →
  Py.all_chr no_bracket pre = true → Py.all_chr no_bracket post = true →
  ∃ b pre',
    pre +:+ "[[" +:+ target +:+ extra +:+ "]]" +:+ post
    = render [Plain pre'; Wiki b target extra; Plain post] ∧
    well_formed [Plain pre'; Wiki b target extra; Plain post].
Proof.
  intros Ht He Hpre Hpost. destruct (ends_with_bang pre) eqn:Hend.
  - assert (Hne : pre ≠ "") by (by intros ->).
    destruct (string_snoc pre Hne) as (c & Hc).
    assert (c = "!"%char) as ->.
    { rewrite Hc, ends_with_bang_app in Hend. by apply Ascii.eqb_eq in Hend. }
    exists true, (substring 0 (String.length pre - 1) pre). split.
    + rewrite Hc at 1. cbn [render segment_text bang]. str_norm.
      by rewrite str_app_nil_r.
    + rewrite Hc, all_chr_app in Hpre. apply andb_prop in Hpre as [Hpre' _].
      cbn [well_formed]. split_and!; done.
  - exists false, pre. split.
    + cbn [render segment_text bang]. str_norm. by rewrite str_app_nil_r.
    + cbn [well_formed]. split_and!; try done. by rewrite Hend.
Qed.

(** C4.  A wiki link [[target]] or ![[target]], with or without an alias
    and a fragment after the target, yields exactly the target (the [!]
    of an embed is the last character of [pre]), and the target is what
    [find_attachments] goes on with.  So it is for each wiki link of a
    text of several links: the links the body gives are the targets of its
    wiki links and then what its markdown links give, and the attachments
    are what the resolution makes of those and of the front-matter
    links. *)
Theorem wiki_link_target :
  (∀ pre target extra post,
     wiki_target target → wiki_extra extra →
     Py.all_chr no_bracket pre = true → Py.all_chr no_bracket post = true →
     findall WIKI_LINK_RE (pre +:+ "[[" +:+ target +:+ extra +:+ "]]" +:+ post)
     = [target] ∧
     body_links (pre +:+ "[[" +:+ target +:+ extra +:+ "]]" +:+ post) = [target]) ∧
  (∀ segs,
     well_formed segs → md_links_plain segs →
     findall WIKI_LINK_RE (render segs) = wiki_targets segs ∧
     body_links (render segs) = wiki_targets segs ++ md_groups segs ∧
     ∀ fs safe_load note_dir vault_root index atts,
       find_attachments fs safe_load (render segs) note_dir vault_root index = Ok atts →
       ∀ p, p ∈ atts ↔
            ∃ link, link ∈ (wiki_targets segs ++ md_groups segs)
                           ++ extract_frontmatter_links safe_load (render segs) ∧
                    attached_by fs note_dir vault_root index link p).
Proof.
  split.
  - intros pre target extra post Ht He Hpre Hpost.
    destruct (wiki_link_segments pre target extra post Ht He Hpre Hpost)
      as (b & pre' & -> & Hwf).
    split.
    + unfold findall. by rewrite findall_wiki_render.
    + by rewrite body_links_render.
  - intros segs Hwf Hplain. split_and!.
    + unfold findall. by apply findall_wiki_render.
    + by apply body_links_render.
    + intros fs safe_load note_dir vault_root index atts Hatts p.
      rewrite <- (body_links_render segs Hwf Hplain).
      by apply (find_attachments_members _ _ _ _ _ _ _ Hatts).
Qed.

(** The link of the specification, alone and as an embed in a text with a
    markdown image. *)
Lemma wiki_link_target_example :
  findall WIKI_LINK_RE "[[a/b.png|alias#frag]]" = ["a/b.png"] ∧
  body_links "[[a/b.png|alias#frag]]" = ["a/b.png"] ∧
  body_links ("see ![[a/b.png|alias#frag]] and ![shot](c.png " +:+ dq +:+ "T" +:+ dq
              +:+ ")!")
  = ["a/b.png"; "c.png"].
Proof.
  destruct wiki_link_target as [Hone Hseveral].
  destruct (Hone "" "a/b.png" "|alias#frag" "") as [Hfind Hbody].
  { split; [discriminate|reflexivity]. }
  { right. exists "|"%char, "alias#frag".
    split_and!; [reflexivity|by left|discriminate|reflexivity]. }
  { reflexivity. }
  { reflexivity. }
  destruct (Hseveral [Plain "see "; Wiki true "a/b.png" "|alias#frag"; Plain " and ";
                      Md true "shot" "c.png" (Some (" ", "T")); Plain "!"])
    as (_ & Htext & _).
  { cbn [well_formed]. split_and!; try done.
    right. exists "|"%char, "alias#frag".
    split_and!; [reflexivity|by left|discriminate|reflexivity]. }
  { cbn [md_links_plain]. split_and!; done. }
  split_and!; [exact Hfind|exact Hbody|exact Htext].
Defined.

(** *** Markdown links with a title *)




(** * Further properties *)

(** ** [parse_tags] *)

Lemma run_word pos s g :
  run (Group (Rep tag_chr 1 true)) (MState pos s g) report
  = if Py.is_empty (Py.take_while tag_chr s) then None
    else Some (pos + String.length (Py.take_while tag_chr s), Py.take_while tag_chr s).
Proof.
  cbn [run m_pos m_rest m_group].
  destruct (Py.take_while tag_chr s) as [|c w] eqn:E; simpl.
  - apply rep_greedy_short. rewrite E. simpl. lia.
  - pose proof (take_drop_while tag_chr s) as Hs. rewrite E in Hs.
    pose proof (all_take_while tag_chr s) as Hall. rewrite E in Hall.
    pose proof (stops_drop_while tag_chr s) as Hstop.
    remember (Py.drop_while tag_chr s) as D eqn:HD. clear HD E. subst s.
    erewrite rep_greedy_run; [reflexivity|done|done|simpl; lia|].
    unfold report. cbn [m_pos m_rest m_group default].
    replace (pos + String.length (String c w) - pos)
      with (String.length (String c w)) by lia.
    by rewrite substring_app_prefix.
Qed.

(** An attempt of the pattern of [parse_tags] at one position. *)
Lemma parse_tags_match_at pos s :
  match_at PARSE_TAGS_RE pos s =
    match tag_after_hash s with
    | Some w => Some (S pos + String.length w, w)
    | None =>
        if Py.is_empty (Py.take_while tag_chr s) then None
        else Some (pos + String.length (Py.take_while tag_chr s), Py.take_while tag_chr s)
    end.
Proof.
  unfold match_at, PARSE_TAGS_RE.
  change (run (Seq (Opt ?r1) ?r2) ?st ?k)
    with (or_else (run (Seq r1 r2) st k) (run r2 st k)).
  rewrite run_hash_word, run_word. by destruct (tag_after_hash s).
Qed.

Lemma word_runs_inside p s :
  stops p s → word_runs p true s = word_runs p false s.
Proof. destruct s as [|c s]; [done|]. simpl. by intros ->. Qed.

(** A whole run, and the text after it. *)
Lemma word_runs_run p w rest :
  Py.all_chr p w = true → stops p rest →
  word_runs p true (w +:+ rest) = word_runs p false rest.
Proof.
  intros Hw Hrest. induction w as [|c w IH]; [by apply word_runs_inside|].
  simpl in Hw. apply andb_prop in Hw as [Hc Hw].
  rewrite str_app_cons. simpl. rewrite Hc. by apply IH.
Qed.

Lemma word_runs_take_drop p s :
  word_runs p true s = word_runs p false (Py.drop_while p s).
Proof.
  rewrite <- (take_drop_while p s) at 1.
  apply word_runs_run; [apply all_take_while|apply stops_drop_while].
Qed.

Lemma findall_from_skip_run r p s pos :
  findall_from r pos (String.length (Py.take_while p s)) s
  = findall_from r (pos + String.length (Py.take_while p s)) 0 (Py.drop_while p s).
Proof.
  pose proof (findall_from_skip r (Py.take_while p s) (Py.drop_while p s) pos) as H.
  by rewrite take_drop_while in H.
Qed.

Lemma findall_parse_tags_from n : ∀ s pos,
  String.length s ≤ n →
  findall_from PARSE_TAGS_RE pos 0 s = word_runs tag_chr false s.
Proof.
  induction n as [|n IH]; intros s pos Hlen.
  { destruct s; [|simpl in Hlen; lia]. cbn [findall_from]. by rewrite parse_tags_match_at. }
  destruct s as [|c s].
  { cbn [findall_from]. by rewrite parse_tags_match_at. }
  simpl in Hlen. assert (Hs : String.length s ≤ n) by lia.
  pose proof (drop_while_length tag_chr s) as Hdrop.
  destruct (tag_after_hash (String c s)) as [w|] eqn:Htag.
  - (* [#] and a word *)
    destruct (tag_after_hash_Some _ _ Htag) as (s' & [= -> ->] & -> & Hne).
    rewrite (findall_from_hit _ _ _ _ (S pos + String.length (Py.take_while tag_chr s'))
               (Py.take_while tag_chr s')) by (by rewrite parse_tags_match_at, Htag).
    replace (S pos + String.length (Py.take_while tag_chr s') - pos - 1)
      with (String.length (Py.take_while tag_chr s')) by lia.
    rewrite findall_from_skip_run, IH by lia.
    cbn [word_runs]. change (tag_chr "#") with false. cbn [negb andb app].
    destruct s' as [|c' s'']; [done|]. simpl in Hne |- *.
    destruct (tag_chr c') eqn:Hc'; [|done]. simpl. f_equal.
    symmetry. apply (word_runs_take_drop tag_chr s'').
  - destruct (tag_chr c) eqn:Hc.
    + (* a word without [#] *)
      rewrite (findall_from_hit _ _ _ _
                 (pos + String.length (Py.take_while tag_chr (String c s)))
                 (Py.take_while tag_chr (String c s))).
      2:{ rewrite parse_tags_match_at, Htag. simpl. by rewrite Hc. }
      simpl. rewrite Hc. simpl.
      replace (pos + S (String.length (Py.take_while tag_chr s)) - pos - 1)
        with (String.length (Py.take_while tag_chr s)) by lia.
      rewrite findall_from_skip_run, IH by lia.
      f_equal. symmetry. apply word_runs_take_drop.
    + rewrite findall_from_miss.
      2:{ rewrite parse_tags_match_at, Htag. simpl. by rewrite Hc. }
      rewrite IH by done. simpl. by rewrite Hc.
Qed.

Lemma word_runs_words p inside s w :
  w ∈ word_runs p inside s → w ≠ "" ∧ Py.all_chr p w = true.
Proof.
  revert inside. induction s as [|c s IH]; intros inside; simpl.
  { by intros ?%elem_of_nil. }
  intros [Hw|Hw]%elem_of_app; [|by eapply IH].
  destruct (negb inside && p c) eqn:E; [|by apply elem_of_nil in Hw].
  apply list_elem_of_singleton in Hw as ->. apply andb_prop in E as [_ Hc].
  rewrite Hc. split; [done|]. simpl. rewrite Hc. apply all_take_while.
Qed.

(** X1.  [parse_tags] returns the runs of letters, digits, underscores and
    hyphens of its input, each as long as it can be: a [#] or any other
    character only separates them, so a parsed tag is never empty and
    never holds a [#]. *)
Theorem parse_tags_word_runs :
  (∀ input_str, findall PARSE_TAGS_RE input_str = word_runs tag_chr false input_str) ∧
  (∀ input_str t, t ∈ parse_tags input_str →
     t ≠ "" ∧ Py.all_chr tag_chr t = true ∧
     Py.all_chr (λ c, negb (Ascii.eqb c "#")) t = true).
Proof.
  assert (H : ∀ s, findall PARSE_TAGS_RE s = word_runs tag_chr false s).
  { intros s. apply (findall_parse_tags_from (String.length s)). done. }
  split; [done|]. intros s t Ht. unfold parse_tags in Ht.
  rewrite elem_of_list_to_set, H in Ht. apply word_runs_words in Ht as [Hne Hall].
  split_and!; [done..|]. clear Hne. induction t as [|c t IH]; [done|].
  simpl in *. apply andb_prop in Hall as [Hc Hall].
  apply tag_chr_plain in Hc as [-> _]. simpl. auto.
Qed.

Lemma parse_tags_examples :
  parse_tags "#work #project" = {[ "work"; "project" ]} ∧
  parse_tags "work project" = {[ "work"; "project" ]} ∧
  findall PARSE_TAGS_RE "#a#b, c_d-e ##" = ["a"; "b"; "c_d-e"].
Proof. split_and!; [| |reflexivity]; vm_compute; reflexivity. Qed.

(** ** [build_vault_index] *)

Lemma index_all_lookup fs excluded key listing : ∀ index index',
  index_all fs excluded listing index = Ok index' →
  index' !! key =
    match List.filter (indexed_under fs excluded key) listing with
    | [] => index !! key
    | found => Some (default [] (index !! key) ++ found)
    end.
Proof.
  induction listing as [|p listing IH]; intros index index'; [by intros [= <-]|].
  cbn [index_all List.filter]. unfold index_add at 1, indexed_under at 1.
  destruct (fs_is_file fs p) as [is_file|e]; [|done]. cbn [mbind result_bind].
  destruct (is_file && negb (existsb _ p)) eqn:Htaken; cbn [mbind result_bind andb].
  - intros Hall. rewrite (IH _ _ Hall).
    destruct (String.eqb_spec (Py.lower (path_name p)) key) as [->|Hne].
    + rewrite lookup_insert_eq.
      destruct (List.filter _ listing) as [|q found]; simpl; [done|].
      f_equal. by rewrite <- app_assoc.
    + by rewrite lookup_insert_ne.
  - apply IH.
Qed.

Lemma index_all_returns fs excluded listing : ∀ index,
  (∃ index', index_all fs excluded listing index = Ok index') ↔
  ∀ p, p ∈ listing → ∃ is_file, fs_is_file fs p = Ok is_file.
Proof.
  induction listing as [|p listing IH]; intros index.
  { split; [by intros _ p ?%elem_of_nil|by exists index]. }
  cbn [index_all]. unfold index_add at 1.
  destruct (fs_is_file fs p) as [is_file|e] eqn:Hp; cbn [mbind result_bind].
  - assert (Hnext : ∃ index1,
              (if is_file && negb (existsb (λ part, bool_decide (part ∈ excluded)) p)
               then Ok (<[Py.lower (path_name p) :=
                            default [] (index !! Py.lower (path_name p)) ++ [p]]> index)
               else Ok index) = Ok index1) by (destruct (_ && _); eauto).
    destruct Hnext as (index1 & ->). rewrite (IH index1). split.
    + intros Hall q [->|Hq]%elem_of_cons; [by eauto|by apply Hall].
    + intros Hall q Hq. apply Hall. by right.
  - split; [by intros (index' & ?)|]. intros Hall.
    destruct (Hall p) as (is_file & ?); [left|congruence].
Qed.

Lemma index_all_raises fs excluded listing e : ∀ index,
  index_all fs excluded listing index = Raise e →
  ∃ p, p ∈ listing ∧ fs_is_file fs p = Raise e.
Proof.
  induction listing as [|p listing IH]; intros index; [done|].
  cbn [index_all]. unfold index_add at 1.
  destruct (fs_is_file fs p) as [is_file|e'] eqn:Hp; cbn [mbind result_bind].
  - destruct (_ && _); intros (q & ? & ?)%IH; exists q; (split; [by right|done]).
  - intros [= ->]. exists p. split; [left|done].
Qed.

(** X2.  [build_vault_index] returns an index exactly when [is_file]
    answers for every path of the traversal, and what it raises otherwise
    is what [is_file] raised.  The list the index holds under a key is the
    listing cut down to the files outside the excluded directories whose
    lowercased name is the key, in the order of the traversal; a key with
    no such file is absent. *)
Theorem build_vault_index_lookup fs listing excluded :
  (∀ index key,
     build_vault_index fs listing excluded = Ok index →
     index !! key =
       match List.filter (indexed_under fs excluded key) listing with
       | [] => None
       | found => Some found
       end) ∧
  ((∃ index, build_vault_index fs listing excluded = Ok index) ↔
   ∀ p, p ∈ listing → ∃ is_file, fs_is_file fs p = Ok is_file) ∧
  (∀ e, build_vault_index fs listing excluded = Raise e →
        ∃ p, p ∈ listing ∧ fs_is_file fs p = Raise e).
Proof.
  unfold build_vault_index. split_and!.
  - intros index key H. rewrite (index_all_lookup _ _ key _ _ _ H), lookup_empty.
    by destruct (List.filter _ listing).
  - apply index_all_returns.
  - intros e. apply index_all_raises.
Qed.

(** ** [resolve_attachment] on an index that was built *)

Lemma max_from_elem {A} (key : A → nat) best l : max_from key best l ∈ best :: l.
Proof.
  destruct (max_from_first_max key best l) as (i & Hi & _).
  by eapply list_elem_of_lookup_2.
Qed.

(** On an index whose lists are not empty and hold files, the resolution
    raises only what a join raises, and what it returns is a file. *)
Lemma resolve_attachment_well_formed fs link note_dir vault_root index :
  index_well_formed fs index →
  (∀ e, resolve_attachment fs link note_dir vault_root index = Raise e ↔
        joins_raise fs note_dir vault_root link e) ∧
  (∀ p, resolve_attachment fs link note_dir vault_root index = Ok (Some p) →
        fs_is_file fs p = Ok true).
Proof.
  intros Hwf. unfold joins_raise.
  destruct (decide (clean_link link = "")) as [He|Hne].
  { rewrite (resolve_attachment_empty _ _ _ _ _ He). split; [|done].
    intros e. split; [done|]. by intros [? _]. }
  rewrite (resolve_attachment_joins _ _ _ _ _ Hne).
  destruct (join_strategy fs note_dir (clean_link link)) as [[p1|]|e1] eqn:H1.
  - split.
    + intros e. split; [done|]. intros (_ & [?|[? _]]); done.
    + intros p [= <-]. by eapply join_strategy_file.
  - destruct (join_strategy fs vault_root (clean_link link)) as [[p2|]|e2] eqn:H2.
    + split.
      * intros e. split; [done|]. intros (_ & [?|[_ ?]]); done.
      * intros p [= <-]. by eapply join_strategy_file.
    + destruct (index !! index_key (clean_link link)) as [candidates|] eqn:Hidx.
      * destruct (Hwf _ _ Hidx) as [Hcands Hfiles].
        destruct candidates as [|c rest]; [done|]. split.
        -- intros e. split; [done|]. intros (_ & [?|[_ ?]]); done.
        -- intros p [= <-]. apply Hfiles, max_from_elem.
      * split; [|done]. intros e. split; [done|]. intros (_ & [?|[_ ?]]); done.
    + split; [|done]. intros e. split.
      * intros [= ->]. split; [done|]. by right.
      * intros (_ & [?|[_ ?]]); congruence.
  - split; [|done]. intros e. split.
    + intros [= ->]. split; [done|]. by left.
    + intros (_ & [?|[? _]]); congruence.
Qed.

(** X3.  On an index that [build_vault_index] made, [resolve_attachment]
    raises exactly when one of its two joins raises, and then what the
    join raised: the lookup in the index adds no exception of its own.  A
    path it returns is a file of the disk the index was built on. *)
Theorem resolve_attachment_on_built_index fs listing excluded index link note_dir
    vault_root :
  build_vault_index fs listing excluded = Ok index →
  (∀ e, resolve_attachment fs link note_dir vault_root index = Raise e ↔
        joins_raise fs note_dir vault_root link e) ∧
  (∀ p, resolve_attachment fs link note_dir vault_root index = Ok (Some p) →
        fs_is_file fs p = Ok true).
Proof.
  intros Hbuilt. by eapply resolve_attachment_well_formed, build_vault_index_well_formed.
Qed.

Lemma resolve_attachment_on_built_index_example :
  (∀ e, resolve_attachment (disk_view pic_disk) (long_name +:+ "/pic.png")
          ["/"; "vault"; "a"] ["/"; "vault"] pic_index = Raise e ↔
        joins_raise (disk_view pic_disk) ["/"; "vault"; "a"] ["/"; "vault"]
          (long_name +:+ "/pic.png") e) ∧
  (∀ p, resolve_attachment (disk_view pic_disk) (long_name +:+ "/pic.png")
          ["/"; "vault"; "a"] ["/"; "vault"] pic_index = Ok (Some p) →
        fs_is_file (disk_view pic_disk) p = Ok true).
Proof.
  apply (resolve_attachment_on_built_index (disk_view pic_disk) [sub_pic] ∅).
  vm_compute. reflexivity.
Defined.

(** ** [find_attachments] *)

Section FindAttachments.
Context (fs : FileSystem) (safe_load : string → option yaml).
Context (note_dir vault_root : Path) (index : gmap string (list Path)).

Local Abbreviation attached := (attached_by fs note_dir vault_root index).

(** The loop raises what the resolution of one of its links raises, and
    returns when the resolution of each of them does. *)
Lemma resolve_links_raises links e : ∀ acc,
  resolve_links fs links note_dir vault_root index acc = Raise e →
  ∃ link, link ∈ links ∧ is_external link = false ∧
          resolve_attachment fs link note_dir vault_root index = Raise e.
Proof.
  induction links as [|link links IH]; intros acc; [done|].
  cbn [resolve_links].
  assert (Hrest : ∀ acc',
            resolve_links fs links note_dir vault_root index acc' = Raise e →
            ∃ l, l ∈ link :: links ∧ is_external l = false ∧
                 resolve_attachment fs l note_dir vault_root index = Raise e).
  { intros acc' (l & Hl & ? & ?)%IH. exists l. split; [by right|done]. }
  destruct (is_external link) eqn:Hext; [apply Hrest|].
  destruct (resolve_attachment fs link note_dir vault_root index) as [[q|]|e'] eqn:Hr;
    cbn [mbind result_bind].
  - destruct (negb _); apply Hrest.
  - apply Hrest.
  - intros [= ->]. exists link. split; [left|done].
Qed.

Lemma resolve_links_returns links : ∀ acc,
  (∃ atts, resolve_links fs links note_dir vault_root index acc = Ok atts) ↔
  ∀ link, link ∈ links → is_external link = false →
          ∃ r, resolve_attachment fs link note_dir vault_root index = Ok r.
Proof.
  induction links as [|link links IH]; intros acc.
  { split; [by intros _ l ?%elem_of_nil|by exists acc]. }
  cbn [resolve_links].
  assert (Hrest : ∀ acc',
            (is_external link = false →
             ∃ r, resolve_attachment fs link note_dir vault_root index = Ok r) →
            (∃ atts, resolve_links fs links note_dir vault_root index acc' = Ok atts) ↔
            ∀ l, l ∈ link :: links → is_external l = false →
                 ∃ r, resolve_attachment fs l note_dir vault_root index = Ok r).
  { intros acc' Hlink. rewrite (IH acc'). split.
    - intros Hall l [->|Hl]%elem_of_cons; [done|by apply Hall].
    - intros Hall l Hl. apply Hall. by right. }
  destruct (is_external link) eqn:Hext; [by apply Hrest|].
  destruct (resolve_attachment fs link note_dir vault_root index) as [[q|]|e'] eqn:Hr;
    cbn [mbind result_bind].
  - destruct (negb _); apply Hrest; eauto.
  - apply Hrest. eauto.
  - split; [by intros (atts & ?)|]. intros Hall.
    destruct (Hall link) as (r & ?); [left|done|congruence].
Qed.

Lemma resolve_links_well_formed links : ∀ acc atts,
  index_well_formed fs index →
  Forall (λ p, fs_is_file fs p = Ok true) acc →
  resolve_links fs links note_dir vault_root index acc = Ok atts →
  Forall (λ p, fs_is_file fs p = Ok true) atts.
Proof.
  induction links as [|link links IH]; intros acc atts Hwf Hacc; [by intros [= <-]|].
  cbn [resolve_links]. destruct (is_external link); [by apply IH|].
  destruct (resolve_attachment fs link note_dir vault_root index) as [[q|]|e'] eqn:Hr;
    cbn [mbind result_bind]; [|by apply IH|done].
  destruct (negb _); [|by apply IH]. apply IH; [done|].
  apply Forall_app. split; [done|]. apply Forall_singleton.
  by apply (proj2 (resolve_attachment_well_formed fs link note_dir vault_root index Hwf)).
Qed.

(** X4.  The attachments of a note are, without repetition, the paths that
    [resolve_attachment] gives for the links of its text and of its front
    matter that are not external, those with the suffix [.md] left out. *)
Theorem find_attachments_elem text atts :
  find_attachments fs safe_load text note_dir vault_root index = Ok atts →
  NoDup atts ∧
  ∀ p, p ∈ atts ↔
       ∃ link, link ∈ body_links text ++ extract_frontmatter_links safe_load text ∧
               is_external link = false ∧
               resolve_attachment fs link note_dir vault_root index = Ok (Some p) ∧
               Py.lower (path_suffix p) ≠ ".md".
Proof. apply find_attachments_members. Qed.

Lemma find_attachments_raises text e :
  find_attachments fs safe_load text note_dir vault_root index = Raise e →
  ∃ link, link ∈ body_links text ++ extract_frontmatter_links safe_load text ∧
          is_external link = false ∧
          resolve_attachment fs link note_dir vault_root index = Raise e.
Proof.
  unfold find_attachments.
  destruct (resolve_links _ _ _ _ _ _) as [found|e'] eqn:Hres; cbn [mbind result_bind];
    [done|].
  intros [= ->]. by eapply resolve_links_raises.
Qed.

Lemma find_attachments_returns text :
  (∃ atts, find_attachments fs safe_load text note_dir vault_root index = Ok atts) ↔
  ∀ link, link ∈ body_links text ++ extract_frontmatter_links safe_load text →
          is_external link = false →
          ∃ r, resolve_attachment fs link note_dir vault_root index = Ok r.
Proof.
  rewrite <- (resolve_links_returns _ []). unfold find_attachments.
  destruct (resolve_links _ _ _ _ _ _) as [found|e'] eqn:Hres; cbn [mbind result_bind].
  - split; eauto.
  - split; by intros (atts & ?).
Qed.

Lemma find_attachments_well_formed text atts :
  index_well_formed fs index →
  find_attachments fs safe_load text note_dir vault_root index = Ok atts →
  ∀ p, p ∈ atts → fs_is_file fs p = Ok true.
Proof.
  intros Hwf. unfold find_attachments.
  destruct (resolve_links _ _ _ _ _ _) as [found|e'] eqn:Hres; cbn [mbind result_bind];
    [|done].
  intros [= <-] p. rewrite elem_of_elements, elem_of_list_to_set.
  assert (Hfiles : Forall (λ p, fs_is_file fs p = Ok true) found)
    by apply (resolve_links_well_formed _ [] found Hwf (Forall_nil_2 _) Hres).
  apply (proj1 (Forall_forall _ _) Hfiles).
Qed.

(** On an index whose lists are not empty and hold files, the exceptions of
    [find_attachments] are those of the joins of its links. *)
Lemma find_attachments_joins text :
  index_well_formed fs index →
  (∀ e, find_attachments fs safe_load text note_dir vault_root index = Raise e →
        ∃ link, link ∈ body_links text ++ extract_frontmatter_links safe_load text ∧
                is_external link = false ∧ joins_raise fs note_dir vault_root link e) ∧
  ((∃ atts, find_attachments fs safe_load text note_dir vault_root index = Ok atts) ↔
   ∀ link e, link ∈ body_links text ++ extract_frontmatter_links safe_load text →
             is_external link = false → ¬ joins_raise fs note_dir vault_root link e).
Proof.
  intros Hwf. split.
  - intros e (link & Hl & Hext & Hr)%find_attachments_raises. exists link.
    split_and!; [done..|].
    by apply (proj1 (resolve_attachment_well_formed fs link note_dir vault_root index Hwf)).
  - rewrite find_attachments_returns. split.
    + intros Hall link e Hl Hext Hraise. destruct (Hall link Hl Hext) as (r & Hr).
      apply (proj1 (resolve_attachment_well_formed fs link note_dir vault_root index Hwf))
        in Hraise. congruence.
    + intros Hall link Hl Hext.
      destruct (resolve_attachment fs link note_dir vault_root index) as [r|e] eqn:Hr;
        [by eauto|].
      apply (proj1 (resolve_attachment_well_formed fs link note_dir vault_root index Hwf))
        in Hr. by destruct (Hall link e Hl Hext).
Qed.

Lemma resolve_links_external links acc :
  forallb is_external links = true →
  resolve_links fs links note_dir vault_root index acc = Ok acc.
Proof.
  induction links as [|link links IH]; [done|]. cbn [forallb resolve_links].
  intros [-> ?]%andb_prop. auto.
Qed.

(** X5.  External links are passed over before any lookup: a note all of
    whose links start with [http://], [https://], [//] or [mailto:] has no
    attachment, whatever the disk and the index hold. *)
Theorem find_attachments_external text :
  forallb is_external (body_links text ++ extract_frontmatter_links safe_load text) = true →
  find_attachments fs safe_load text note_dir vault_root index = Ok [].
Proof.
  intros H. unfold find_attachments, mbind, result_bind.
  rewrite (resolve_links_external _ _ H). by rewrite list_to_set_nil, elements_empty.
Qed.

End FindAttachments.

(** The note of [linked_text]: the picture is an attachment, the web page
    and the other note are not. *)
Lemma find_attachments_elem_example :
  NoDup [sub_pic] ∧
  ∀ p, p ∈ [sub_pic] ↔
       ∃ link, link ∈ body_links linked_text
                      ++ extract_frontmatter_links (λ _, None) linked_text ∧
               is_external link = false ∧
               resolve_attachment (disk_view linked_disk) link ["/"; "vault"; "a"]
                 ["/"; "vault"] pic_index = Ok (Some p) ∧
               Py.lower (path_suffix p) ≠ ".md".
Proof.
  apply (find_attachments_elem (disk_view linked_disk) (λ _, None) ["/"; "vault"; "a"]
           ["/"; "vault"] pic_index linked_text [sub_pic]).
  vm_compute. reflexivity.
Defined.

Lemma find_attachments_external_example :
  find_attachments (disk_view linked_disk) (λ _, None) web_text ["/"; "vault"; "a"]
    ["/"; "vault"] pic_index = Ok [].
Proof. apply find_attachments_external. reflexivity. Defined.

(** X6.  On an index that [build_vault_index] made, [find_attachments]
    raises only what a join raises for one of the links that are not
    external, it returns exactly when no such join raises, and every
    attachment it lists is a file of the disk. *)
Theorem find_attachments_on_built_index fs safe_load listing excluded index text
    note_dir vault_root :
  build_vault_index fs listing excluded = Ok index →
  (∀ e, find_attachments fs safe_load text note_dir vault_root index = Raise e →
        ∃ link, link ∈ body_links text ++ extract_frontmatter_links safe_load text ∧
                is_external link = false ∧ joins_raise fs note_dir vault_root link e) ∧
  ((∃ atts, find_attachments fs safe_load text note_dir vault_root index = Ok atts) ↔
   ∀ link e, link ∈ body_links text ++ extract_frontmatter_links safe_load text →
             is_external link = false → ¬ joins_raise fs note_dir vault_root link e) ∧
  (∀ atts p, find_attachments fs safe_load text note_dir vault_root index = Ok atts →
             p ∈ atts → fs_is_file fs p = Ok true).
Proof.
  intros Hwf%build_vault_index_well_formed.
  destruct (find_attachments_joins fs safe_load note_dir vault_root index text Hwf)
    as [Hraise Hreturn].
  split_and!; [done..|].
  intros atts p Hatts. by apply (find_attachments_well_formed _ _ _ _ _ _ _ Hwf Hatts).
Qed.

Lemma find_attachments_on_built_index_example :
  (∀ e, find_attachments (disk_view nul_disk) (λ _, None) nul_text ["/"; "vault"]
          ["/"; "vault"] embed_index = Raise e →
        ∃ link, link ∈ body_links nul_text
                       ++ extract_frontmatter_links (λ _, None) nul_text ∧
                is_external link = false ∧
                joins_raise (disk_view nul_disk) ["/"; "vault"] ["/"; "vault"] link e) ∧
  ((∃ atts, find_attachments (disk_view nul_disk) (λ _, None) nul_text ["/"; "vault"]
              ["/"; "vault"] embed_index = Ok atts) ↔
   ∀ link e, link ∈ body_links nul_text
                    ++ extract_frontmatter_links (λ _, None) nul_text →
             is_external link = false →
             ¬ joins_raise (disk_view nul_disk) ["/"; "vault"] ["/"; "vault"] link e) ∧
  (∀ atts p, find_attachments (disk_view nul_disk) (λ _, None) nul_text ["/"; "vault"]
               ["/"; "vault"] embed_index = Ok atts →
             p ∈ atts → fs_is_file (disk_view nul_disk) p = Ok true).
Proof.
  apply (find_attachments_on_built_index (disk_view nul_disk) (λ _, None) embed_listing ∅).
  vm_compute. reflexivity.
Defined.

(** The note with the NUL byte in its link: [find_attachments] raises. *)
Lemma find_attachments_nul :
  find_attachments (disk_view nul_disk) (λ _, None) nul_text ["/"; "vault"]
    ["/"; "vault"] embed_index = Raise ValueError.
Proof. vm_compute. reflexivity. Qed.

(** ** The front matter *)

(** X7.  Front matter that does not parse to a mapping is as good as none:
    it gives no tag and no link, and the candidate tags are the inline
    ones. *)
Theorem frontmatter_fallback safe_load text :
  (∀ block items, match_start FRONTMATTER_RE text = Some block →
                  safe_load block ≠ Some (YMap items)) →
  frontmatter_tags safe_load text = ∅ ∧
  extract_frontmatter_links safe_load text = [] ∧
  note_tags safe_load text = list_to_set (findall TAG_RE text).
Proof.
  intros Hbad.
  assert (Ht : frontmatter_tags safe_load text = ∅).
  { unfold frontmatter_tags. destruct (match_start FRONTMATTER_RE text) as [block|] eqn:E; [|done].
    destruct (safe_load block) as [[| | | | |items]|] eqn:El; try done.
    by destruct (Hbad block items eq_refl). }
  split_and!; [done| |].
  - unfold extract_frontmatter_links.
    destruct (match_start FRONTMATTER_RE text) as [block|] eqn:E; [|done].
    destruct (safe_load block) as [[| | | | |items]|] eqn:El; try done.
    by destruct (Hbad block items eq_refl).
  - unfold note_tags. by rewrite Ht, union_empty_r_L.
Qed.

Lemma frontmatter_fallback_example :
  frontmatter_tags (λ _, None) archive_text = ∅ ∧
  extract_frontmatter_links (λ _, None) archive_text = [] ∧
  note_tags (λ _, None) archive_text = list_to_set (findall TAG_RE archive_text).
Proof. apply frontmatter_fallback. intros block items _. discriminate. Defined.

Lemma strip_chars_idem cs s :
  Py.strip_chars cs (Py.strip_chars cs s) = Py.strip_chars cs s.
Proof.
  destruct (strip_chars_spec cs s) as (_ & _ & _ & _ & _ & Hl & Hr).
  unfold Py.strip_chars at 1. by rewrite Hl, Hr.
Qed.

Lemma collect_links_items items : ∀ links,
  collect_links items links = links ++ links_of_items items.
Proof.
  unfold links_of_items.
  induction items as [|[k value] items IH]; intros links; [by rewrite app_nil_r|].
  destruct k; try (by rewrite app_nil_r). cbn [collect_links string_keyed flat_map fst snd].
  fold (link_key s). destruct (link_key s); [|apply IH].
  destruct value; cbn [link_values]; rewrite ?IH, <- ?app_assoc; done.
Qed.

Lemma link_values_stripped value l :
  l ∈ link_values value → Py.strip_chars ["["; "]"; "!"]%char l = l.
Proof.
  destruct value; cbn [link_values]; try (by intros ?%elem_of_nil).
  - intros ->%list_elem_of_singleton. apply strip_chars_idem.
  - intros (v & _ & ->)%elem_of_str_items. apply strip_chars_idem.
Qed.

(** X8.  The links of the front matter are the values, strings or lists
    of strings, of the keys that hold one of the words image, cover,
    banner, file, attachment or thumbnail in any case, in the order of the
    mapping and up to its first key that is not a string; none of them
    starts or ends with a bracket or an exclamation mark. *)
Theorem extract_frontmatter_links_items safe_load text block items :
  match_start FRONTMATTER_RE text = Some block →
  safe_load block = Some (YMap items) →
  extract_frontmatter_links safe_load text = links_of_items items ∧
  ∀ l, l ∈ extract_frontmatter_links safe_load text →
       Py.strip_chars ["["; "]"; "!"]%char l = l.
Proof.
  intros Hmatch Hload.
  assert (H : extract_frontmatter_links safe_load text = links_of_items items).
  { unfold extract_frontmatter_links. by rewrite Hmatch, Hload, collect_links_items. }
  split; [done|]. rewrite H. unfold links_of_items. intros l Hl.
  apply list_elem_of_In, in_flat_map in Hl as ([key value] & _ & Hl). simpl in Hl.
  destruct (link_key key); [|done]. by eapply link_values_stripped, list_elem_of_In.
Qed.

(** [Cover: '![[pic.png]]'] gives the link [pic.png]. *)
Lemma extract_frontmatter_links_example :
  extract_frontmatter_links cover_yaml cover_text = ["pic.png"].
Proof.
  rewrite (proj1 (extract_frontmatter_links_items cover_yaml cover_text
                    "Cover: '![[pic.png]]'" [(YStr "Cover", YStr "![[pic.png]]")]
                    eq_refl eq_refl)).
  reflexivity.
Defined.

(** ** [process_note] *)

(** X9.  On an index that [build_vault_index] made, a note that can be
    read and measured is skipped in two cases only: none of its candidate
    tags is a target tag, or a join raises for one of its links that are
    not external.  In the second case the note is dropped whatever its
    tags. *)
Theorem process_note_on_built_index fs safe_load listing excluded index note_path
    target_tags vault_root text sz :
  fs_read_text fs note_path = Some text →
  fs_stat_size fs note_path = Some sz →
  build_vault_index fs listing excluded = Ok index →
  process_note fs safe_load note_path target_tags vault_root index = None
  ↔ target_tags ∩ note_tags safe_load text = ∅ ∨
    ∃ link e, link ∈ body_links text ++ extract_frontmatter_links safe_load text ∧
              is_external link = false ∧
              joins_raise fs (path_parent note_path) vault_root link e.
Proof.
  intros Hread Hstat Hwf%build_vault_index_well_formed.
  destruct (find_attachments_joins fs safe_load (path_parent note_path) vault_root index
              text Hwf) as [Hraise Hreturn].
  unfold process_note. rewrite Hread, Hstat.
  destruct (elements (target_tags ∩ note_tags safe_load text)) as [|t ts] eqn:E.
  { split; [|done]. intros _. left. by apply elements_empty_inv, leibniz_equiv in E. }
  assert (Htags : target_tags ∩ note_tags safe_load text ≠ ∅).
  { intros Hempty. by rewrite Hempty, elements_empty in E. }
  destruct (find_attachments fs safe_load text (path_parent note_path) vault_root index)
    as [atts|e] eqn:Hfind.
  - split; [done|]. intros [?|(link & e & Hl & Hext & Hjoin)]; [done|].
    assert (Hok : ∃ atts', Ok atts = Ok atts') by eauto.
    by destruct (proj1 Hreturn Hok link e Hl Hext).
  - split; [|done]. intros _. right.
    destruct (Hraise e eq_refl) as (link & ? & ? & ?). by exists link, e.
Qed.

Lemma process_note_on_built_index_example :
  process_note (disk_view nul_disk) (λ _, None) ready_note {[ "ready" ]} ["/"; "vault"]
    embed_index = None
  ↔ ({[ "ready" ]} : gset string) ∩ note_tags (λ _, None) nul_text = ∅ ∨
    ∃ link e, link ∈ body_links nul_text
                     ++ extract_frontmatter_links (λ _, None) nul_text ∧
              is_external link = false ∧
              joins_raise (disk_view nul_disk) (path_parent ready_note) ["/"; "vault"]
                link e.
Proof.
  assert (Hread : fs_read_text (disk_view nul_disk) ready_note = Some nul_text)
    by (vm_compute; reflexivity).
  assert (Hstat : fs_stat_size (disk_view nul_disk) ready_note = Some 16)
    by (vm_compute; reflexivity).
  assert (Hbuilt : build_vault_index (disk_view nul_disk) embed_listing ∅ = Ok embed_index)
    by (vm_compute; reflexivity).
  apply (process_note_on_built_index _ _ _ _ _ _ _ _ _ _ Hread Hstat Hbuilt).
Defined.

(** The tagged note with the NUL byte in its link is dropped, and the same
    note without the link is kept. *)
Lemma process_note_nul_dropped :
  process_note (disk_view nul_disk) (λ _, None) ready_note {[ "ready" ]} ["/"; "vault"]
    embed_index = None ∧
  process_note (disk_view embed_disk) (λ _, None) ready_note {[ "ready" ]} ["/"; "vault"]
    embed_index = Some (NoteMetadata.Build ready_note ["ready"] [sub_pic] 19).
Proof. split; vm_compute; reflexivity. Qed.

(** X10.  A record that [process_note] returns carries the path it was
    asked for and the size the disk reports, its matched tags are target
    tags, and its attachments are listed once each and never have the
    suffix [.md]. *)
Theorem process_note_record fs safe_load note_path target_tags vault_root index note :
  process_note fs safe_load note_path target_tags vault_root index = Some note →
  NoteMetadata.path note = note_path ∧
  fs_stat_size fs note_path = Some (NoteMetadata.size note) ∧
  (∀ t, t ∈ NoteMetadata.matched_tags note → t ∈ target_tags) ∧
  NoDup (NoteMetadata.attachments note) ∧
  ∀ a, a ∈ NoteMetadata.attachments note → Py.lower (path_suffix a) ≠ ".md".
Proof.
  unfold process_note. destruct (fs_read_text fs note_path) as [text|]; [|done].
  destruct (elements (target_tags ∩ note_tags safe_load text)) as [|t ts] eqn:E; [done|].
  destruct (find_attachments _ _ _ _ _ _) as [atts|] eqn:Hatts; [|done].
  destruct (fs_stat_size fs note_path) as [sz|]; [|done].
  intros [= <-]. simpl.
  destruct (find_attachments_members _ _ _ _ _ _ _ Hatts) as [Hnd Hmem].
  split_and!; [done..| | |].
  - intros t'. rewrite <- E, elem_of_elements, elem_of_intersection. by intros [? _].
  - done.
  - intros a (link & _ & _ & _ & Hmd)%Hmem. done.
Qed.

Lemma process_note_record_example :
  process_note (disk_view embed_disk) (λ _, None) ready_note {[ "ready" ]} ["/"; "vault"]
    embed_index
  = Some (NoteMetadata.Build ready_note ["ready"] [sub_pic] 19) ∧
  NoDup [sub_pic] ∧ Py.lower (path_suffix sub_pic) ≠ ".md".
Proof.
  assert (H : process_note (disk_view embed_disk) (λ _, None) ready_note {[ "ready" ]}
                ["/"; "vault"] embed_index
              = Some (NoteMetadata.Build ready_note ["ready"] [sub_pic] 19))
    by (vm_compute; reflexivity).
  destruct (process_note_record _ _ _ _ _ _ _ H) as (_ & _ & _ & Hnd & Hmd).
  split_and!; [done..|]. apply Hmd. left.
Defined.

(** ** The move loop *)

Section MoveLoop.
Context (dest_dir : Path).

Lemma move_one_counts i note st :
  moved_notes (move_one dest_dir i note st) + errors (move_one dest_dir i note st)
  = S (moved_notes st + errors st).
Proof.
  destruct (move_attachments_no_error dest_dir (NoteMetadata.attachments note) st)
    as (st1 & H1 & He & Hn).
  unfold move_one, try_body, mbind, step_bind. rewrite H1.
  destruct (disk st1 !! NoteMetadata.path note) as [content|] eqn:Hnote.
  - rewrite (move_note_result _ _ _ _ _ Hnote). simpl. lia.
  - rewrite (move_note_missing _ _ _ _ Hnote). simpl. lia.
Qed.

Lemma move_attachment_moved_atts att st :
  moved_atts st ≤ moved_atts (move_attachment dest_dir att st).1
  ∧ moved_atts (move_attachment dest_dir att st).1 ≤ S (moved_atts st).
Proof.
  destruct (disk st !! att) as [content|] eqn:Hatt.
  - destruct (disk st !! join_path dest_dir (path_name att)) as [old|] eqn:Hdest.
    + rewrite move_attachment_taken by eauto. simpl. lia.
    + rewrite (move_attachment_moves _ _ _ _ Hatt Hdest). simpl. lia.
  - rewrite move_attachment_missing by done. simpl. lia.
Qed.

Lemma move_attachments_moved_atts atts : ∀ st,
  moved_atts (move_attachments dest_dir atts st).1 ≤ moved_atts st + length atts.
Proof.
  induction atts as [|att atts IH]; intros st; simpl; [lia|].
  destruct (move_attachment_no_error dest_dir att st) as (st1 & H1 & _).
  pose proof (move_attachment_moved_atts att st) as Hle. rewrite H1 in Hle. simpl in Hle.
  unfold mbind, step_bind. rewrite H1. specialize (IH st1). lia.
Qed.

Lemma move_one_moved_atts i note st :
  moved_atts (move_one dest_dir i note st)
  ≤ moved_atts st + length (NoteMetadata.attachments note).
Proof.
  pose proof (move_attachments_moved_atts (NoteMetadata.attachments note) st) as Hle.
  destruct (move_attachments_no_error dest_dir (NoteMetadata.attachments note) st)
    as (st1 & H1 & _).
  rewrite H1 in Hle. simpl in Hle.
  unfold move_one, try_body, mbind, step_bind. rewrite H1.
  destruct (disk st1 !! NoteMetadata.path note) as [content|] eqn:Hnote.
  - by rewrite (move_note_result _ _ _ _ _ Hnote).
  - by rewrite (move_note_missing _ _ _ _ Hnote).
Qed.

(** X11.  Every note of the queue is counted once, as moved or as an
    error, and no more attachments are counted than the notes list: after
    the phase the moved notes and the errors add up to the length of the
    queue. *)
Theorem move_phase_counts notes files :
  moved_notes (move_phase dest_dir notes files) + errors (move_phase dest_dir notes files)
  = length notes ∧
  moved_atts (move_phase dest_dir notes files)
  ≤ length (concat (NoteMetadata.attachments <$> notes)).
Proof.
  unfold move_phase.
  assert (H : ∀ i st,
            moved_notes (move_from dest_dir i notes st) + errors (move_from dest_dir i notes st)
            = moved_notes st + errors st + length notes ∧
            moved_atts (move_from dest_dir i notes st)
            ≤ moved_atts st + length (concat (NoteMetadata.attachments <$> notes))).
  { induction notes as [|note notes IH]; intros i st; [simpl; lia|].
    cbn [move_from length]. rewrite fmap_cons, concat_cons, length_app.
    destruct (IH (S i) (move_one dest_dir i note st)) as [Hc Ha].
    pose proof (move_one_counts i note st). pose proof (move_one_moved_atts i note st).
    lia. }
  destruct (H 1 (RunState files 0 0 0)) as [Hc Ha]. simpl in *. lia.
Qed.

Lemma move_attachment_frame att st p :
  p ≠ att → p ≠ join_path dest_dir (path_name att) →
  disk (move_attachment dest_dir att st).1 !! p = disk st !! p.
Proof.
  intros Hatt Hdest.
  destruct (disk st !! att) as [content|] eqn:Ha.
  - destruct (disk st !! join_path dest_dir (path_name att)) as [old|] eqn:Hd.
    + by rewrite move_attachment_taken by eauto.
    + rewrite (move_attachment_moves _ _ _ _ Ha Hd). simpl.
      by rewrite lookup_insert_ne, lookup_delete_ne.
  - by rewrite move_attachment_missing.
Qed.

Lemma move_attachments_frame atts p : ∀ st,
  p ∉ atts → p ∉ (λ att, join_path dest_dir (path_name att)) <$> atts →
  disk (move_attachments dest_dir atts st).1 !! p = disk st !! p.
Proof.
  induction atts as [|att atts IH]; intros st Hsrc Hdst; [done|].
  apply not_elem_of_cons in Hsrc as [Hs1 Hs2]. rewrite fmap_cons in Hdst.
  apply not_elem_of_cons in Hdst as [Hd1 Hd2].
  destruct (move_attachment_no_error dest_dir att st) as (st1 & H1 & _).
  pose proof (move_attachment_frame att st p Hs1 Hd1) as Hf. rewrite H1 in Hf. simpl in Hf.
  cbn [move_attachments]. unfold mbind, step_bind. rewrite H1, IH by done. done.
Qed.

Lemma move_one_frame i note st p :
  p ∉ turn_paths dest_dir i note →
  disk (move_one dest_dir i note st) !! p = disk st !! p.
Proof.
  unfold turn_paths. intros Hp.
  apply not_elem_of_cons in Hp as [Hnote Hp]. apply not_elem_of_cons in Hp as [Hname Hp].
  apply not_elem_of_cons in Hp as [Hidx Hp]. apply not_elem_of_app in Hp as [Hsrc Hdst].
  pose proof (move_attachments_frame _ p st Hsrc Hdst) as Hf.
  destruct (move_attachments_no_error dest_dir (NoteMetadata.attachments note) st)
    as (st1 & H1 & _).
  rewrite H1 in Hf. simpl in Hf.
  unfold move_one, try_body, mbind, step_bind. rewrite H1.
  destruct (disk st1 !! NoteMetadata.path note) as [content|] eqn:Hn.
  - rewrite (move_note_result _ _ _ _ _ Hn). simpl.
    rewrite lookup_insert_ne, lookup_delete_ne; [done|done|]. by destruct (bool_decide _).
  - by rewrite (move_note_missing _ _ _ _ Hn).
Qed.

(** X12.  The move phase leaves alone every file that is neither a note
    of the queue, nor one of their attachments, nor a name one of them can
    take in the destination. *)
Theorem move_phase_frame notes files p :
  p ∉ queue_paths dest_dir 1 notes →
  disk (move_phase dest_dir notes files) !! p = files !! p.
Proof.
  unfold move_phase.
  assert (H : ∀ i st, p ∉ queue_paths dest_dir i notes →
                disk (move_from dest_dir i notes st) !! p = disk st !! p).
  { induction notes as [|note notes IH]; intros i st Hp; [done|].
    cbn [queue_paths move_from] in *. apply not_elem_of_app in Hp as [Hturn Hrest].
    by rewrite IH, move_one_frame. }
  intros Hp. by rewrite H.
Qed.

Lemma move_attachment_conserves att st :
  size (disk (move_attachment dest_dir att st).1) = size (disk st) ∧
  ∀ p c, disk st !! p = Some c → ∃ p', disk (move_attachment dest_dir att st).1 !! p' = Some c.
Proof.
  destruct (disk st !! att) as [content|] eqn:Ha.
  - destruct (disk st !! join_path dest_dir (path_name att)) as [old|] eqn:Hd.
    + rewrite move_attachment_taken by eauto. eauto.
    + rewrite (move_attachment_moves _ _ _ _ Ha Hd). simpl.
      assert (Hne : att ≠ join_path dest_dir (path_name att)) by congruence.
      split.
      * rewrite map_size_insert_None by (by rewrite lookup_delete_ne).
        rewrite map_size_delete_Some by eauto.
        pose proof (map_size_ne_0_lookup_2 (disk st) att (mk_is_Some _ _ Ha)). lia.
      * intros p c Hp. destruct (decide (p = att)) as [->|Hpa].
        -- exists (join_path dest_dir (path_name att)). rewrite lookup_insert_eq. congruence.
        -- exists p. rewrite lookup_insert_ne by congruence. by rewrite lookup_delete_ne.
  - rewrite move_attachment_missing by done. eauto.
Qed.

(** X13.  Moving the attachments of a note never replaces or loses a file:
    the disk holds as many files after as before, and every content that
    was on it is still on it. *)
Theorem move_attachments_conserve atts st :
  size (disk (move_attachments dest_dir atts st).1) = size (disk st) ∧
  ∀ p c, disk st !! p = Some c →
         ∃ p', disk (move_attachments dest_dir atts st).1 !! p' = Some c.
Proof.
  revert st. induction atts as [|att atts IH]; intros st; [by eauto|].
  destruct (move_attachment_no_error dest_dir att st) as (st1 & H1 & _).
  destruct (move_attachment_conserves att st) as [Hsize Hkeep]. rewrite H1 in Hsize, Hkeep.
  simpl in Hsize, Hkeep. destruct (IH st1) as [Hsize' Hkeep'].
  cbn [move_attachments]. unfold mbind, step_bind. rewrite H1. split; [congruence|].
  intros p c Hp. destruct (Hkeep p c Hp) as (p1 & Hp1). eauto.
Qed.


End MoveLoop.

Lemma move_phase_frame_example :
  disk (move_phase inbox [note_one; note_two] kept_disk) !! keep_txt = Some "keep".
Proof.
  rewrite (move_phase_frame inbox [note_one; note_two] kept_disk keep_txt).
  - reflexivity.
  - apply (bool_decide_unpack _). vm_compute. exact I.
Defined.


(** ** Plain links *)

(** X15.  A link without [%], [#] or [?] and without white space at its
    ends comes out of the cleaning as it went in, the blanks inside it
    included. *)
Theorem clean_link_plain link :
  Py.all_chr (none_of ["%"; "#"; "?"]%char) link = true →
  Py.strip link = link →
  clean_link link = link.
Proof.
  intros Hall Hstrip. unfold clean_link, Py.split_head.
  rewrite unquote_plain, Hstrip.
  - rewrite (take_while_all _ link), (take_while_all _ link); [done|..].
    + eapply all_chr_impl; [|done]. intros c. unfold none_of. simpl.
      destruct (Ascii.eqb c "%"), (Ascii.eqb c "#"), (Ascii.eqb c "?"); done.
    + eapply all_chr_impl; [|done]. intros c. unfold none_of. simpl.
      destruct (Ascii.eqb c "%"), (Ascii.eqb c "#"), (Ascii.eqb c "?"); done.
  - eapply all_chr_impl; [|done]. intros c. unfold none_of. simpl.
    destruct (Ascii.eqb c "%"), (Ascii.eqb c "#"), (Ascii.eqb c "?"); done.
Qed.

Lemma clean_link_plain_example : clean_link "my pictures/a b.png" = "my pictures/a b.png".
Proof. apply clean_link_plain; reflexivity. Defined.

(** ** The name a note takes on a collision *)

Lemma substring_app_suffix s t :
  substring (String.length s) (String.length t) (s +:+ t) = t.
Proof.
  induction s as [|c s IH]; simpl.
  - rewrite ?str_app_nil_l. induction t as [|c t IH]; [done|]. simpl. by f_equal.
  - rewrite ?str_app_cons. simpl. apply IH.
Qed.

Lemma rfind_app c a b :
  Py.rfind c b = None → Py.rfind c (a +:+ String c b) = Some (String.length a).
Proof.
  intros Hb. induction a as [|x a IH]; simpl.
  - rewrite ?str_app_nil_l. simpl. by rewrite Hb, Ascii.eqb_refl.
  - rewrite ?str_app_cons. simpl. by rewrite IH.
Qed.

Lemma rfind_Some c s i :
  Py.rfind c s = Some i →
  ∃ a b, s = a +:+ String c b ∧ String.length a = i ∧ Py.rfind c b = None.
Proof.
  revert i. induction s as [|x s IH]; intros i; [done|]. simpl.
  destruct (Py.rfind c s) as [j|] eqn:E.
  - intros [= <-]. destruct (IH j eq_refl) as (a & b & -> & <- & Hb).
    exists (String x a), b. by rewrite ?str_app_cons.
  - destruct (Ascii.eqb_spec x c) as [->|]; [|done]. intros [= <-].
    by exists "", s.
Qed.

(** A name with a suffix is a stem that is not empty, a dot, and an
    extension that is not empty and has no dot. *)
Lemma split_ext_suffix name :
  snd (split_ext name) ≠ "" →
  ∃ a b, name = a +:+ String "." b ∧ a ≠ "" ∧ b ≠ "" ∧ Py.rfind "." b = None ∧
         split_ext name = (a, String "." b).
Proof.
  unfold split_ext. destruct (Py.rfind "." name) as [i|] eqn:E; [|done].
  destruct ((0 <? i) && (i <? String.length name - 1)) eqn:Hi; [|done]. intros _.
  apply andb_prop in Hi as [H0%Nat.ltb_lt H1%Nat.ltb_lt].
  destruct (rfind_Some _ _ _ E) as (a & b & -> & <- & Hb).
  rewrite str_app_length in *. simpl in *.
  exists a, b. split_and!; [done| | |done|].
  - destruct a; [simpl in H0; lia|done].
  - destruct b; [simpl in H1; lia|done].
  - f_equal.
    + apply substring_app_prefix.
    + replace (String.length a + S (String.length b) - String.length a)
        with (String.length (String "." b)) by (simpl; lia).
      apply substring_app_suffix.
Qed.

Lemma split_ext_dot a b :
  a ≠ "" → b ≠ "" → Py.rfind "." b = None →
  split_ext (a +:+ String "." b) = (a, String "." b).
Proof.
  intros Ha Hb Hr. unfold split_ext. rewrite (rfind_app _ _ _ Hr), str_app_length. simpl.
  apply nonempty_length in Ha, Hb.
  destruct (Nat.ltb_spec 0 (String.length a)); [|lia].
  destruct (Nat.ltb_spec (String.length a) (String.length a + S (String.length b) - 1));
    [|lia].
  simpl. f_equal.
  - apply substring_app_prefix.
  - replace (String.length a + S (String.length b) - String.length a)
      with (String.length (String "." b)) by (simpl; lia).
    apply substring_app_suffix.
Qed.

(** X16.  The name a note takes on a collision keeps the suffix of the
    note: the number goes into the stem, so a renamed [.md] note is still
    an [.md] file. *)
Theorem indexed_name_keeps_suffix i p :
  path_suffix p ≠ "" →
  split_ext (indexed_name i p) = (path_stem p +:+ "_" +:+ pretty i, path_suffix p).
Proof.
  unfold indexed_name, path_suffix, path_stem. intros Hsuf.
  destruct (split_ext_suffix _ Hsuf) as (a & b & Hname & Ha & Hb & Hr & ->). simpl.
  rewrite <- !str_app_assoc. apply split_ext_dot; [|done..].
  destruct a; [done|]. by rewrite !str_app_cons.
Qed.

Lemma indexed_name_keeps_suffix_example :
  split_ext (indexed_name 3 ["/"; "vault"; "note.md"]) = ("note_3", ".md").
Proof.
  rewrite (indexed_name_keeps_suffix 3 ["/"; "vault"; "note.md"]).
  - reflexivity.
  - discriminate.
Defined.

(** ** Finding a file by its name *)

(** X17.  When the vault holds a file, outside the excluded directories,
    whose name is the file name of the link in some case, and neither join
    raises for the link, the resolution on the built index does not come
    back empty: it returns a file. *)
Theorem resolve_attachment_finds_named fs listing excluded index link note_dir
    vault_root p :
  build_vault_index fs listing excluded = Ok index →
  clean_link link ≠ "" →
  (∀ e, ¬ joins_raise fs note_dir vault_root link e) →
  p ∈ listing →
  indexed_under fs excluded (index_key (clean_link link)) p = true →
  ∃ q, resolve_attachment fs link note_dir vault_root index = Ok (Some q) ∧
       fs_is_file fs q = Ok true.
Proof.
  intros Hbuilt Hne Hquiet Hp Hunder.
  pose proof (build_vault_index_well_formed _ _ _ _ Hbuilt) as Hwf.
  destruct (resolve_attachment_well_formed fs link note_dir vault_root index Hwf)
    as [Hraise Hfile].
  destruct (resolve_attachment fs link note_dir vault_root index) as [[q|]|e] eqn:Hr.
  - exists q. split; [done|]. by apply Hfile.
  - exfalso. rewrite (resolve_attachment_joins _ _ _ _ _ Hne) in Hr.
    destruct (join_strategy fs note_dir (clean_link link)) as [[q|]|e]; [done| |done].
    destruct (join_strategy fs vault_root (clean_link link)) as [[q|]|e]; [done| |done].
    unfold build_vault_index in Hbuilt.
    rewrite (index_all_lookup _ _ (index_key (clean_link link)) _ _ _ Hbuilt),
      lookup_empty in Hr.
    assert (Hin : p ∈ List.filter (indexed_under fs excluded (index_key (clean_link link)))
                        listing).
    { apply list_elem_of_In, filter_In. split; [by apply list_elem_of_In|done]. }
    destruct (List.filter _ listing) as [|c rest]; [by apply elem_of_nil in Hin|done].
  - destruct (Hquiet e). by apply Hraise.
Qed.

Lemma resolve_attachment_finds_named_example :
  ∃ q, resolve_attachment (disk_view pic_disk) "PIC.PNG" ["/"; "vault"; "a"] ["/"; "vault"]
         pic_index = Ok (Some q) ∧
       fs_is_file (disk_view pic_disk) q = Ok true.
Proof.
  apply (resolve_attachment_finds_named (disk_view pic_disk) [sub_pic] ∅ pic_index
           "PIC.PNG" ["/"; "vault"; "a"] ["/"; "vault"] sub_pic).
  - vm_compute. reflexivity.
  - discriminate.
  - intros e (_ & [H|[_ H]]); vm_compute in H; discriminate H.
  - left.
  - vm_compute. reflexivity.
Defined.

(** ** The fences of the front matter *)

Lemma frontmatter_re_fences :
  FRONTMATTER_RE
  = Seq Bol (Seq (Lit "-") (Seq (Lit "-") (Seq (Lit "-")
      (Seq (Rep Py.isspace 0 true) fence_body)))).
Proof. reflexivity. Qed.

(** What a greedy repetition returns, the rest of the pattern returned. *)
Lemma rep_greedy_result {R} p min pos s g (k : mstate → option R) r :
  rep_greedy p min pos s g k = Some r → ∃ pos' s', k (MState pos' s' g) = Some r.
Proof.
  revert min pos. induction s as [|c s IH]; intros min pos; simpl.
  - destruct min; [eauto|done].
  - destruct (p c).
    + destruct (rep_greedy p (Nat.pred min) (S pos) s g k) as [r'|] eqn:E; simpl.
      * intros [= <-]. by eapply IH.
      * destruct min; [eauto|done].
    + destruct min; [eauto|done].
Qed.

(** It succeeds when the rest of the pattern succeeds right away, and with
    the same group when the rest of the pattern does not set it. *)
Lemma rep_greedy_some p pos s g (k : mstate → option (nat * string)) x :
  (∀ pos' s' e y, k (MState pos' s' g) = Some (e, y) → y = x) →
  k (MState pos s g) ≠ None →
  ∃ e, rep_greedy p 0 pos s g k = Some (e, x).
Proof.
  intros Hx. revert pos. induction s as [|c s IH]; intros pos Hk; simpl.
  - destruct (k (MState pos "" g)) as [[e y]|] eqn:E; [|done].
    exists e. by rewrite (Hx _ _ _ _ E).
  - assert (Hstop : ∃ e, k (MState pos (String c s) g) = Some (e, x)).
    { destruct (k (MState pos (String c s) g)) as [[e y]|] eqn:E; [|done].
      exists e. by rewrite (Hx _ _ _ _ E). }
    destruct Hstop as (e0 & Hstop). destruct (p c); [|by eauto].
    destruct (rep_greedy p 0 (S pos) s g k) as [[e y]|] eqn:E; simpl; [|by eauto].
    destruct (rep_greedy_result _ _ _ _ _ _ _ E) as (pos' & s' & Hst).
    exists e. by rewrite (Hx _ _ _ _ Hst).
Qed.

Lemma fence_close_fails s pos g :
  Py.startswith fence s = false → run fence_close (MState pos s g) report = None.
Proof.
  destruct s as [|c1 [|c2 [|c3 [|c4 s]]]]; simpl;
    repeat match goal with
           | |- context [Ascii.eqb ?a ?b] => destruct (Ascii.eqb_spec a b); subst; simpl
           end; try done.
Qed.

Lemma fence_close_match tail pos g :
  ∃ e, run fence_close (MState pos (fence +:+ nl +:+ tail) g) report
       = Some (e, default "" g).
Proof.
  change (run fence_close (MState pos (fence +:+ nl +:+ tail) g) report)
    with (rep_greedy Py.isspace 0 (S (S (S (S pos)))) (String "010" tail) g
            (λ st, run (Lit "010") st report)).
  apply rep_greedy_some.
  - intros n [|c t] e y; simpl; [done|]. destruct (Ascii.eqb c "010"); [|done].
    by intros [= _ <-].
  - done.
Qed.

(** A fence cannot begin inside a block that holds none, nor across its
    end. *)
Lemma no_fence_cons c block tail :
  Py.contains fence (String c block) = false →
  Py.startswith fence (String c block +:+ fence +:+ tail) = false ∧
  Py.contains fence block = false.
Proof.
  cbn [Py.contains]. intros [Hstart Hrest]%orb_false_elim. split; [|done].
  destruct block as [|c2 [|c3 [|c4 block]]]; simpl in *;
    repeat match goal with
           | |- context [Ascii.eqb ?a ?b] => destruct (Ascii.eqb_spec a b); subst; simpl in *
           end; try done.
Qed.

(** The lazy group stops at the first fence, which is the closing one. *)
Lemma lazy_block_match block tail whole pos0 : ∀ pos,
  Py.contains fence block = false →
  ∃ e, rep_lazy (λ _, true) 0 pos (block +:+ fence +:+ nl +:+ tail) None
         (λ st', run fence_close
                   (MState (m_pos st') (m_rest st')
                      (Some (substring 0 (m_pos st' - pos0) whole))) report)
       = Some (e, substring 0 (pos + String.length block - pos0) whole).
Proof.
  induction block as [|c block IH]; intros pos Hno.
  - rewrite str_app_nil_l. simpl String.length. rewrite Nat.add_0_r.
    destruct (fence_close_match tail pos (Some (substring 0 (pos - pos0) whole)))
      as (e & He).
    exists e. revert He.
    change (fence +:+ nl +:+ tail)
      with (String "010" (String "-" (String "-" (String "-" (String "010" tail))))).
    intros He. cbn [rep_lazy m_pos m_rest]. by rewrite He.
  - destruct (no_fence_cons c block (nl +:+ tail) Hno) as [Hstart Hrest].
    destruct (IH (S pos) Hrest) as (e & He). exists e.
    rewrite str_app_cons in *. cbn [rep_lazy m_pos m_rest Nat.pred].
    rewrite (fence_close_fails _ _ _ Hstart). cbn [or_else].
    rewrite He. do 3 f_equal. simpl. lia.
Qed.

(** X18.  The block between the fences is what is handed to the YAML
    parser: for a text that opens with [---], a block whose first
    character is not white space and in which no line begins with [---],
    and the closing [---] line, the pattern of the front matter matches
    and its group is the block. *)
Theorem frontmatter_block block tail :
  block ≠ "" → stops Py.isspace block →
  Py.contains fence block = false →
  match_start FRONTMATTER_RE ("---" +:+ nl +:+ block +:+ fence +:+ nl +:+ tail) = Some block.
Proof.
  intros Hne Hhead Hno. unfold match_start, match_at. rewrite frontmatter_re_fences.
  destruct (lazy_block_match block tail (block +:+ fence +:+ nl +:+ tail) 4 4 Hno)
    as (e & He).
  change (run _ _ report)
    with (rep_greedy Py.isspace 0 3 (String "010" (block +:+ fence +:+ nl +:+ tail)) None
            (λ st, run fence_body st report)).
  rewrite (rep_greedy_give_back Py.isspace "" "010" (block +:+ fence +:+ nl +:+ tail)
             0 3 None _ (e, block)); [done|done|done| |done| |].
  - destruct block as [|c block]; [done|]. by rewrite str_app_cons.
  - destruct block as [|c block]; [done|]. rewrite str_app_cons. simpl in *.
    destruct (Ascii.eqb_spec c "010") as [->|]; [done|done].
  - change (run fence_body _ report)
      with (rep_lazy (λ _, true) 0 4 (block +:+ fence +:+ nl +:+ tail) None
              (λ st', run fence_close
                        (MState (m_pos st') (m_rest st')
                           (Some (substring 0 (m_pos st' - 4)
                                    (block +:+ fence +:+ nl +:+ tail)))) report)).
    rewrite He. do 2 f_equal.
    replace (4 + String.length block - 4) with (String.length block) by lia.
    apply substring_app_prefix.
Qed.

Lemma frontmatter_block_example :
  match_start FRONTMATTER_RE archive_text = Some "tags: [ready, archive]".
Proof.
  apply (frontmatter_block "tags: [ready, archive]" ("no tag here" +:+ nl)); try done.
Defined.

(** ** The scan of the vault *)

Section Lex.
Context {A : Type} (eqb lt : A → A → bool).
Hypothesis eqb_spec : ∀ a b, eqb a b = true ↔ a = b.
Hypothesis lt_irrefl : ∀ a, lt a a = false.
Hypothesis lt_trans : ∀ a b c, lt a b = true → lt b c = true → lt a c = true.
Hypothesis lt_total : ∀ a b, lt a b = false → lt b a = false → a = b.

Lemma eqb_refl_true a : eqb a a = true.
Proof. by apply eqb_spec. Qed.

Lemma lex_lt_irrefl l : lex_lt eqb lt l l = false.
Proof. induction l as [|a l IH]; [done|]. simpl. by rewrite eqb_refl_true. Qed.

Lemma lex_lt_trans l : ∀ k m,
  lex_lt eqb lt l k = true → lex_lt eqb lt k m = true → lex_lt eqb lt l m = true.
Proof.
  induction l as [|a l IH]; intros [|b k] [|c m]; simpl; try done.
  destruct (eqb a b) eqn:Eab.
  - apply eqb_spec in Eab as ->. destruct (eqb b c); [apply IH|done].
  - destruct (eqb b c) eqn:Ebc.
    + apply eqb_spec in Ebc as ->. rewrite Eab. done.
    + intros Hab Hbc. destruct (eqb a c) eqn:Eac.
      * apply eqb_spec in Eac as ->.
        pose proof (lt_trans _ _ _ Hab Hbc) as Hcc. by rewrite lt_irrefl in Hcc.
      * by eapply lt_trans.
Qed.

Lemma lex_lt_total l : ∀ k,
  lex_lt eqb lt l k = false → lex_lt eqb lt k l = false → l = k.
Proof.
  induction l as [|a l IH]; intros [|b k]; simpl; try done.
  destruct (eqb a b) eqn:Eab.
  - apply eqb_spec in Eab as ->. rewrite eqb_refl_true. intros ??. f_equal. by apply IH.
  - destruct (eqb b a) eqn:Eba.
    + apply eqb_spec in Eba as ->. by rewrite eqb_refl_true in Eab.
    + intros Hab Hba. pose proof (lt_total _ _ Hab Hba) as ->.
      by rewrite eqb_refl_true in Eab.
Qed.
End Lex.

Lemma codes_inj s t : codes s = codes t → s = t.
Proof.
  unfold codes. intros H.
  rewrite <- (string_of_list_ascii_of_string s), <- (string_of_list_ascii_of_string t).
  f_equal. revert H. generalize (list_ascii_of_string t).
  induction (list_ascii_of_string s) as [|a l IH]; intros [|b k]; simpl; try done.
  intros [= Hab Hlk]. f_equal; [|by apply IH].
  by rewrite <- (ascii_nat_embedding a), <- (ascii_nat_embedding b), Hab.
Qed.

Lemma nat_lt_total a b : Nat.ltb a b = false → Nat.ltb b a = false → a = b.
Proof. rewrite !Nat.ltb_ge. lia. Qed.

Lemma nat_lt_trans a b c : Nat.ltb a b = true → Nat.ltb b c = true → Nat.ltb a c = true.
Proof. rewrite !Nat.ltb_lt. lia. Qed.

Ltac nat_order :=
  first [apply Nat.eqb_eq | apply Nat.ltb_irrefl | apply nat_lt_trans | apply nat_lt_total].

Lemma str_lt_irrefl s : str_lt s s = false.
Proof. apply lex_lt_irrefl; nat_order. Qed.

Lemma str_lt_trans s t u : str_lt s t = true → str_lt t u = true → str_lt s u = true.
Proof.
  apply lex_lt_trans; nat_order.
Qed.

Lemma str_lt_total s t : str_lt s t = false → str_lt t s = false → s = t.
Proof.
  intros H1 H2. apply codes_inj. revert H1 H2.
  apply lex_lt_total; nat_order.
Qed.

Ltac str_order :=
  first [apply String.eqb_eq | apply str_lt_irrefl | apply str_lt_trans | apply str_lt_total].

Lemma path_lt_irrefl p : path_lt p p = false.
Proof. apply lex_lt_irrefl; str_order. Qed.

Lemma path_lt_trans p q r : path_lt p q = true → path_lt q r = true → path_lt p r = true.
Proof.
  apply lex_lt_trans; str_order.
Qed.

Lemma path_lt_total p q : path_lt p q = false → path_lt q p = false → p = q.
Proof. apply lex_lt_total; str_order. Qed.

#[local] Instance path_ordered_trans : Transitive path_ordered.
Proof.
  unfold path_ordered. intros a b c Hab Hbc.
  destruct (path_lt (NoteMetadata.path c) (NoteMetadata.path a)) eqn:Hca; [|done].
  destruct (path_lt (NoteMetadata.path a) (NoteMetadata.path b)) eqn:Hab'.
  - by rewrite (path_lt_trans _ _ _ Hca Hab') in Hbc.
  - rewrite (path_lt_total _ _ Hab' Hab) in Hca. by rewrite Hca in Hbc.
Qed.

Section Sorted.
Context {A : Type} (lt : A → A → bool).
Hypothesis lt_asym : ∀ a b, lt a b = true → lt b a = false.

Lemma insort_Permutation x l : insort lt x l ≡ₚ x :: l.
Proof.
  induction l as [|y l IH]; [done|]. simpl. destruct (lt x y); [done|].
  rewrite IH. apply Permutation_swap.
Qed.

Lemma foldl_insort_Permutation l : ∀ acc,
  foldl (λ acc x, insort lt x acc) acc l ≡ₚ acc ++ l.
Proof.
  induction l as [|x l IH]; intros acc; simpl; [by rewrite app_nil_r|].
  rewrite IH, insort_Permutation. simpl. by rewrite <- Permutation_middle.
Qed.

Lemma insort_Sorted x l :
  Sorted (λ a b, lt b a = false) l → Sorted (λ a b, lt b a = false) (insort lt x l).
Proof.
  induction l as [|y l IH]; simpl; [by repeat constructor|].
  intros Hs. apply Sorted_inv in Hs as [Hs Hhd].
  destruct (lt x y) eqn:Hxy.
  - constructor; [by constructor|]. constructor. by apply lt_asym.
  - constructor; [by apply IH|].
    destruct l as [|z l]; simpl; [by constructor|].
    destruct (lt x z); constructor; [done|]. by apply HdRel_inv in Hhd.
Qed.

Lemma foldl_insort_Sorted l : ∀ acc,
  Sorted (λ a b, lt b a = false) acc →
  Sorted (λ a b, lt b a = false) (foldl (λ acc x, insort lt x acc) acc l).
Proof.
  induction l as [|x l IH]; intros acc Hacc; simpl; [done|].
  by apply IH, insort_Sorted.
Qed.
End Sorted.

Lemma sorted_Permutation {A K} (lt : K → K → bool) (key : A → K) l :
  sorted lt key l ≡ₚ l.
Proof. unfold sorted. by rewrite foldl_insort_Permutation. Qed.

Lemma sorted_by_path l : Sorted path_ordered (sorted path_lt NoteMetadata.path l).
Proof.
  unfold sorted.
  apply (foldl_insort_Sorted
           (λ a b, path_lt (NoteMetadata.path a) (NoteMetadata.path b))); [|constructor].
  intros a b Hab.
  destruct (path_lt (NoteMetadata.path b) (NoteMetadata.path a)) eqn:Hba; [|done].
  pose proof (path_lt_trans _ _ _ Hab Hba) as Haa. by rewrite path_lt_irrefl in Haa.
Qed.

Lemma process_note_path fs safe_load note_path target_tags vault_root index note :
  process_note fs safe_load note_path target_tags vault_root index = Some note →
  NoteMetadata.path note = note_path.
Proof.
  unfold process_note. destruct (fs_read_text fs note_path) as [text|]; [|done].
  destruct (elements _) as [|t ts]; [done|].
  destruct (find_attachments _ _ _ _ _ _) as [atts|]; [|done].
  destruct (fs_stat_size fs note_path) as [sz|]; [|done].
  by intros [= <-].
Qed.

Section Scan.
Context (fs : FileSystem) (safe_load : string → option yaml).
Context (listing md_listing : list Path) (source_dir : Path).
Context (tags : gset string) (excluded_dirs : list string).

Local Abbreviation scan c :=
  (scan_notes_parallel fs safe_load c listing md_listing source_dir tags excluded_dirs).
Local Abbreviation built :=
  (build_vault_index fs listing (list_to_set excluded_dirs)).

(** The records of the scan before they are sorted. *)
Local Abbreviation found c index :=
  (omap id (c ((λ p, process_note fs safe_load p tags source_dir index)
                 <$> all_files md_listing (list_to_set excluded_dirs)))).

(** The scan raises what the building of the index raises, and nothing
    else. *)
Lemma scan_notes_parallel_built c :
  scan c = match built with
           | Ok index => Ok (sorted path_lt NoteMetadata.path (found c index))
           | Raise e => Raise e
           end.
Proof. unfold scan_notes_parallel. by destruct built. Qed.

Lemma found_members as_completed index note :
  (∀ l, as_completed l ≡ₚ l) →
  note ∈ sorted path_lt NoteMetadata.path (found as_completed index) ↔
  ∃ p, p ∈ md_listing ∧
       existsb (λ part, bool_decide (part ∈ (list_to_set excluded_dirs : gset string))) p
       = false ∧
       process_note fs safe_load p tags source_dir index = Some note.
Proof.
  intros Hperm.
  rewrite sorted_Permutation, list_elem_of_omap. setoid_rewrite Hperm.
  setoid_rewrite list_elem_of_fmap. unfold all_files. split.
  - intros (? & (p & -> & Hp) & Hnote).
    apply list_elem_of_In, filter_In in Hp as [Hp Hex].
    exists p. split_and!; [by apply list_elem_of_In|by apply negb_true_iff|done].
  - intros (p & Hp & Hex & Hnote). exists (Some note). split; [|done].
    exists p. split; [done|]. apply list_elem_of_In, filter_In.
    split; [by apply list_elem_of_In|by apply negb_true_iff].
Qed.

Lemma found_schedule c1 c2 index :
  (∀ l, c1 l ≡ₚ l) → (∀ l, c2 l ≡ₚ l) →
  sorted path_lt NoteMetadata.path (found c1 index)
  = sorted path_lt NoteMetadata.path (found c2 index).
Proof.
  intros H1 H2.
  apply (StronglySorted_unique_strong path_ordered).
  - intros x1 x2 Hx1 Hx2 H12 H21.
    apply (found_members _ _ _ H1) in Hx1 as (p1 & _ & _ & Hp1).
    apply (found_members _ _ _ H2) in Hx2 as (p2 & _ & _ & Hp2).
    pose proof (process_note_path _ _ _ _ _ _ _ Hp1) as E1.
    pose proof (process_note_path _ _ _ _ _ _ _ Hp2) as E2.
    pose proof (path_lt_total _ _ H21 H12) as E.
    rewrite E1, E2 in E. subst p2. congruence.
  - apply Sorted_StronglySorted; [apply _|]. apply sorted_by_path.
  - apply Sorted_StronglySorted; [apply _|]. apply sorted_by_path.
  - rewrite !sorted_Permutation. by rewrite H1, H2.
Qed.

(** X19.  Whatever the order in which the threads finish: when the index
    of the vault is built, the scan returns the records [process_note]
    makes, against that index, of the notes that no excluded directory
    holds, and nothing else; when the building of the index raises, the
    scan raises the same. *)
Theorem scan_notes_parallel_elem as_completed :
  (∀ l, as_completed l ≡ₚ l) →
  match build_vault_index fs listing (list_to_set excluded_dirs) with
  | Ok index =>
      ∃ notes,
        scan_notes_parallel fs safe_load as_completed listing md_listing source_dir tags
          excluded_dirs = Ok notes ∧
        ∀ note,
          note ∈ notes ↔
          ∃ p, p ∈ md_listing ∧
               existsb (λ part,
                          bool_decide (part ∈ (list_to_set excluded_dirs : gset string))) p
               = false ∧
               process_note fs safe_load p tags source_dir index = Some note
  | Raise e =>
      scan_notes_parallel fs safe_load as_completed listing md_listing source_dir tags
        excluded_dirs = Raise e
  end.
Proof.
  intros Hperm. rewrite scan_notes_parallel_built.
  destruct built as [index|e]; [|done].
  eexists. split; [done|]. intros note. by apply found_members.
Qed.

(** X20.  When the index of the vault is built, the scan returns its
    records in the order of their paths: no record comes before one whose
    path is less than its own, whatever the order in which the threads
    finish. *)
Theorem scan_notes_parallel_sorted as_completed index :
  build_vault_index fs listing (list_to_set excluded_dirs) = Ok index →
  ∃ notes,
    scan_notes_parallel fs safe_load as_completed listing md_listing source_dir tags
      excluded_dirs = Ok notes ∧
    StronglySorted path_ordered notes.
Proof.
  intros Hbuilt. rewrite scan_notes_parallel_built, Hbuilt.
  eexists. split; [done|]. apply Sorted_StronglySorted; [apply _|]. apply sorted_by_path.
Qed.

(** X21.  The order in which the threads finish does not show in what
    the scan returns: two runs over the same vault return the same
    list, or raise the same. *)
Theorem scan_notes_parallel_schedule c1 c2 :
  (∀ l, c1 l ≡ₚ l) → (∀ l, c2 l ≡ₚ l) →
  scan_notes_parallel fs safe_load c1 listing md_listing source_dir tags excluded_dirs
  = scan_notes_parallel fs safe_load c2 listing md_listing source_dir tags excluded_dirs.
Proof.
  intros H1 H2. rewrite !scan_notes_parallel_built.
  destruct built as [index|e]; [|done]. f_equal. by apply found_schedule.
Qed.
End Scan.

(** The index of the example vault. *)
Lemma scan_index_built :
  build_vault_index (disk_view scan_disk) scan_listing (list_to_set [".trash"])
  = Ok scan_index.
Proof. vm_compute. reflexivity. Qed.

Lemma scan_notes_parallel_elem_example :
  ∃ notes,
    scan_notes_parallel (disk_view scan_disk) (λ _, None) reverse
      scan_listing scan_md_listing ["/"; "vault"] {[ "ready" ]} [".trash"] = Ok notes ∧
    ∀ note,
      note ∈ notes ↔
      ∃ p, p ∈ scan_md_listing ∧
           existsb (λ part, bool_decide (part ∈ (list_to_set [".trash"] : gset string))) p
           = false ∧
           process_note (disk_view scan_disk) (λ _, None) p {[ "ready" ]} ["/"; "vault"]
             scan_index = Some note.
Proof.
  pose proof (scan_notes_parallel_elem (disk_view scan_disk) (λ _, None) scan_listing
                scan_md_listing ["/"; "vault"] {[ "ready" ]} [".trash"] reverse
                reverse_Permutation) as H.
  by rewrite scan_index_built in H.
Defined.

Lemma scan_notes_parallel_sorted_example :
  ∃ notes,
    scan_notes_parallel (disk_view scan_disk) (λ _, None) reverse
      scan_listing scan_md_listing ["/"; "vault"] {[ "ready" ]} [".trash"] = Ok notes ∧
    StronglySorted path_ordered notes.
Proof.
  apply (scan_notes_parallel_sorted (disk_view scan_disk) (λ _, None) scan_listing
           scan_md_listing ["/"; "vault"] {[ "ready" ]} [".trash"] reverse scan_index).
  vm_compute. reflexivity.
Defined.

Lemma scan_notes_parallel_schedule_example :
  scan_notes_parallel (disk_view scan_disk) (λ _, None) id
    scan_listing scan_md_listing ["/"; "vault"] {[ "ready" ]} [".trash"]
  = scan_notes_parallel (disk_view scan_disk) (λ _, None) reverse
      scan_listing scan_md_listing ["/"; "vault"] {[ "ready" ]} [".trash"].
Proof.
  apply (scan_notes_parallel_schedule (disk_view scan_disk) (λ _, None) scan_listing
           scan_md_listing ["/"; "vault"] {[ "ready" ]} [".trash"] id reverse).
  - intros l. reflexivity.
  - intros l. apply reverse_Permutation.
Defined.

(** The scan of the example vault: the note in the bin is left out and the
    other two come in the order of their paths. *)
Lemma scan_notes_parallel_example :
  scan_notes_parallel (disk_view scan_disk) (λ _, None) reverse
    scan_listing scan_md_listing ["/"; "vault"] {[ "ready" ]} [".trash"]
  = Ok [NoteMetadata.Build a_note ["ready"] [sub_pic] 19;
        NoteMetadata.Build b_note ["ready"] [] 6].
Proof. vm_compute. reflexivity. Qed.
